(** * serpent: multi-source option resolution and command dispatch

    A shallow embedding of the option model ([Option], [OptionSet],
    [ParseEnv], [SetDefaults]) and of the dispatch loop ([Invocation.run])
    of the Go package [serpent], together with the part of [spf13/pflag]
    that the dispatch loop drives.

    Conventions
    - A Go [pflag.Value] is an interface holding a pointer.  Pointers are
      references ([ref]) into a store, a list of value objects; two options alias one value when
      they hold the same reference.  A nil interface is [None].
    - A function that can panic returns [Res]; a Go [error] result is an
      [option error].
    - [fmt.Errorf] is kept symbolic: the format string as written in the
      source, and its arguments.
    - [run] is one function in the source; here it is [resolve] (up to
      the search for a child) followed by [terminal] (the rest), and the
      recursion on the child is [run_fuel].  [Run] calls [run] once
      [init] has accepted the command tree; the properties of the
      dispatch are about [run].
    - What the dispatch loop calls outside these files (completion,
      configuration files, the help template) is the record [Externals];
      the value types are the class [ValueOps]. *)

From Stdlib Require Import String Ascii ZArith Lia.
From stdpp Require Import base option list gmap strings sorting.

Open Scope string_scope.
Open Scope list_scope.

Set Warnings "-register-all".

(** ** Value sources *)

Inductive ValueSource :=
| ValueSourceNone
| ValueSourceFlag
| ValueSourceEnv
| ValueSourceYAML
| ValueSourceDefault.

#[global] Instance ValueSource_eq_dec : EqDecision ValueSource.
Proof. solve_decision. Defined.

Definition valueSourcePriority : list ValueSource :=
  [ValueSourceFlag; ValueSourceEnv; ValueSourceYAML; ValueSourceDefault; ValueSourceNone].

(** [slices.Index]: position of the first occurrence, or -1. *)
Fixpoint slices_Index_from {A} `{EqDecision A} (i : Z) (s : list A) (v : A) : Z :=
  match s with
  | [] => (-1)%Z
  | x :: s' => if decide (v = x) then i else slices_Index_from (i + 1)%Z s' v
  end.

Definition slices_Index {A} `{EqDecision A} (s : list A) (v : A) : Z :=
  slices_Index_from 0%Z s v.

(** ** Options *)

(** A reference to a value object: the identity of a [pflag.Value]. *)
Abbreviation ref := nat.

Module Option.
Record t := mk {
  Name : string;
  Description : string;
  Required : bool;
  Flag : string;
  FlagShorthand : string;
  Env : string;
  YAML : string;
  Default : string;
  Value : option ref;
  Hidden : bool;
  ValueSource : ValueSource
}.

(** [o.ValueSource = vs] *)
Definition set_ValueSource vs (o : t) : t :=
  mk (Name o) (Description o) (Required o) (Flag o) (FlagShorthand o)
     (Env o) (YAML o) (Default o) (Value o) (Hidden o) vs.

(** [o.Name = n] *)
Definition set_Name (n : string) (o : t) : t :=
  mk n (Description o) (Required o) (Flag o) (FlagShorthand o)
     (Env o) (YAML o) (Default o) (Value o) (Hidden o) (ValueSource o).

(** The zero value of the struct. *)
Definition zero : t :=
  mk "" "" false "" "" "" "" "" None false ValueSourceNone.
End Option.

#[global] Instance Option_inhabited : Inhabited Option.t := populate Option.zero.

Abbreviation OptionSet := (list Option.t).

Module EnvVar.
Record t := mk { Name : string; Value : string }.
End EnvVar.

(** ** Errors and panics *)

Inductive FmtArg :=
| FmtString (s : string)
| FmtStrings (l : list string)
| FmtInt (z : Z)
| FmtOption (o : Option.t).

Inductive error :=
| Errorf (format : string) (args : list FmtArg)
  (** [fmt.Errorf(format, args...)] with one [%w] verb wrapping [wrapped] *)
| ErrorfW (format : string) (args : list FmtArg) (wrapped : error)
  (** an error value returned by a [Value.Set] implementation *)
| ValueError (msg : string)
  (** [pflag.ErrHelp] *)
| ErrHelp
  (** [*multierror.Error] *)
| multierror (Errors : list error)
| UnknownSubcommandError (Args : list string)
  (** [Cmd] is kept as the command's [FullName()] *)
| RunCommandError (Cmd : string) (Err : error)
  (** the flag library's [fmt.Errorf("invalid argument %q for %q flag: %v",
      value, flagName, err)]: [cause] is printed, not wrapped *)
| InvalidArgument (value flagName : string) (cause : error).

(** [merr.ErrorOrNil()] on the accumulated list. *)
Definition ErrorOrNil (merr : list error) : option error :=
  match merr with
  | [] => None
  | _ => Some (multierror merr)
  end.

Inductive Res (A : Type) :=
| Ret (a : A)
| Panic (v : error).
Arguments Ret {A} a.
Arguments Panic {A} v.

#[global] Instance Res_ret : MRet Res := λ A a, Ret a.
#[global] Instance Res_bind : MBind Res := λ A B f m,
  match m with
  | Ret a => f a
  | Panic v => Panic v
  end.

Definition nilDeref {A} : Res A :=
  Panic (Errorf "runtime error: invalid memory address or nil pointer dereference" []).

(** ** The value capability *)

(** [pflag.Value]: the concrete value types live outside the modelled
    files, so the interface is a class.  [value_Set raw v] is the object
    after the call and the error the call returned. *)
Class ValueOps (V : Type) := {
  value_Set : string → V → V * option error;
  value_String : V → string;
  value_Type : V → string;
  (** the dynamic type test: is the value a [YAMLConfigPath] pointer *)
  value_isYAMLConfigPath : V → bool;
  (** the optional capability [NoOptDefValuer]: [Some (v.NoOptDefValue())]
      when the value implements it *)
  value_NoOptDefValue : V → option string
}.

Section Resolution.
Context {V : Type} `{!ValueOps V}.

(** The store of value objects: [st !! r] is the object behind the
    reference [r]. *)
Local Abbreviation Store := (list V).

(** [val.Set(raw)] through a reference; a nil or dangling receiver panics. *)
Definition Value_Set (val : option ref) (raw : string) (st : Store)
  : Res (Store * option error) :=
  match val with
  | None => nilDeref
  | Some r =>
      match st !! r with
      | None => nilDeref
      | Some v => let '(v', e) := value_Set raw v in Ret (<[r := v']> st, e)
      end
  end.

(** *** ParseEnv *)

(** [envs := make(map[string]string); for _, v := range vs { envs[v.Name] = v.Value }] *)
Definition envMap (vs : list EnvVar.t) : gmap string string :=
  foldl (λ m v, <[EnvVar.Name v := EnvVar.Value v]> m) ∅ vs.

(** The lookup with the [HOMEBREW_] fallback. *)
Definition lookupEnv (envs : gmap string string) (name : string) : option string :=
  match envs !! name with
  | Some envVal => Some envVal
  | None => envs !! ("HOMEBREW_" +:+ name)
  end.

(** One iteration of the loop body, for index [i] and the copy [opt]. *)
Definition ParseEnv_body (envs : gmap string string) (i : nat) (opt : Option.t)
    (s : OptionSet * Store * list error) : Res (OptionSet * Store * list error) :=
  let '(optSet, st, merr) := s in
  if decide (Option.Env opt = "") then Ret s
  else
    match lookupEnv envs (Option.Env opt) with
    | None => Ret s
    | Some envVal =>
        if decide (envVal = "") then Ret s
        else
          let optSet := alter (Option.set_ValueSource ValueSourceEnv) i optSet in
          '(st, err) ← Value_Set (Option.Value opt) envVal st;
          match err with
          | Some e =>
              Ret (optSet, st,
                   merr ++ [ErrorfW "parse %q: %w" [FmtString (Option.Name opt)] e])
          | None => Ret (optSet, st, merr)
          end
    end.

Fixpoint ParseEnv_loop (envs : gmap string string) (i : nat) (rest : list Option.t)
    (s : OptionSet * Store * list error) : Res (OptionSet * Store * list error) :=
  match rest with
  | [] => Ret s
  | opt :: rest' =>
      s' ← ParseEnv_body envs i opt s;
      ParseEnv_loop envs (S i) rest' s'
  end.

Definition ParseEnv (optSet : OptionSet) (vs : list EnvVar.t) (st : Store)
  : Res (OptionSet * Store * option error) :=
  '(optSet', st', merr) ← ParseEnv_loop (envMap vs) 0 optSet (optSet, st, []);
  Ret (optSet', st', ErrorOrNil merr).

(** *** SetDefaults *)

(** [groupByValue[val] = append(groupByValue[val], opt)].  The map is
    keyed by the identity of the value; a member is the index of the
    option it points to.  Go leaves the iteration order of a map open;
    here the groups are visited in the order in which their values first
    occur.  Groups have disjoint members and distinct values. *)
Fixpoint groupByValue_append (groups : list (ref * list nat)) (val : ref) (i : nat)
  : list (ref * list nat) :=
  match groups with
  | [] => [(val, [i])]
  | (val', opts) :: groups' =>
      if decide (val' = val) then (val', opts ++ [i]) :: groups'
      else (val', opts) :: groupByValue_append groups' val i
  end.

(** The first loop: group the options, report the ones without a value. *)
Fixpoint groupByValue_loop (i : nat) (rest : list Option.t)
    (groups : list (ref * list nat)) (merr : list error)
  : list (ref * list nat) * list error :=
  match rest with
  | [] => (groups, merr)
  | opt :: rest' =>
      match Option.Value opt with
      | None =>
          groupByValue_loop (S i) rest' groups
            (merr ++ [Errorf "parse %q: no Value field set\nFull opt: %+v"
                        [FmtString (Option.Name opt); FmtOption opt]])
      | Some val =>
          groupByValue_loop (S i) rest' (groupByValue_append groups val i) merr
      end
  end.

Definition sortOptionByValueSourcePriorityOrDefault (a b : Option.t) : Z :=
  if decide (Option.ValueSource a ≠ Option.ValueSource b) then
    (slices_Index valueSourcePriority (Option.ValueSource a)
     - slices_Index valueSourcePriority (Option.ValueSource b))%Z
  else if decide (Option.Default a ≠ Option.Default b) then
    if decide (Option.Default a = "") then 1%Z
    else if decide (Option.Default b = "") then (-1)%Z
    else 0%Z
  else 0%Z.

(** [slices.SortFunc] as the insertion sort that the library runs on
    short slices: each element moves left while it compares below its
    left neighbour.  [sorted_rev] is the sorted prefix, last element
    first. *)
Fixpoint insertionSort_insert {A} (cmp : A → A → Z) (x : A) (sorted_rev : list A) : list A :=
  match sorted_rev with
  | [] => [x]
  | y :: r =>
      if (cmp x y <? 0)%Z then y :: insertionSort_insert cmp x r
      else x :: y :: r
  end.

Definition slices_SortFunc {A} (cmp : A → A → Z) (s : list A) : list A :=
  rev (foldl (λ acc x, insertionSort_insert cmp x acc) [] s).

(** [for _, opt := range opts { opt.ValueSource = vs }] through the pointers. *)
Definition markSource (optSet : OptionSet) (opts : list nat) (vs : OptionSet → ValueSource)
  : OptionSet :=
  foldl (λ os i, alter (Option.set_ValueSource (vs os)) i os) optSet opts.

(** The search for the option that carries the default of a group. *)
Definition findDefault_body (optSet : OptionSet) (s : option nat * list error) (i : nat)
  : option nat * list error :=
  let '(optWithDefault, merr) := s in
  let opt := optSet !!! i in
  if decide (Option.Default opt = "") then s
  else
    match optWithDefault with
    | Some j =>
        let owd := optSet !!! j in
        if decide (Option.Default owd ≠ Option.Default opt) then
          (optWithDefault,
           merr ++ [Errorf "parse %q: multiple defaults set for the same value: %q and %q (%q)"
                      [FmtString (Option.Name opt); FmtString (Option.Default opt);
                       FmtString (Option.Default owd); FmtString (Option.Name owd)]])
        else (Some i, merr)
    | None => (Some i, merr)
    end.

(** The body of the loop over the groups. *)
Definition SetDefaults_group (s : OptionSet * Store * list error) (group : ref * list nat)
  : Res (OptionSet * Store * list error) :=
  let '(optSet, st, merr) := s in
  let opts :=
    slices_SortFunc
      (λ a b, sortOptionByValueSourcePriorityOrDefault (optSet !!! a) (optSet !!! b))
      group.2 in
  match opts with
  | [] =>
      (* [opts[0]] on an empty slice; a group is never empty *)
      Panic (Errorf "runtime error: index out of range [0] with length 0" [])
  | first :: others =>
      if decide (Option.ValueSource (optSet !!! first) ≠ ValueSourceNone) then
        Ret (markSource optSet others (λ os, Option.ValueSource (os !!! first)), st, merr)
      else
        let '(optWithDefault, merr) := foldl (findDefault_body optSet) (None, merr) opts in
        match optWithDefault with
        | None => Ret (optSet, st, merr)
        | Some j =>
            let owd := optSet !!! j in
            '(st, err) ← Value_Set (Option.Value owd) (Option.Default owd) st;
            let merr :=
              match err with
              | Some e => merr ++ [ErrorfW "parse %q: %w" [FmtString (Option.Name owd)] e]
              | None => merr
              end in
            Ret (markSource optSet opts (λ _, ValueSourceDefault), st, merr)
        end
  end.

Fixpoint SetDefaults_loop (groups : list (ref * list nat))
    (s : OptionSet * Store * list error) : Res (OptionSet * Store * list error) :=
  match groups with
  | [] => Ret s
  | g :: groups' =>
      s' ← SetDefaults_group s g;
      SetDefaults_loop groups' s'
  end.

Definition SetDefaults (optSet : OptionSet) (st : Store)
  : Res (OptionSet * Store * option error) :=
  let '(groupByValue, merr) := groupByValue_loop 0 optSet [] [] in
  '(optSet', st', merr) ← SetDefaults_loop groupByValue (optSet, st, merr);
  Ret (optSet', st', ErrorOrNil merr).

End Resolution.

(** ** The flag library *)

(** The part of [github.com/spf13/pflag] (v1.0.5, the version the module
    requires) that the dispatch loop drives: flag sets created with
    [NewFlagSet(name, ContinueOnError)], which sort their flags by name
    when visiting and accept flags interspersed with positional
    arguments.  A flag is kept by value; the [Changed] mark a parse
    leaves on a flag object is the [Changed] field of the entry. *)
Module pflag.

Record Flag := mkFlag {
  Name : string;
  Shorthand : string;
  Usage : string;
  (** [None] is [DiscardValue], whose [Set] accepts and drops every text *)
  Value : option ref;
  Changed : bool;
  NoOptDefVal : string;
  Hidden : bool
}.

Record FlagSet := mkFlagSet {
  name : string;
  (** the flags in the order in which they were added *)
  formal : list Flag;
  (** the positional arguments of the last parse *)
  args : list string
}.

Definition NewFlagSet (name : string) : FlagSet := mkFlagSet name [] [].

Definition set_formal (formal : list Flag) (fs : FlagSet) : FlagSet :=
  mkFlagSet (name fs) formal (args fs).

Definition set_args (args : list string) (fs : FlagSet) : FlagSet :=
  mkFlagSet (name fs) (formal fs) args.

Definition set_Changed (f : Flag) : Flag :=
  mkFlag (Name f) (Shorthand f) (Usage f) (Value f) true (NoOptDefVal f) (Hidden f).

(** [fs.Lookup(name)]: nil when no flag has the name. *)
Definition Lookup (fs : FlagSet) (n : string) : option Flag :=
  List.find (λ f, bool_decide (Name f = n)) (formal fs).

(** The entry of the shorthand table for the letter [c]. *)
Definition lookupShorthand (fs : FlagSet) (c : ascii) : option Flag :=
  List.find (λ f, bool_decide (Shorthand f = String c "")) (formal fs).

(** [fs.AddFlag(flag)]; it panics on a name or a shorthand that is taken. *)
Definition AddFlag (fs : FlagSet) (flag : Flag) : Res FlagSet :=
  match Lookup fs (Name flag) with
  | Some _ =>
      Panic (Errorf "%s flag redefined: %s" [FmtString (name fs); FmtString (Name flag)])
  | None =>
      let fs' := set_formal (formal fs ++ [flag]) fs in
      match Shorthand flag with
      | "" => Ret fs'
      | String c "" =>
          match lookupShorthand fs c with
          | Some used =>
              Panic (Errorf
                "unable to redefine %q shorthand in %q flagset: it's already used for %q flag"
                [FmtString (String c ""); FmtString (name fs); FmtString (Name used)])
          | None => Ret fs'
          end
      | _ =>
          Panic (Errorf "%q shorthand is more than one ASCII character"
                   [FmtString (Shorthand flag)])
      end
  end.

(** The flags in the order in which [VisitAll] calls its argument:
    sorted by name. *)
Definition VisitAll (fs : FlagSet) : list Flag :=
  merge_sort (λ a b, String.leb (Name a) (Name b)) (formal fs).

Section Parse.
Context {V : Type} `{!ValueOps V}.

(** [fs.Set(name, value)]. *)
Definition Set_ (fs : FlagSet) (n value : string) (st : list V)
  : Res (FlagSet * list V * option error) :=
  match Lookup fs n with
  | None => Ret (fs, st, Some (Errorf "no such flag -%v" [FmtString n]))
  | Some flag =>
      '(st, err) ← match Value flag with
                   | None => Ret (st, None)
                   | Some r => Value_Set (Some r) value st
                   end;
      match err with
      | Some e =>
          let flagName :=
            if decide (Shorthand flag ≠ "")
            then "-" +:+ Shorthand flag +:+ ", --" +:+ Name flag
            else "--" +:+ Name flag in
          Ret (fs, st, Some (InvalidArgument value flagName e))
      | None =>
          Ret (set_formal
                 ((λ f, if decide (Name f = n) then set_Changed f else f) <$> formal fs) fs,
               st, None)
      end
  end.

(** The text before the first [=] and, when there is one, the text after it:
    [strings.SplitN(s, "=", 2)]. *)
Fixpoint splitEq (s : string) : string * option string :=
  match s with
  | "" => ("", None)
  | String c rest =>
      if decide (c = "="%char) then ("", Some rest)
      else let '(before, after) := splitEq rest in (String c before, after)
  end.

(** [parseLongArg] for the argument [s] = [--name...]; [next] is the
    argument that follows, if any.  The boolean tells whether [next] was
    taken as the value. *)
Definition parseLongArg (fs : FlagSet) (s : string) (next : option string) (st : list V)
  : Res (FlagSet * list V * bool * option error) :=
  let name := substring 2 (String.length s - 2) s in
  match name with
  | "" => Ret (fs, st, false, Some (Errorf "bad flag syntax: %s" [FmtString s]))
  | String c _ =>
      if decide (c = "-"%char ∨ c = "="%char)
      then Ret (fs, st, false, Some (Errorf "bad flag syntax: %s" [FmtString s]))
      else
        let '(name, inline) := splitEq name in
        match Lookup fs name with
        | None =>
            if decide (name = "help") then Ret (fs, st, false, Some ErrHelp)
            else Ret (fs, st, false, Some (Errorf "unknown flag: --%s" [FmtString name]))
        | Some flag =>
            match inline, next with
            | Some value, _ =>
                '(fs, st, err) ← Set_ fs (Name flag) value st; Ret (fs, st, false, err)
            | None, _ =>
                if decide (NoOptDefVal flag ≠ "") then
                  '(fs, st, err) ← Set_ fs (Name flag) (NoOptDefVal flag) st;
                  Ret (fs, st, false, err)
                else
                  match next with
                  | Some value =>
                      '(fs, st, err) ← Set_ fs (Name flag) value st; Ret (fs, st, true, err)
                  | None =>
                      Ret (fs, st, false,
                           Some (Errorf "flag needs an argument: %s" [FmtString s]))
                  end
            end
        end
  end.

(** [parseShortArg]: the loop over the letters of [-abc], with
    [parseSingleShortArg] as its body.  The boolean tells whether [next]
    was taken as the value of the last letter. *)
Fixpoint parseShortArg (fs : FlagSet) (shorthands : string) (next : option string)
    (st : list V) : Res (FlagSet * list V * bool * option error) :=
  match shorthands with
  | "" => Ret (fs, st, false, None)
  | String c outShorts =>
      if String.prefix "test." shorthands then Ret (fs, st, false, None)
      else
        match lookupShorthand fs c with
        | None =>
            if decide (c = "h"%char) then Ret (fs, st, false, Some ErrHelp)
            else Ret (fs, st, false,
                      Some (Errorf "unknown shorthand flag: %q in -%s"
                              [FmtString (String c ""); FmtString shorthands]))
        | Some flag =>
            match outShorts with
            | String "=" value =>
                if decide (value ≠ "") then
                  '(fs, st, err) ← Set_ fs (Name flag) value st; Ret (fs, st, false, err)
                else if decide (NoOptDefVal flag ≠ "") then
                  '(fs, st, err) ← Set_ fs (Name flag) (NoOptDefVal flag) st;
                  match err with
                  | Some e => Ret (fs, st, false, Some e)
                  | None => parseShortArg fs outShorts next st
                  end
                else
                  '(fs, st, err) ← Set_ fs (Name flag) outShorts st; Ret (fs, st, false, err)
            | _ =>
                if decide (NoOptDefVal flag ≠ "") then
                  '(fs, st, err) ← Set_ fs (Name flag) (NoOptDefVal flag) st;
                  match err with
                  | Some e => Ret (fs, st, false, Some e)
                  | None => parseShortArg fs outShorts next st
                  end
                else if decide (outShorts ≠ "") then
                  '(fs, st, err) ← Set_ fs (Name flag) outShorts st; Ret (fs, st, false, err)
                else
                  match next with
                  | Some value =>
                      '(fs, st, err) ← Set_ fs (Name flag) value st; Ret (fs, st, true, err)
                  | None =>
                      Ret (fs, st, false,
                           Some (Errorf "flag needs an argument: %q in -%s"
                                   [FmtString (String c ""); FmtString shorthands]))
                  end
            end
        end
  end.

(** [parseArgs]: positional arguments are collected, [--] ends the
    flags, every other argument that starts with [-] is a flag. *)
Fixpoint parseArgs (fs : FlagSet) (args : list string) (st : list V)
  : Res (FlagSet * list V * option error) :=
  match args with
  | [] => Ret (fs, st, None)
  | s :: rest =>
      match s with
      | String c0 (String c s') =>
          if decide (c0 ≠ "-"%char) then
            parseArgs (set_args (pflag.args fs ++ [s]) fs) rest st
          else if decide (c = "-"%char ∧ s' = "") then
            Ret (set_args (pflag.args fs ++ rest) fs, st, None)
          else
            '(fs, st, consumed, err) ←
              (if decide (c = "-"%char) then parseLongArg fs s (head rest) st
               else parseShortArg fs (String c s') (head rest) st);
            match err with
            | Some e => Ret (fs, st, Some e)
            | None =>
                match consumed, rest with
                | true, _ :: rest' => parseArgs fs rest' st
                | _, _ => parseArgs fs rest st
                end
            end
      | _ => parseArgs (set_args (pflag.args fs ++ [s]) fs) rest st
      end
  end.

(** [fs.Parse(arguments)]; the positional arguments are then [args]. *)
Definition Parse (fs : FlagSet) (arguments : list string) (st : list V)
  : Res (FlagSet * list V * option error) :=
  parseArgs (set_args [] fs) arguments st.

End Parse.

End pflag.

(** ** Commands *)

(** What a handler reads from the invocation it is given: the positional
    arguments and the number of children of the command.  A handler is a
    function outside the package; what it does to the values is not
    tracked, the dispatch loop does nothing after it but wrap its error. *)
Record InvocationView := mkView {
  view_Args : list string;
  view_Children : nat
}.

Definition HandlerFunc := InvocationView → Res (option error).
Definition MiddlewareFunc := HandlerFunc → HandlerFunc.

Fixpoint chain (ms : list MiddlewareFunc) : MiddlewareFunc :=
  λ next,
    match ms with
    | m :: ms' => chain ms' (m next)
    | [] => next
    end.

(** [Chain(ms...)]: the middlewares run top to bottom. *)
Definition Chain (ms : list MiddlewareFunc) : MiddlewareFunc := chain (rev ms).

(** [RequireRangeArgs(start, end)]; [end = -1] means no upper bound. *)
Definition RequireRangeArgs (start end_ : Z) : Res MiddlewareFunc :=
  if (start <? 0)%Z then Panic (Errorf "start must be >= 0" [])
  else
    Ret (λ next i,
      let got := Z.of_nat (length (view_Args i)) in
      if decide (start = end_ ∧ got ≠ start) then
        if decide (start = 0%Z) then
          if decide (0 < view_Children i)%nat then
            Ret (Some (Errorf "unrecognized subcommand %q"
                         [FmtString (default "" (head (view_Args i)))]))
          else
            Ret (Some (Errorf "wanted no args but got %v %v"
                         [FmtInt got; FmtStrings (view_Args i)]))
        else
          Ret (Some (Errorf "wanted %v args but got %v %v"
                       [FmtInt start; FmtInt got; FmtStrings (view_Args i)]))
      else if decide (0 < start ∧ end_ = (-1))%Z then
        if decide (got < start)%Z then
          Ret (Some (Errorf "wanted at least %v args but got %v" [FmtInt start; FmtInt got]))
        else next i
      else if decide (end_ < start)%Z then Panic (Errorf "start must be <= end" [])
      else if decide (got < start ∨ end_ < got)%Z then
        Ret (Some (Errorf "wanted between %v and %v args but got %v"
                     [FmtInt start; FmtInt end_; FmtInt got]))
      else next i).


Module Command.
Inductive t := mk {
  Children : list t;
  Use : string;
  Aliases : list string;
  Hidden : bool;
  Deprecated : string;
  RawArgs : bool;
  Options : OptionSet;
  Middleware : option MiddlewareFunc;
  Handler : option HandlerFunc;
  HelpHandler : option HandlerFunc;
  Version : string
}.

(** [c.Options = opts] *)
Definition set_Options (opts : OptionSet) (c : t) : t :=
  mk (Children c) (Use c) (Aliases c) (Hidden c) (Deprecated c) (RawArgs c) opts
     (Middleware c) (Handler c) (HelpHandler c) (Version c).

(** [strings.Split(s, " ")[0]] *)
Fixpoint firstWord (s : string) : string :=
  match s with
  | "" => ""
  | String c rest => if decide (c = " "%char) then "" else String c (firstWord rest)
  end.

(** [c.Name()]: the first word of the usage string. *)
Definition Name (c : t) : string := firstWord (Use c).

(** [c.FullName()], with the chain of [Parent] pointers given as the list
    of ancestors, nearest first. *)
Definition FullName (parents : list t) (c : t) : string :=
  String.concat " " (rev (Name <$> parents) ++ [Name c]).
End Command.

Module Invocation.
Record t := mk {
  Command : Command.t;
  (** the chain of [Parent] pointers from [Command], nearest first; the
      ancestors carry the options as their stage of resolution left them *)
  parents : list Command.t;
  parsedFlags : option pflag.FlagSet;
  Args : list string;
  Environ : list EnvVar.t
}.
End Invocation.

(** [c.Invoke(args...)] *)
Definition Invoke (c : Command.t) (args : list string) : Invocation.t :=
  Invocation.mk c [] None args [].

Record runState := mkRunState {
  allArgs : list string;
  commandDepth : nat;
  flagParseErr : option error
}.

Inductive Stream := Stdout | Stderr.

(** What an invocation does besides returning: what it prints, and which
    handler it hands control to. *)
Inductive Event :=
| Fprintf (w : Stream) (format : string) (args : list FmtArg)
| CallHandler (cmd : string) (args : list string)
| CallHelpHandler (cmd : string) (args : list string).

(** [errors.Is(err, pflag.ErrHelp)]: the chain of wrapped errors is
    searched. *)
Fixpoint errors_Is_ErrHelp (e : error) : bool :=
  match e with
  | ErrHelp => true
  | ErrorfW _ _ wrapped => errors_Is_ErrHelp wrapped
  | multierror errs => existsb errors_Is_ErrHelp errs
  | RunCommandError _ err => errors_Is_ErrHelp err
  | _ => false
  end.

Definition isHelp (err : option error) : bool :=
  match err with
  | Some e => errors_Is_ErrHelp e
  | None => false
  end.

(** [strings.Contains(s, "=")] *)
Fixpoint containsEq (s : string) : bool :=
  match s with
  | "" => false
  | String c rest => if decide (c = "="%char) then true else containsEq rest
  end.

(** [strings.TrimLeft(s, "-")] *)
Fixpoint trimDashes (s : string) : string :=
  match s with
  | String "-" rest => trimDashes rest
  | _ => s
  end.

(** [findArg(want, args, fs)]: the index of the first argument equal to
    [want], skipping the flags and their values.  [i] is the index of the
    head of [args]; [skip] tells that the head is the value of the flag
    before it. *)
Fixpoint findArg_loop (want : string) (fs : pflag.FlagSet) (i : nat) (skip : bool)
    (args : list string) : error + nat :=
  match args with
  | [] => inl (Errorf "arg %s not found" [FmtString want])
  | arg :: rest =>
      if skip then findArg_loop want fs (S i) false rest
      else if negb (String.prefix "-" arg) then
        if decide (arg = want) then inr i else findArg_loop want fs (S i) false rest
      else if containsEq arg then findArg_loop want fs (S i) false rest
      else
        match pflag.Lookup fs (trimDashes arg) with
        | None => inl (Errorf "unknown flag: %s" [FmtString arg])
        | Some f =>
            if decide (pflag.NoOptDefVal f ≠ "") then findArg_loop want fs (S i) false rest
            else
              match rest with
              | [] => inl (Errorf "flag %s requires a value" [FmtString arg])
              | _ => findArg_loop want fs (S i) true rest
              end
        end
  end.

Definition findArg (want : string) (args : list string) (fs : pflag.FlagSet) : error + nat :=
  findArg_loop want fs 0 false args.

(** [usageWantsArgRe.MatchString(use)] for the expression [<.*>]: an
    opening bracket and, later on the same line, a closing one. *)
Fixpoint closesOnLine (s : string) : bool :=
  match s with
  | "" => false
  | String c rest =>
      if decide (c = ">"%char) then
        true
      else if decide (c = "010"%char) then false
      else closesOnLine rest
  end.

Fixpoint usageWantsArg (s : string) : bool :=
  match s with
  | "" => false
  | String c rest =>
      if decide (c = "<"%char) then closesOnLine rest || usageWantsArg rest
      else usageWantsArg rest
  end.

(** ** The dispatch loop *)

Module InvocationOps.
(** [inv.Command = c] *)
Definition set_Command (c : Command.t) (inv : Invocation.t) : Invocation.t :=
  Invocation.mk c (Invocation.parents inv) (Invocation.parsedFlags inv)
    (Invocation.Args inv) (Invocation.Environ inv).

(** [inv.parsedFlags = fs] *)
Definition set_parsedFlags (fs : pflag.FlagSet) (inv : Invocation.t) : Invocation.t :=
  Invocation.mk (Invocation.Command inv) (Invocation.parents inv) (Some fs)
    (Invocation.Args inv) (Invocation.Environ inv).

(** [inv.Args = args] *)
Definition set_Args (args : list string) (inv : Invocation.t) : Invocation.t :=
  Invocation.mk (Invocation.Command inv) (Invocation.parents inv)
    (Invocation.parsedFlags inv) args (Invocation.Environ inv).

(** [child.Parent = inv.Command; inv.Command = child] *)
Definition descend (child : Command.t) (inv : Invocation.t) : Invocation.t :=
  Invocation.mk child (Invocation.Command inv :: Invocation.parents inv)
    (Invocation.parsedFlags inv) (Invocation.Args inv) (Invocation.Environ inv).
End InvocationOps.

Definition set_flagParseErr (err : option error) (s : runState) : runState :=
  mkRunState (allArgs s) (commandDepth s) err.

Definition set_commandDepth (d : nat) (s : runState) : runState :=
  mkRunState (allArgs s) d (flagParseErr s).

(** [optSet.ByFlag(flag)] *)
Definition ByFlag (optSet : OptionSet) (flag : string) : option Option.t :=
  if decide (flag = "") then None
  else List.find (λ opt, bool_decide (Option.Flag opt = flag)) optSet.

(** The names and aliases of the children, as the lookup table of the
    dispatch loop; a name that occurs twice is an error. *)
Fixpoint addChildNames (child : Command.t) (names : list string)
    (children : gmap string Command.t) : error + gmap string Command.t :=
  match names with
  | [] => inr children
  | n :: names' =>
      match children !! n with
      | Some _ => inl (Errorf "duplicate command name: %s" [FmtString n])
      | None => addChildNames child names' (<[n := child]> children)
      end
  end.

Fixpoint buildChildren (cs : list Command.t) (children : gmap string Command.t)
  : error + gmap string Command.t :=
  match cs with
  | [] => inr children
  | child :: cs' =>
      match addChildNames child (Command.Aliases child ++ [Command.Name child]) children with
      | inl e => inl e
      | inr children' => buildChildren cs' children'
      end
  end.

(** [fs.VisitAll(func(f) { if f.Name == without { return }; fs2.AddFlag(f) })] *)
Fixpoint copyFlags (fs2 : pflag.FlagSet) (without : string) (flags : list pflag.Flag)
  : Res pflag.FlagSet :=
  match flags with
  | [] => Ret fs2
  | f :: flags' =>
      if decide (pflag.Name f = without) then copyFlags fs2 without flags'
      else fs2' ← pflag.AddFlag fs2 f; copyFlags fs2' without flags'
  end.

Definition copyFlagSetWithout (fs : pflag.FlagSet) (without : string) : Res pflag.FlagSet :=
  copyFlags (pflag.NewFlagSet "") without (pflag.VisitAll fs).

(** The body of the merge: a flag of the command replaces the flag of
    the same name that the accumulated set holds. *)
Definition mergeFlag (parsedFlags : pflag.FlagSet) (f : pflag.Flag) : Res pflag.FlagSet :=
  parsedFlags' ←
    match pflag.Lookup parsedFlags (pflag.Name f) with
    | Some _ => copyFlagSetWithout parsedFlags (pflag.Name f)
    | None => Ret parsedFlags
    end;
  pflag.AddFlag parsedFlags' f.

Fixpoint mergeFlags_loop (parsedFlags : pflag.FlagSet) (flags : list pflag.Flag)
  : Res pflag.FlagSet :=
  match flags with
  | [] => Ret parsedFlags
  | f :: flags' =>
      parsedFlags' ← mergeFlag parsedFlags f; mergeFlags_loop parsedFlags' flags'
  end.

(** [inv.Command.Options.FlagSet().VisitAll(...)] on the accumulated set. *)
Definition mergeFlags (parsedFlags nodeFlags : pflag.FlagSet) : Res pflag.FlagSet :=
  mergeFlags_loop parsedFlags (pflag.VisitAll nodeFlags).

(** The flag an option declares: [Changed] is false, the value is the
    option's, or [DiscardValue] when the option has none. *)
Definition flagOf (opt : Option.t) (noOptDefValue : string) : pflag.Flag :=
  pflag.mkFlag (Option.Flag opt) (Option.FlagShorthand opt) (Option.Description opt)
    (Option.Value opt) false noOptDefValue (Option.Hidden opt).

(** The options of a command whose flag was present in the parse are
    marked [flag]. *)
Definition markFlagSources (optSet : OptionSet) (parsedFlags : pflag.FlagSet) : OptionSet :=
  (λ opt,
     match pflag.Lookup parsedFlags (Option.Flag opt) with
     | Some fl =>
         if pflag.Changed fl then Option.set_ValueSource ValueSourceFlag opt else opt
     | None => opt
     end) <$> optSet.

(** The names of the required options that have no source. *)
Definition missingRequired (optSet : OptionSet) : list string :=
  (λ opt, if decide (Option.Name opt = "") then Option.Flag opt else Option.Name opt)
    <$> filter (λ opt, Option.Required opt = true
                       ∧ Option.ValueSource opt = ValueSourceNone) optSet.

Section Run.
Context {V : Type} `{!ValueOps V}.

(** The collaborators of the dispatch loop that live outside the
    modelled files. *)
Record Externals := mkExternals {
  (** [inv.IsCompletionMode()], read off the environment snapshot *)
  IsCompletionMode : list EnvVar.t → bool;
  (** [inv.complete()], the candidates of the completion mode *)
  complete : Invocation.t → list V → list string;
  (** reading, decoding and applying the configuration file at a path:
      the options and values afterwards, and the error that the loop
      returns when one of the three steps fails *)
  readConfig : string → OptionSet → list V → OptionSet * list V * option error;
  (** executing the help template and flushing the writers *)
  renderHelp : Invocation.t → option error
}.

Record RunResult := mkRunResult {
  result : option error;
  final : Invocation.t;
  store : list V;
  log : list Event
}.

(** A step of the loop goes on, returns from [run], or panics. *)
Inductive Early (A : Type) :=
| Go (a : A)
| Stop (r : RunResult)
| Crash (v : error).
Arguments Go {A} a.
Arguments Stop {A} r.
Arguments Crash {A} v.

#[global] Instance Early_ret : MRet Early := λ A a, Go a.
#[global] Instance Early_bind : MBind Early := λ A B f m,
  match m with
  | Go a => f a
  | Stop r => Stop r
  | Crash v => Crash v
  end.

Definition lift {A} (m : Res A) : Early A :=
  match m with
  | Ret a => Go a
  | Panic v => Crash v
  end.

Definition finish (m : Early RunResult) : Res RunResult :=
  match m with
  | Go r => Ret r
  | Stop r => Ret r
  | Crash v => Panic v
  end.

(** [if err != nil { return wrap(err) }] *)
Definition orReturn (err : option error) (wrap : error → error)
    (inv : Invocation.t) (st : list V) (log : list Event) : Early unit :=
  match err with
  | Some e => Stop (mkRunResult (Some (wrap e)) inv st log)
  | None => Go tt
  end.

(** [optSet.FlagSet()]: a fresh flag set with one flag for each option
    that declares one. *)
Fixpoint FlagSet_loop (fs : pflag.FlagSet) (rest : list Option.t) (st : list V)
  : Res pflag.FlagSet :=
  match rest with
  | [] => Ret fs
  | opt :: rest' =>
      if decide (Option.Flag opt = "") then FlagSet_loop fs rest' st
      else
        let noOptDefValue :=
          match Option.Value opt with
          | Some r =>
              match st !! r with
              | Some v => default "" (value_NoOptDefValue v)
              | None => ""
              end
          | None => ""
          end in
        fs' ← pflag.AddFlag fs (flagOf opt noOptDefValue);
        FlagSet_loop fs' rest' st
  end.

Definition FlagSet (optSet : OptionSet) (st : list V) : Res pflag.FlagSet :=
  FlagSet_loop (pflag.NewFlagSet "") optSet st.

(** The loop that reads the configuration files: one read for each
    option whose value is a configuration path that is not empty. *)
Fixpoint readConfigs (ext : Externals) (n : nat) (i : nat) (optSet : OptionSet)
    (st : list V) : OptionSet * list V * option error :=
  match n with
  | 0 => (optSet, st, None)
  | S n' =>
      let path :=
        match Option.Value (optSet !!! i) with
        | Some r =>
            match st !! r with
            | Some v => if value_isYAMLConfigPath v then value_String v else ""
            | None => ""
            end
        | None => ""
        end in
      if decide (path = "") then readConfigs ext n' (S i) optSet st
      else
        let '(optSet', st', err) := readConfig ext path optSet st in
        match err with
        | Some e => (optSet', st', Some e)
        | None => readConfigs ext n' (S i) optSet' st'
        end
  end.

(** [DefaultHelpFn()(inv)] *)
Definition DefaultHelpFn (ext : Externals) (inv : Invocation.t) (log : list Event)
  : option error * list Event :=
  match renderHelp ext inv with
  | Some e => (Some e, log)
  | None =>
      let args := Invocation.Args inv in
      let log :=
        match args with
        | arg0 :: _ =>
            if negb (usageWantsArg (Command.Use (Invocation.Command inv)))
            then log ++ [Fprintf Stderr "---\nerror: unknown subcommand %q\n" [FmtString arg0]]
            else log
        | [] => log
        end in
      match args with
      | _ :: _ => (Some (UnknownSubcommandError args), log)
      | [] => (None, log)
      end
  end.

(** The part of [run] after the parse: the options whose flag the
    parse has seen are marked, the configuration files are read, the
    defaults are applied. *)
Definition settle (ext : Externals) (inv : Invocation.t) (parsedFlags : pflag.FlagSet)
    (opts : OptionSet) (st : list V) (log : list Event)
  : Early (Invocation.t * list V) :=
  let cmd := Invocation.Command inv in
  let opts := markFlagSources opts parsedFlags in
  let '(opts, st, yerr) := readConfigs ext (length opts) 0 opts st in
  let inv :=
    InvocationOps.set_parsedFlags parsedFlags
      (InvocationOps.set_Command (Command.set_Options opts cmd) inv) in
  _ ← orReturn yerr (λ e, e) inv st log;
  '(opts, st, derr) ← lift (SetDefaults opts st);
  let inv := InvocationOps.set_Command (Command.set_Options opts cmd) inv in
  _ ← orReturn derr (ErrorfW "setting defaults: %w" []) inv st log;
  Go (inv, st).

(** The first part of [run]: the resolution of the options of the
    command, up to the search for a child.  It yields the invocation,
    the state, the values, the lookup table of the children and the
    positional arguments of the parse.  The header of the deprecation
    warning, which the source colours with [prettyHeader], is kept as
    the word itself. *)
Definition resolve (ext : Externals) (inv : Invocation.t) (state : runState)
    (st : list V) (log : list Event)
  : Early (Invocation.t * runState * list V * list Event
           * gmap string Command.t * list string) :=
  let cmd := Invocation.Command inv in
  let log :=
    if decide (Command.Deprecated cmd ≠ "") then
      log ++ [Fprintf Stderr "%s %q is deprecated!. %s\n"
                [FmtString "warning";
                 FmtString (Command.FullName (Invocation.parents inv) cmd);
                 FmtString (Command.Deprecated cmd)]]
    else log in
  '(opts, st, err) ← lift (ParseEnv (Command.Options cmd) (Invocation.Environ inv) st);
  let inv := InvocationOps.set_Command (Command.set_Options opts cmd) inv in
  _ ← orReturn err (ErrorfW "parsing env: %w" []) inv st log;
  children ←
    match buildChildren (Command.Children cmd) ∅ with
    | inl e => Stop (mkRunResult (Some e) inv st log)
    | inr children => Go children
    end;
  let parsedFlags :=
    match Invocation.parsedFlags inv with
    | Some fs => fs
    | None => pflag.NewFlagSet (Command.Name cmd)
    end in
  nodeFlags ← lift (FlagSet opts st);
  parsedFlags ← lift (mergeFlags parsedFlags nodeFlags);
  '(parsedFlags, st, state, parsedArgs) ←
    (if Command.RawArgs cmd then Go (parsedFlags, st, state, [])
     else
       '(fs, st, perr) ← lift (pflag.Parse parsedFlags (allArgs state) st);
       Go (fs, st, set_flagParseErr perr state, pflag.args fs));
  '(inv, st) ← settle ext inv parsedFlags opts st log;
  Go (inv, state, st, log, children, parsedArgs).

(** The arguments the handler sees: for a command with raw arguments
    everything after its name, otherwise the positional arguments past
    the names of the commands.  The two panics are those of [panic(err)]
    and of the slice expression [parsedArgs[state.commandDepth:]]. *)
Definition handlerArgs (inv : Invocation.t) (state : runState) (parsedArgs : list string)
  : Res (list string) :=
  let cmd := Invocation.Command inv in
  if Command.RawArgs cmd then
    if decide (commandDepth state = 0%nat) then Ret (allArgs state)
    else
      match Invocation.parsedFlags inv with
      | None => nilDeref
      | Some fs =>
          match findArg (Command.Name cmd) (allArgs state) fs with
          | inl e => Panic e
          | inr argPos => Ret (drop (S argPos) (allArgs state))
          end
      end
  else if decide (commandDepth state ≤ length parsedArgs)%nat then
    Ret (drop (commandDepth state) parsedArgs)
  else Panic (Errorf "runtime error: slice bounds out of range" []).

(** The command has a version, an option with the flag [version], and
    that flag was given. *)
Definition versionRequested (inv : Invocation.t) : bool :=
  let cmd := Invocation.Command inv in
  if decide (Command.Version cmd ≠ "") then
    match ByFlag (Command.Options cmd) "version", Invocation.parsedFlags inv with
    | Some vflag, Some fs =>
        match pflag.Lookup fs (Option.Flag vflag) with
        | Some fl => pflag.Changed fl
        | None => false
        end
    | _, _ => false
    end
  else false.

(** [if inv.Command.HelpHandler == nil { return DefaultHelpFn()(inv) };
    return inv.Command.HelpHandler(inv)] *)
Definition helpPath (ext : Externals) (inv : Invocation.t) (st : list V)
    (log : list Event) (view : InvocationView) : Early RunResult :=
  let cmd := Invocation.Command inv in
  let called :=
    log ++ [CallHelpHandler (Command.FullName (Invocation.parents inv) cmd)
              (Invocation.Args inv)] in
  match Command.HelpHandler cmd with
  | None =>
      let '(err, log) := DefaultHelpFn ext inv called in
      Go (mkRunResult err inv st log)
  | Some help =>
      err ← lift (help view);
      Go (mkRunResult err inv st called)
  end.

(** The last part of [run], at the command that has no child for the
    next argument. *)
Definition terminal (ext : Externals) (inv : Invocation.t) (state : runState)
    (st : list V) (log : list Event) (parsedArgs : list string) : Early RunResult :=
  let cmd := Invocation.Command inv in
  let fullName := Command.FullName (Invocation.parents inv) cmd in
  if IsCompletionMode ext (Invocation.Environ inv) then
    Stop (mkRunResult None inv st
            (log ++ ((λ e, Fprintf Stdout "%s\n" [FmtString e]) <$> complete ext inv st)))
  else
    _ ← (if negb (Command.RawArgs cmd) && negb (isHelp (flagParseErr state)) then
           orReturn (flagParseErr state)
             (ErrorfW "parsing flags (%v) for %q: %w"
                [FmtStrings (allArgs state); FmtString fullName]) inv st log
         else Go tt);
    let missing := missingRequired (Command.Options cmd) in
    _ ← (if negb (bool_decide (missing = []))
            && negb (IsCompletionMode ext (Invocation.Environ inv))
            && negb (isHelp (flagParseErr state)) then
           Stop (mkRunResult
                   (Some (Errorf "missing values for the required flags: %s"
                            [FmtString (String.concat ", " missing)])) inv st log)
         else Go tt);
    args ← lift (handlerArgs inv state parsedArgs);
    let inv := InvocationOps.set_Args args inv in
    _ ← (if versionRequested inv then
           Stop (mkRunResult None inv st
                   (log ++ [Fprintf Stdout "%s\n"
                              [FmtString (Command.Name cmd +:+ " " +:+ Command.Version cmd)]]))
         else Go tt);
    let view := mkView args (length (Command.Children cmd)) in
    match Command.Handler cmd with
    | Some handler =>
        if isHelp (flagParseErr state) then helpPath ext inv st log view
        else
          let mw := default (Chain []) (Command.Middleware cmd) in
          err ← lift (mw handler view);
          Go (mkRunResult (RunCommandError fullName <$> err) inv st
                (log ++ [CallHandler fullName args]))
    | None => helpPath ext inv st log view
    end.

(** [inv.run(state)].  The recursion follows the positional arguments:
    every descent raises [commandDepth], and [fuel] bounds the number of
    descents. *)
Fixpoint run_fuel (fuel : nat) (ext : Externals) (inv : Invocation.t) (state : runState)
    (st : list V) (log : list Event) : option (Res RunResult) :=
  match fuel with
  | 0 => None
  | S fuel' =>
      match resolve ext inv state st log with
      | Crash v => Some (Panic v)
      | Stop r => Some (Ret r)
      | Go (inv, state, st, log, children, parsedArgs) =>
          match parsedArgs !! commandDepth state ≫= (λ nextArg, children !! nextArg) with
          | Some child =>
              run_fuel fuel' ext (InvocationOps.descend child inv)
                (set_commandDepth (S (commandDepth state)) state) st log
          | None => Some (finish (terminal ext inv state st log parsedArgs))
          end
      end
  end.

(** [inv.run(&runState{allArgs: inv.Args})], the call that [Run] makes
    once the command tree has passed its checks. *)
Definition run (ext : Externals) (inv : Invocation.t) (st : list V)
  : option (Res RunResult) :=
  run_fuel (S (length (Invocation.Args inv))) ext inv
    (mkRunState (Invocation.Args inv) 0 None) st [].

End Run.

Arguments Go {V A} a.
Arguments Stop {V A} r.
Arguments Crash {V A} v.

(** ** Concrete values used in the examples *)

(** Modelled from the spec: the concrete value types ([values.go]) are not
    among the source files.  The spec names string and boolean slots whose
    [Set] "parses a textual representation and fails with a ParseError on
    malformed input", and boolean flags that take no argument.  A string
    slot accepts every text; a boolean slot accepts the spellings of
    [strconv.ParseBool] and the empty text. *)
Inductive Val :=
| String_ (s : string)
| Bool_ (b : bool).

Definition parseBool (s : string) : option bool :=
  if bool_decide (s ∈ ["1"; "t"; "T"; "TRUE"; "true"; "True"]) then Some true
  else if bool_decide (s ∈ ["0"; "f"; "F"; "FALSE"; "false"; "False"]) then Some false
  else None.

Definition Val_Set (raw : string) (v : Val) : Val * option error :=
  match v with
  | String_ _ => (String_ raw, None)
  | Bool_ b =>
      if decide (raw = "") then (Bool_ false, None)
      else
        match parseBool raw with
        | Some b' => (Bool_ b', None)
        | None => (Bool_ b, Some (ValueError "strconv.ParseBool: invalid syntax"))
        end
  end.

#[global] Instance Val_ops : ValueOps Val := {
  value_Set := Val_Set;
  value_String v := match v with String_ s => s | Bool_ b => if b then "true" else "false" end;
  value_Type v := match v with String_ _ => "string" | Bool_ _ => "bool" end;
  value_isYAMLConfigPath _ := false;
  value_NoOptDefValue v := match v with String_ _ => None | Bool_ _ => Some "true" end
}.

(** ** Views used to state the properties *)

(** A well-formed list of flags, as [AddFlag] keeps it: no name twice, a
    shorthand is at most one letter, and no letter is the shorthand of
    two flags. *)
Definition flagsWf (l : list pflag.Flag) : Prop :=
  NoDup (pflag.Name <$> l)
  ∧ Forall (λ f, (String.length (pflag.Shorthand f) ≤ 1)%nat) l
  ∧ Forall (λ f, Forall (λ g, pflag.Shorthand f ≠ "" →
                              pflag.Shorthand f = pflag.Shorthand g →
                              pflag.Name f = pflag.Name g) l) l.

#[global] Instance flagsWf_dec l : Decision (flagsWf l).
Proof. unfold flagsWf. apply _. Defined.

(** The shorthand of [f] is not the shorthand of a flag of [l] that has
    another name. *)
Definition shorthandFree (f : pflag.Flag) (l : list pflag.Flag) : Prop :=
  (String.length (pflag.Shorthand f) ≤ 1)%nat
  ∧ Forall (λ g, pflag.Shorthand f ≠ "" → pflag.Shorthand f = pflag.Shorthand g →
                 pflag.Name f = pflag.Name g) l.

#[global] Instance shorthandFree_dec f l : Decision (shorthandFree f l).
Proof. unfold shorthandFree. apply _. Defined.

(** What a parse keeps of a flag set and of the values: the positional
    arguments collected so far, the names of the flags, the number of
    values. *)
Definition parseKeeps {V} (fs : pflag.FlagSet) (st : list V)
    (fs' : pflag.FlagSet) (st' : list V) : Prop :=
  pflag.args fs' = pflag.args fs
  ∧ pflag.Name <$> pflag.formal fs' = pflag.Name <$> pflag.formal fs
  ∧ length st' = length st.

(** The flag that a list of flags holds under a name. *)
Definition lookupFlag (l : list pflag.Flag) (n : string) : option pflag.Flag :=
  List.find (λ f, bool_decide (pflag.Name f = n)) l.

Section Views.
Context {V : Type} `{!ValueOps V}.
Local Abbreviation Store := (list V).

(** The text the environment supplies for an option: the bound variable,
    or its [HOMEBREW_] twin when the variable is absent, provided the
    text found is not empty. *)
Definition envApplies (envs : gmap string string) (opt : Option.t) : option string :=
  if decide (Option.Env opt = "") then None
  else
    match lookupEnv envs (Option.Env opt) with
    | Some envVal => if decide (envVal = "") then None else Some envVal
    | None => None
    end.

Definition parseError (opt : Option.t) (e : error) : error :=
  ErrorfW "parse %q: %w" [FmtString (Option.Name opt)] e.

(** What the environment stage does to the store and which failures it
    reports, option by option. *)
Fixpoint envEffects (envs : gmap string string) (rest : list Option.t) (st : list V)
  : Res (list V * list error) :=
  match rest with
  | [] => Ret (st, [])
  | opt :: rest' =>
      match envApplies envs opt with
      | None => envEffects envs rest' st
      | Some envVal =>
          '(st1, err) ← Value_Set (Option.Value opt) envVal st;
          '(st2, errs) ← envEffects envs rest' st1;
          Ret (st2, option_list (parseError opt <$> err) ++ errs)
      end
  end.

Definition markEnv (envs : gmap string string) (opt : Option.t) : Option.t :=
  match envApplies envs opt with
  | Some _ => Option.set_ValueSource ValueSourceEnv opt
  | None => opt
  end.

(** The marks the loop leaves when it runs over the snapshot [rest]
    from index [i] on. *)
Fixpoint envMarks (envs : gmap string string) (i : nat) (rest : list Option.t)
    (optSet : OptionSet) : OptionSet :=
  match rest with
  | [] => optSet
  | opt :: rest' =>
      envMarks envs (S i) rest'
        match envApplies envs opt with
        | Some _ => alter (Option.set_ValueSource ValueSourceEnv) i optSet
        | None => optSet
        end
  end.

(** The parse failure of option [i], if any, at the moment the loop
    reaches it: the options before it have been applied. *)
Definition envFailureAt (optSet : OptionSet) (vs : list EnvVar.t) (st : list V) (i : nat)
  : option error :=
  let opt := optSet !!! i in
  match envApplies (envMap vs) opt, ParseEnv (take i optSet) vs st with
  | Some envVal, Ret (_, st_i, _) =>
      match Value_Set (Option.Value opt) envVal st_i with
      | Ret (_, Some e) => Some (parseError opt e)
      | _ => None
      end
  | _, _ => None
  end.

(** An option that the environment applies to has a value, and its
    reference points into a store of [n] objects. *)
Definition envSafe (envs : gmap string string) (n : nat) (opt : Option.t) : bool :=
  match envApplies envs opt, Option.Value opt with
  | Some _, Some r => bool_decide (r < n)%nat
  | Some _, None => false
  | None, _ => true
  end.

(** The options of a set that hold the value [r], their sources, and the
    default literals they declare. *)
Definition aliases (optSet : OptionSet) (r : ref) : list Option.t :=
  filter (λ o, Option.Value o = Some r) optSet.

Definition groupSources (optSet : OptionSet) (r : ref) : list ValueSource :=
  Option.ValueSource <$> aliases optSet r.

Definition groupDefaults (optSet : OptionSet) (r : ref) : list string :=
  filter (λ d, d ≠ "") (Option.Default <$> aliases optSet r).

(** The highest-priority source among [srcs], in the fixed order
    flag > env > yaml > default > none. *)
Definition bestSource (srcs : list ValueSource) : ValueSource :=
  if bool_decide (ValueSourceFlag ∈ srcs) then ValueSourceFlag
  else if bool_decide (ValueSourceEnv ∈ srcs) then ValueSourceEnv
  else if bool_decide (ValueSourceYAML ∈ srcs) then ValueSourceYAML
  else if bool_decide (ValueSourceDefault ∈ srcs) then ValueSourceDefault
  else ValueSourceNone.

(** The source every alias of [r] reports after the defaults stage: the
    best source already present in the group, else [default] when some
    alias declares a default literal, else [none]. *)
Definition resolvedSource (optSet : OptionSet) (r : ref) : ValueSource :=
  match bestSource (groupSources optSet r) with
  | ValueSourceNone =>
      if decide (groupDefaults optSet r = []) then ValueSourceNone else ValueSourceDefault
  | vs => vs
  end.

Definition markGroup (optSet : OptionSet) (r : ref) (o : Option.t) : Option.t :=
  if decide (Option.Value o = Some r)
  then Option.set_ValueSource (resolvedSource optSet r) o else o.

Definition markDefault (optSet : OptionSet) (o : Option.t) : Option.t :=
  match Option.Value o with
  | Some r => Option.set_ValueSource (resolvedSource optSet r) o
  | None => o
  end.

(** The options after the groups of the values in [done] have been
    resolved. *)
Definition markDone (optSet : OptionSet) (done : list ref) (o : Option.t) : Option.t :=
  match Option.Value o with
  | Some r =>
      if decide (r ∈ done) then Option.set_ValueSource (resolvedSource optSet r) o else o
  | None => o
  end.

(** The indices of the options that hold the value [r]. *)
Definition members (optSet : OptionSet) (r : ref) : list nat :=
  filter (λ j, Option.Value (optSet !!! j) = Some r) (seq 0 (length optSet)).

(** The sort key behind [sortOptionByValueSourcePriorityOrDefault]. *)
Definition sortKey (o : Option.t) : Z :=
  (2 * slices_Index valueSourcePriority (Option.ValueSource o)
   + (if decide (Option.Default o = "") then 1 else 0))%Z.

(** The errors of the options that have no value. *)
Definition noValueErrors (optSet : OptionSet) : list error :=
  (λ o, Errorf "parse %q: no Value field set\nFull opt: %+v"
          [FmtString (Option.Name o); FmtOption o])
    <$> filter (λ o, Option.Value o = None) optSet.

(** The conflict reported when two aliases declare different defaults. *)
Definition isConflict (e : error) : Prop :=
  ∃ args, e = Errorf "parse %q: multiple defaults set for the same value: %q and %q (%q)" args.

(** Every reference held by an option points into a store of [n] objects. *)
Definition refsValid (n : nat) (optSet : OptionSet) : bool :=
  forallb (λ o, match Option.Value o with
                | Some r => bool_decide (r < n)%nat
                | None => true
                end) optSet.

End Views.

(** ** Groups and annotations *)

Module Group.
(** [Parent] is a pointer; a group without a parent has [None]. *)
Inductive t := mk {
  Parent : option t;
  Name : string;
  YAML : string;
  Description : string
}.

(** The loop of [Ancestry]: [p] is put in front of the groups found so
    far, and the loop goes on with the parent of [p]. *)
Fixpoint Ancestry_loop (p : t) (groups : list t) : list t :=
  match Parent p with
  | Some q => Ancestry_loop q (p :: groups)
  | None => p :: groups
  end.

(** [g.Ancestry()]; the receiver may be nil. *)
Definition Ancestry (g : option t) : list t :=
  match g with
  | None => []
  | Some g =>
      match Parent g with
      | Some p => Ancestry_loop p [g]
      | None => [g]
      end
  end.

(** [g.FullName()] *)
Definition FullName (g : option t) : string :=
  String.concat " / " (Name <$> Ancestry g).
End Group.

(** [o.YAMLPath()]; [group] is the field [Group] of the option, which
    the record of the options does not carry. *)
Definition YAMLPath (o : Option.t) (group : option Group.t) : string :=
  if decide (Option.YAML o = "") then ""
  else String.concat "." ((Group.YAML <$> Group.Ancestry group) ++ [Option.YAML o]).

(** [optSet.ByName(name)] *)
Definition ByName (optSet : OptionSet) (name : string) : option Option.t :=
  List.find (λ opt, bool_decide (Option.Name opt = name)) optSet.

(** [Annotations] is a map type; [None] is the nil map. *)
Abbreviation Annotations := (option (gmap string string)).

Module Annotations.
(** [a.Mark(key, value)]: a copy with the key set. *)
Definition Mark (a : Annotations) (key value : string) : Annotations :=
  let aa := match a with Some m => m | None => ∅ end in
  Some (<[key := value]> aa).

(** [a.IsSet(key)] *)
Definition IsSet (a : Annotations) (key : string) : bool :=
  match a with
  | None => false
  | Some m => bool_decide (is_Some (m !! key))
  end.

(** [a.Get(key)] *)
Definition Get (a : Annotations) (key : string) : string * bool :=
  match a with
  | None => ("", false)
  | Some m =>
      match m !! key with
      | Some v => (v, true)
      | None => ("", false)
      end
  end.
End Annotations.

(** ** The newline limiter of the help output *)

(** A Go [int] on the platforms the module builds for: 64 bits, two's
    complement. *)
Definition wrap64 (z : Z) : Z := ((z + 2 ^ 63) mod 2 ^ 64 - 2 ^ 63)%Z.

(** The bytes ['\r'] and ['\n']. *)
Abbreviation carriageReturn := ("013"%char).
Abbreviation newline := ("010"%char).

(** [isSpace(b)] *)
Definition isSpace (b : ascii) : bool :=
  bool_decide (b ∈ ["009"; "010"; "011"; "012"; "013"; " "; "133"; "160"]%char).

(** The buffered writer behind the limiter: what [WriteByte] does to it
    and the error it returns. *)
Class ByteWriter (W : Type) := WriteByte : W → ascii → W * option error.

(** A writer that keeps what it is given and never fails. *)
#[global] Instance buffer_writer : ByteWriter (list ascii) := λ w b, (w ++ [b], None).

Record newlineLimiter (W : Type) := mkLimiter {
  lm_w : W;
  limit : Z;
  newLineCounter : Z
}.
Arguments mkLimiter {W} _ _ _.
Arguments lm_w {W} _.
Arguments limit {W} _.
Arguments newLineCounter {W} _.

Section Limiter.
Context {W : Type} `{!ByteWriter W}.

(** The switch of the loop body: the counter afterwards, and whether
    the byte goes on to the writer. *)
Definition limiterStep (limit counter : Z) (b : ascii) : Z * bool :=
  if decide (b = "013"%char) then (counter, false)
  else if decide (b = "010"%char) then
    let counter := wrap64 (counter + 1) in
    (counter, negb (limit <? counter)%Z)
  else if negb (isSpace b) then (0%Z, true)
  else (counter, true).

(** [lm.Write(p)]: the limiter afterwards, the count and the error. *)
Fixpoint Write_loop (lm : newlineLimiter W) (n : nat) (p : list ascii)
  : newlineLimiter W * (nat * option error) :=
  match p with
  | [] => (lm, (n, None))
  | b :: p' =>
      let '(counter, pass) := limiterStep (limit lm) (newLineCounter lm) b in
      let lm := mkLimiter (lm_w lm) (limit lm) counter in
      if pass then
        let '(w, err) := WriteByte (lm_w lm) b in
        let lm := mkLimiter w (limit lm) counter in
        match err with
        | Some e => (lm, (0%nat, Some e))
        | None => Write_loop lm n p'
        end
      else Write_loop lm n p'
  end.

Definition Write (lm : newlineLimiter W) (p : list ascii)
  : newlineLimiter W * (nat * option error) :=
  Write_loop lm (length p) p.

End Limiter.

(** The newlines since the last byte that was not a space stay within
    [limit]: [c] is their number before [out]. *)
Fixpoint newlinesBounded (limit c : Z) (out : list ascii) : Prop :=
  match out with
  | [] => True
  | b :: out' =>
      if decide (b = "010"%char) then (c + 1 ≤ limit)%Z ∧ newlinesBounded limit (c + 1) out'
      else if isSpace b then newlinesBounded limit c out'
      else newlinesBounded limit 0 out'
  end.

(** ** Linting a command tree *)

(** [unicode.IsLower(rune(b))] for a byte [b].  A byte converts to a
    rune below U+0100, where the lower-case letters are the letters a to
    z, the micro sign, and the letters from U+00DF on except the division
    sign. *)
Definition unicode_IsLower (b : ascii) : bool :=
  let n := N_of_ascii b in
  ((97 <=? n) && (n <=? 122) || (n =? 181)
   || (223 <=? n) && (n <=? 246) || (248 <=? n) && (n <=? 255))%N.

(** [strings.HasSuffix(s, suffix)] *)
Definition strings_HasSuffix (s suffix : string) : bool :=
  (String.length suffix <=? String.length s)%nat
  && bool_decide
       (substring (String.length s - String.length suffix) (String.length suffix) s
        = suffix).

(** The errors of [init]: the errors it creates itself, [errors.Join]
    of two errors, and the error of a child under the name of the
    child. *)
Inductive lintError :=
| Lint (e : error)
| Joined (errs : list lintError)
| InCommand (name : string) (wrapped : lintError).

(** [errors.Join(merr, e)] for an error [e] that is not nil: a nil
    [merr] is left out. *)
Definition errors_Join (merr : option lintError) (e : lintError) : option lintError :=
  Some (Joined (option_list merr ++ [e])).

(** The name an option gets when it has none: its flag, else its
    environment variable, else its YAML key. *)
Definition nameOption (opt : Option.t) : Option.t :=
  if decide (Option.Name opt = "") then
    if decide (Option.Flag opt ≠ "") then Option.set_Name (Option.Flag opt) opt
    else if decide (Option.Env opt ≠ "") then Option.set_Name (Option.Env opt) opt
    else if decide (Option.YAML opt ≠ "") then Option.set_Name (Option.YAML opt) opt
    else opt
  else opt.

(** The first byte of a description that is not empty. *)
Definition firstByte (s : string) : ascii :=
  match s with
  | String b _ => b
  | "" => "000"%char
  end.

(** The body of the loop over the options. *)
Definition initOption (opt : Option.t) (merr : option lintError)
  : Option.t * option lintError :=
  let merr :=
    if decide (Option.Name opt = "" ∧ Option.Flag opt = "" ∧ Option.Env opt = ""
               ∧ Option.YAML opt = "")
    then errors_Join merr
           (Lint (Errorf "option must have a Name, Flag, Env or YAML field" []))
    else merr in
  let opt := nameOption opt in
  let merr :=
    if decide (Option.Description opt ≠ "") then
      let merr :=
        if unicode_IsLower (firstByte (Option.Description opt)) then
          errors_Join merr
            (Lint (Errorf "option %q description should start with a capital letter"
                     [FmtString (Option.Name opt)]))
        else merr in
      if negb (strings_HasSuffix (Option.Description opt) ".") then
        errors_Join merr
          (Lint (Errorf "option %q description should end with a period"
                   [FmtString (Option.Name opt)]))
      else merr
    else merr in
  (opt, merr).

Fixpoint initOptions (opts : OptionSet) (merr : option lintError)
  : OptionSet * option lintError :=
  match opts with
  | [] => ([], merr)
  | opt :: opts' =>
      let '(opt, merr) := initOption opt merr in
      let '(opts', merr) := initOptions opts' merr in
      (opt :: opts', merr)
  end.

(** [ascendingSortFn(a, b)] on strings, which Go compares byte by byte. *)
Definition ascendingSortFn (a b : string) : Z :=
  match String.compare a b with
  | Lt => (-1)%Z
  | Eq => 0%Z
  | Gt => 1%Z
  end.

(** [c.init()] for a command whose [Parent] is set, as it is for every
    child: the block that adds the version option does nothing there.
    The source sorts the children by name and then calls [init] on each
    of them in that order; here every child is paired with the outcome of
    its own [init] before the pairs are sorted by the name the child had,
    which gives the same children and the same errors in the same
    order, since the [init] of a child reads nothing but the child. *)
Fixpoint initTree (c : Command.t) : Command.t * option lintError :=
  match c with
  | Command.mk children use aliases hidden deprecated rawArgs options mw h hh version =>
      let use := if decide (use = "") then "unnamed" else use in
      let '(options, merr) := initOptions options None in
      let options :=
        slices_SortFunc (λ a b, ascendingSortFn (Option.Name a) (Option.Name b)) options in
      let inits := (λ child, (child, initTree child)) <$> children in
      let sorted :=
        slices_SortFunc
          (λ a b, ascendingSortFn (Command.Name a.1) (Command.Name b.1)) inits in
      let merr :=
        foldl (λ merr x,
                 match x.2.2 with
                 | Some e => errors_Join merr (InCommand (Command.Name x.2.1) e)
                 | None => merr
                 end) merr sorted in
      (Command.mk ((λ x, x.2.1) <$> sorted) use aliases hidden deprecated rawArgs options
         mw h hh version, merr)
  end.

(** The option that [init] adds for the version; [r] is the new
    boolean value. *)
Definition versionOption (r : ref) : Option.t :=
  Option.mk "version" "" false "version" "" "" "" "" (Some r) false ValueSourceNone.

Section Init.
Context {V : Type} `{!ValueOps V}.
(** [BoolOf(&val)] for a fresh [val]: the value types are outside the
    modelled files. *)
Context (BoolOf : bool → V).

(** [c.init()]; [hasParent] tells whether [c.Parent] is set.  The
    value of a version option that is added is a new object of the
    store. *)
Definition init (hasParent : bool) (c : Command.t) (st : list V)
  : Command.t * list V * option lintError :=
  let '(c, merr) := initTree c in
  if negb hasParent && bool_decide (Command.Version c ≠ "")
     && bool_decide (ByName (Command.Options c) "version" = None)
     && bool_decide (ByFlag (Command.Options c) "version" = None)
  then
    (Command.set_Options (Command.Options c ++ [versionOption (length st)]) c,
     st ++ [BoolOf false], merr)
  else (c, st, merr).

(** How [Run] ends: with the error of [init], which it wraps as
    [initializing command: %w], or with what [run] returns. *)
Inductive RunOutcome :=
| InitFailed (e : lintError)
| Ran (r : Res (RunResult (V := V))).

(** [inv.Run()], for an invocation whose standard input is not a
    closer, as [Invoke] creates it, and outside test mode, where a panic
    is passed on as it is. *)
Definition Run (ext : Externals (V := V)) (inv : Invocation.t) (st : list V)
  : option RunOutcome :=
  let '(c, st, err) :=
    init (bool_decide (Invocation.parents inv ≠ [])) (Invocation.Command inv) st in
  match err with
  | Some e => Some (InitFailed e)
  | None => Ran <$> run ext (InvocationOps.set_Command c inv) st
  end.

End Init.

(** An option passes the checks of [init]: it can be named, and its
    description, if it has one, starts with no lower-case letter and
    ends with a period. *)
Definition goodOption (opt : Option.t) : Prop :=
  ¬ (Option.Name opt = "" ∧ Option.Flag opt = "" ∧ Option.Env opt = ""
     ∧ Option.YAML opt = "")
  ∧ (Option.Description opt = ""
     ∨ (unicode_IsLower (firstByte (Option.Description opt)) = false
        ∧ strings_HasSuffix (Option.Description opt) "." = true)).

#[global] Instance goodOption_dec opt : Decision (goodOption opt).
Proof. unfold goodOption. apply _. Defined.

(** Every option of every command of the tree passes. *)
Fixpoint lintFree (c : Command.t) : Prop :=
  match c with
  | Command.mk children _ _ _ _ _ options _ _ _ _ =>
      Forall goodOption options ∧ foldr and True (lintFree <$> children)
  end.

(** ** Views of the flags and of the children *)

(** The flags that the options of a set declare, in the order of the
    options: what [FlagSet] hands to [AddFlag], one after the other. *)
Definition declaredFlags {V} `{!ValueOps V} (optSet : OptionSet) (st : list V)
  : list pflag.Flag :=
  (λ opt,
     flagOf opt
       match Option.Value opt with
       | Some r =>
           match st !! r with
           | Some v => default "" (value_NoOptDefValue v)
           | None => ""
           end
       | None => ""
       end) <$> filter (λ opt, Option.Flag opt ≠ "") optSet.

(** The names under which the dispatch loop finds a command, and those
    of a list of children, in the order in which the loop enters them. *)
Definition commandNames (c : Command.t) : list string :=
  Command.Aliases c ++ [Command.Name c].

Definition childNames (cs : list Command.t) : list string :=
  cs ≫= commandNames.

(** The number of arguments lies in the range; [-1] leaves the range
    open above. *)
Definition inRange (start end_ : Z) (i : InvocationView) : Prop :=
  (start ≤ Z.of_nat (length (view_Args i))
   ∧ (end_ = -1 ∨ Z.of_nat (length (view_Args i)) ≤ end_))%Z.

#[global] Instance inRange_dec start end_ i : Decision (inRange start end_ i).
Proof. unfold inRange. apply _. Defined.

(** ** Example inputs *)

(** The warning that [run] prints at a deprecated command. *)
Definition deprecationWarning (parents : list Command.t) (cmd : Command.t) : list Event :=
  if decide (Command.Deprecated cmd ≠ "") then
    [Fprintf Stderr "%s %q is deprecated!. %s\n"
       [FmtString "warning"; FmtString (Command.FullName parents cmd);
        FmtString (Command.Deprecated cmd)]]
  else [].

(** The argument is not a flag. *)
Definition positional (arg : string) : Prop := String.prefix "-" arg = false.

#[global] Instance positional_dec arg : Decision (positional arg).
Proof. unfold positional. apply _. Defined.

Module Ex.
Definition opt (name flag env default : string) (val : option ref) : Option.t :=
  Option.mk name "" false flag "" env "" default val false ValueSourceNone.

(** Two boolean options with malformed environment texts, followed by a
    string option. *)
Definition envSet : OptionSet :=
  [opt "verbose" "verbose" "VERBOSE" "" (Some 0%nat);
   opt "force" "force" "FORCE" "" (Some 1%nat);
   opt "name" "name" "NAME" "" (Some 2%nat)].
Definition envStore : list Val := [Bool_ false; Bool_ false; String_ ""].
Definition envVars : list EnvVar.t :=
  [EnvVar.mk "VERBOSE" "maybe"; EnvVar.mk "FORCE" "perhaps"; EnvVar.mk "NAME" "billie"].

(** Two aliases of one string value. *)
Definition aliasStore : list Val := [String_ ""].
Definition conflictSet : OptionSet :=
  [opt "new" "new" "NEW" "a" (Some 0%nat); opt "old" "old" "OLD" "b" (Some 0%nat)].
Definition agreeSet : OptionSet :=
  [opt "new" "new" "NEW" "a" (Some 0%nat); opt "old" "old" "OLD" "a" (Some 0%nat)].
Definition plainSet : OptionSet :=
  [opt "new" "new" "NEW" "" (Some 0%nat); opt "old" "old" "OLD" "" (Some 0%nat)].

(** One option bound to [FOO]. *)
Definition fooSet : OptionSet := [opt "foo" "foo" "FOO" "" (Some 0%nat)].

(** The flags a root command hands down, and the flag of a child that
    takes the name and the shorthand of one of them. *)
Definition inheritedVerbose : pflag.Flag :=
  pflag.mkFlag "verbose" "v" "talk more" (Some 0%nat) false "" false.
Definition inheritedOut : pflag.Flag :=
  pflag.mkFlag "out" "o" "where to write" (Some 1%nat) false "" false.
Definition inherited : pflag.FlagSet :=
  pflag.mkFlagSet "root" [inheritedVerbose; inheritedOut] [].
Definition childVerbose : pflag.Flag :=
  pflag.mkFlag "verbose" "v" "talk more about the child" (Some 2%nat) false "" true.

(** Collaborators for the runs: no completion mode, configuration files
    that change nothing, a help text that renders. *)
Definition plain : Externals (V := Val) :=
  mkExternals (λ _, false) (λ _ _, []) (λ _ optSet st, (optSet, st, None)) (λ _, None).

(** The same in completion mode, with no candidates. *)
Definition completing : Externals (V := Val) :=
  mkExternals (λ _, true) (λ _ _, []) (λ _ optSet st, (optSet, st, None)) (λ _, None).

Definition okHandler : HandlerFunc := λ _, Ret None.

Definition cmd (use : string) (children : list Command.t) (opts : OptionSet)
    (mw : option MiddlewareFunc) (handler : option HandlerFunc) : Command.t :=
  Command.mk children use [] false "" false opts mw handler None "".

Definition flagOpt (name default : string) (required : bool) (val : ref) : Option.t :=
  Option.mk name "" required name "" "" "" default (Some val) false ValueSourceNone.

(** A command with two required options. *)
Definition req : Command.t :=
  cmd "req" [] [flagOpt "name" "" true 0%nat; flagOpt "age" "" true 1%nat]
    None (Some okHandler).

(** A root that only groups a child, and one that has a handler which
    takes no arguments. *)
Definition sub : Command.t :=
  cmd "sub" [] [flagOpt "bar" "" false 1%nat] None (Some okHandler).
Definition root : Command.t := cmd "root" [sub] [] None None.

(** A root whose option [foo] has a flag and the default [d]. *)
Definition fooRoot : Command.t :=
  cmd "root" [sub] [flagOpt "foo" "d" false 0%nat] None None.

(** A command with a version, the [version] flag that [init] gives it,
    and a required option. *)
Definition versioned : Command.t :=
  Command.mk [] "tool" [] false "" false
    [flagOpt "name" "" true 0%nat;
     Option.mk "version" "" false "version" "" "" "" "" (Some 1%nat) false ValueSourceNone]
    None (Some okHandler) None "1.0".

Definition twoSlots : list Val := [String_ ""; String_ ""].
Definition nameAndSwitch : list Val := [String_ ""; Bool_ false].

(** A command with a version and nothing else, as [init] finds it. *)
Definition bare : Command.t :=
  Command.mk [] "tool" [] false "" false [] None (Some okHandler) None "1.0".

(** An option with a YAML key, and a group within a group. *)
Definition yamlOpt : Option.t :=
  Option.mk "port" "" false "port" "" "" "port" "" (Some 0%nat) false ValueSourceNone.
Definition outerGroup : Group.t := Group.mk None "Networking" "net" "".
Definition innerGroup : Group.t := Group.mk (Some outerGroup) "HTTP" "http" "".

(** Two entries for [FOO]. *)
Definition fooFirst : EnvVar.t := EnvVar.mk "FOO" "a".
Definition fooLast : EnvVar.t := EnvVar.mk "FOO" "b".

(** A command with a handler and no options, a root above it, and
    a root that takes its arguments raw. *)
Definition leaf : Command.t := cmd "leaf" [] [] None (Some okHandler).
Definition tree : Command.t := cmd "tree" [leaf] [] None (Some okHandler).
Definition rawTree : Command.t :=
  Command.mk [leaf] "raw" [] false "" true [] None (Some okHandler) None "".

(** A text with a carriage return and three newlines in a row. *)
Definition paragraphs : list ascii :=
  ["a"; "013"; "010"; "010"; "010"; "b"]%char.
End Ex.

(** * Properties *)

Section ParseEnvFacts.
Context {V : Type} `{!ValueOps V}.
Local Abbreviation Store := (list V).
Implicit Types (st : list V) (optSet : OptionSet) (opt : Option.t).

Lemma ParseEnv_body_eq envs i opt optSet st merr :
  ParseEnv_body envs i opt (optSet, st, merr) =
  match envApplies envs opt with
  | None => Ret (optSet, st, merr)
  | Some envVal =>
      '(st', err) ← Value_Set (Option.Value opt) envVal st;
      Ret (alter (Option.set_ValueSource ValueSourceEnv) i optSet, st',
           merr ++ option_list (parseError opt <$> err))
  end.
Proof.
  unfold ParseEnv_body, envApplies.
  destruct (decide (Option.Env opt = "")); [done|].
  destruct (lookupEnv envs (Option.Env opt)) as [envVal|]; [|done].
  destruct (decide (envVal = "")); [done|].
  destruct (Value_Set (Option.Value opt) envVal st) as [[st' [e|]]|]; simpl; try done.
  by rewrite app_nil_r.
Qed.

Lemma Value_Set_length val raw st st' err :
  Value_Set val raw st = Ret (st', err) → length st' = length st.
Proof.
  unfold Value_Set. destruct val as [r|]; [|done].
  destruct (st !! r) as [v|]; [|done].
  destruct (value_Set raw v) as [v' e]. intros [= <- _]. apply length_insert.
Qed.

Lemma Value_Set_total r raw st :
  (r < length st)%nat → ∃ st' err, Value_Set (Some r) raw st = Ret (st', err).
Proof.
  intros Hr. unfold Value_Set.
  destruct (lookup_lt_is_Some_2 st r Hr) as [v ->].
  destruct (value_Set raw v) as [v' e]. eauto.
Qed.

Lemma ParseEnv_loop_eq envs rest : ∀ i optSet st merr,
  ParseEnv_loop envs i rest (optSet, st, merr) =
  '(st', errs) ← envEffects envs rest st;
  Ret (envMarks envs i rest optSet, st', merr ++ errs).
Proof.
  induction rest as [|opt rest IH]; intros i optSet st merr.
  - simpl. by rewrite app_nil_r.
  - cbn [ParseEnv_loop envEffects envMarks]. rewrite ParseEnv_body_eq.
    destruct (envApplies envs opt) as [envVal|]; simpl; [|apply IH].
    destruct (Value_Set (Option.Value opt) envVal st) as [[st1 err]|]; simpl; [|done].
    rewrite IH.
    destruct (envEffects envs rest st1) as [[st2 errs]|]; simpl; [|done].
    by rewrite app_assoc.
Qed.

Lemma envMarks_aligned envs rest : ∀ pre,
  envMarks envs (length pre) rest (pre ++ rest) = pre ++ (markEnv envs <$> rest).
Proof.
  induction rest as [|opt rest IH]; intros pre; [done|].
  cbn [envMarks].
  assert (Hstep : match envApplies envs opt with
                  | Some _ => alter (Option.set_ValueSource ValueSourceEnv)
                                (length pre) (pre ++ opt :: rest)
                  | None => pre ++ opt :: rest
                  end = (pre ++ [markEnv envs opt]) ++ rest).
  { unfold markEnv. destruct (envApplies envs opt).
    - rewrite alter_app_r_alt by lia. rewrite Nat.sub_diag. simpl.
      by rewrite <- app_assoc.
    - by rewrite <- app_assoc. }
  rewrite Hstep.
  replace (S (length pre)) with (length (pre ++ [markEnv envs opt]))
    by (rewrite length_app; simpl; lia).
  rewrite IH. rewrite <- app_assoc. by rewrite fmap_cons.
Qed.

(** The closed form of [ParseEnv]: every option the environment applies
    to is marked, and the store and the failures are those of
    [envEffects]. *)
Lemma ParseEnv_eq optSet vs st :
  ParseEnv optSet vs st =
  '(st', errs) ← envEffects (envMap vs) optSet st;
  Ret (markEnv (envMap vs) <$> optSet, st', ErrorOrNil errs).
Proof.
  unfold ParseEnv. rewrite ParseEnv_loop_eq.
  destruct (envEffects (envMap vs) optSet st) as [[st' errs]|]; simpl; [|done].
  by rewrite (envMarks_aligned _ optSet []).
Qed.

Lemma envEffects_app envs l1 : ∀ l2 st,
  envEffects envs (l1 ++ l2) st =
  '(st1, errs1) ← envEffects envs l1 st;
  '(st2, errs2) ← envEffects envs l2 st1;
  Ret (st2, errs1 ++ errs2).
Proof.
  induction l1 as [|opt l1 IH]; intros l2 st; simpl.
  - by destruct (envEffects envs l2 st) as [[??]|].
  - destruct (envApplies envs opt) as [envVal|]; [|apply IH].
    destruct (Value_Set (Option.Value opt) envVal st) as [[st1 err]|]; simpl; [|done].
    rewrite IH.
    destruct (envEffects envs l1 st1) as [[st2 errs]|]; simpl; [|done].
    destruct (envEffects envs l2 st2) as [[st3 errs3]|]; simpl; [|done].
    by rewrite app_assoc.
Qed.

Lemma envEffects_length envs rest : ∀ st st' errs,
  envEffects envs rest st = Ret (st', errs) → length st' = length st.
Proof.
  induction rest as [|opt rest IH]; intros st st' errs; simpl.
  - by intros [= <- _].
  - destruct (envApplies envs opt) as [envVal|]; [|apply IH].
    destruct (Value_Set (Option.Value opt) envVal st) as [[st1 err]|] eqn:E; simpl; [|done].
    destruct (envEffects envs rest st1) as [[st2 errs2]|] eqn:E2; simpl; [|done].
    intros [= <- _]. rewrite (IH _ _ _ E2). by eapply Value_Set_length.
Qed.

(** The loop never panics on an option set that is [envSafe]. *)
Lemma envEffects_total envs rest : ∀ st,
  forallb (envSafe envs (length st)) rest = true →
  ∃ st' errs, envEffects envs rest st = Ret (st', errs).
Proof.
  induction rest as [|opt rest IH]; intros st Hsafe; simpl; [eauto|].
  simpl in Hsafe. apply andb_prop in Hsafe as [Hopt Hrest].
  unfold envSafe in Hopt.
  destruct (envApplies envs opt) as [envVal|]; [|by apply IH].
  destruct (Option.Value opt) as [r|]; [|done].
  apply bool_decide_eq_true in Hopt.
  destruct (Value_Set_total r envVal st Hopt) as (st1 & err & HSet).
  rewrite HSet. simpl.
  destruct (IH st1) as (st2 & errs & ->); [|simpl; eauto].
  by rewrite (Value_Set_length _ _ _ _ _ HSet).
Qed.

Lemma omap_ext_elem {A B} (f g : A → option B) (l : list A) :
  (∀ x, x ∈ l → f x = g x) → omap f l = omap g l.
Proof.
  induction l as [|x l IH]; intros Hfg; [done|].
  assert (IH' : omap f l = omap g l).
  { apply IH. intros y Hy. apply Hfg. by right. }
  simpl. rewrite (Hfg x) by left.
  destruct (g x); [f_equal|]; exact IH'.
Qed.

Lemma envFailureAt_app_l l1 l2 vs st i :
  (i < length l1)%nat → envFailureAt (l1 ++ l2) vs st i = envFailureAt l1 vs st i.
Proof.
  intros Hi. unfold envFailureAt.
  rewrite lookup_total_app_l by done. by rewrite take_app_le by lia.
Qed.

Lemma envFailureAt_last l opt vs st st1 errs1 :
  envEffects (envMap vs) l st = Ret (st1, errs1) →
  envFailureAt (l ++ [opt]) vs st (length l) =
  match envApplies (envMap vs) opt with
  | Some envVal =>
      match Value_Set (Option.Value opt) envVal st1 with
      | Ret (_, Some e) => Some (parseError opt e)
      | _ => None
      end
  | None => None
  end.
Proof.
  intros E1. unfold envFailureAt.
  rewrite list_lookup_total_middle by done. rewrite take_app_length.
  rewrite ParseEnv_eq, E1. simpl.
  by destruct (envApplies (envMap vs) opt).
Qed.

(** The failures the loop reports are the failures of the single
    options, in the order of the options. *)
Lemma envEffects_failures vs optSet : ∀ st st' errs,
  envEffects (envMap vs) optSet st = Ret (st', errs) →
  errs = omap (envFailureAt optSet vs st) (seq 0 (length optSet)).
Proof.
  induction optSet as [|opt l IH] using rev_ind; intros st st' errs.
  - simpl. by intros [= _ <-].
  - rewrite envEffects_app.
    destruct (envEffects (envMap vs) l st) as [[st1 errs1]|] eqn:E1; simpl; [|done].
    intros H.
    rewrite length_app, seq_app, omap_app. simpl.
    rewrite (omap_ext_elem _ (envFailureAt l vs st)).
    2:{ intros i Hi. apply elem_of_seq in Hi. apply envFailureAt_app_l. lia. }
    rewrite <- (IH _ _ _ E1).
    rewrite (envFailureAt_last _ _ _ _ _ _ E1).
    destruct (envApplies (envMap vs) opt) as [envVal|].
    + destruct (Value_Set (Option.Value opt) envVal st1) as [[st2 [e|]]|];
        simpl in H; [| |done]; by injection H as _ <-.
    + simpl in H. by injection H as _ <-.
Qed.

Lemma markEnv_lookup envs optSet i opt :
  optSet !! i = Some opt →
  (markEnv envs <$> optSet) !! i = Some (markEnv envs opt).
Proof. intros H. by rewrite list_lookup_fmap, H. Qed.

(** C8: [ParseEnv] does not stop at a value that fails to parse.  On
    every option set (whose applicable options have a value to set) the
    call returns; every option that the environment supplies a text for
    is processed and marked [env], whatever happened to the options
    before it; and the error returned is the join, in option order, of
    the parse failure of every single option. *)
Theorem ParseEnv_collects_all_failures optSet vs st :
  forallb (envSafe (envMap vs) (length st)) optSet = true →
  ∃ optSet' st',
    ParseEnv optSet vs st =
      Ret (optSet', st',
           ErrorOrNil (omap (envFailureAt optSet vs st) (seq 0 (length optSet))))
    ∧ ∀ i opt, optSet !! i = Some opt → is_Some (envApplies (envMap vs) opt) →
        Option.ValueSource <$> optSet' !! i = Some ValueSourceEnv.
Proof.
  intros Hsafe.
  destruct (envEffects_total _ _ _ Hsafe) as (st' & errs & E).
  exists (markEnv (envMap vs) <$> optSet), st'. split.
  - rewrite ParseEnv_eq, E. simpl. by rewrite (envEffects_failures _ _ _ _ _ E).
  - intros i opt Hi [envVal Happ].
    rewrite (markEnv_lookup _ _ _ _ Hi). unfold markEnv. by rewrite Happ.
Qed.

(** C10: an option whose environment text is present and not empty but
    fails to parse keeps the provenance [env]: [ParseEnv] returns the
    parse error among its joined errors and the mark is not taken back. *)
Theorem ParseEnv_keeps_env_source_on_failure optSet vs st i opt envVal e :
  forallb (envSafe (envMap vs) (length st)) optSet = true →
  optSet !! i = Some opt →
  envApplies (envMap vs) opt = Some envVal →
  envFailureAt optSet vs st i = Some e →
  ∃ optSet' st' errs,
    ParseEnv optSet vs st = Ret (optSet', st', Some (multierror errs))
    ∧ e ∈ errs
    ∧ Option.ValueSource <$> optSet' !! i = Some ValueSourceEnv.
Proof.
  intros Hsafe Hi Happ Hfail.
  destruct (envEffects_total _ _ _ Hsafe) as (st' & errs0 & E).
  pose proof (envEffects_failures _ _ _ _ _ E) as ->.
  assert (HP : ParseEnv optSet vs st =
               Ret (markEnv (envMap vs) <$> optSet, st',
                    ErrorOrNil (omap (envFailureAt optSet vs st) (seq 0 (length optSet)))))
    by (by rewrite ParseEnv_eq, E).
  assert (He : e ∈ omap (envFailureAt optSet vs st) (seq 0 (length optSet))).
  { apply list_elem_of_omap. exists i. split; [|done].
    apply elem_of_seq. apply lookup_lt_Some in Hi. lia. }
  exists (markEnv (envMap vs) <$> optSet), st',
    (omap (envFailureAt optSet vs st) (seq 0 (length optSet))).
  split; [|split; [done|]].
  - rewrite HP. unfold ErrorOrNil.
    destruct (omap (envFailureAt optSet vs st) (seq 0 (length optSet))); [|done].
    by apply elem_of_nil in He.
  - rewrite (markEnv_lookup _ _ _ _ Hi). unfold markEnv. by rewrite Happ.
Qed.

End ParseEnvFacts.

Section SortFacts.
Context {A : Type} (cmp : A → A → Z) (key : A → Z).
Hypothesis cmp_key : ∀ x y, (cmp x y < 0)%Z ↔ (key x < key y)%Z.

Lemma insertionSort_insert_perm x l : insertionSort_insert cmp x l ≡ₚ x :: l.
Proof.
  induction l as [|y l IH]; simpl; [done|].
  destruct (cmp x y <? 0)%Z; [|done].
  rewrite IH. apply Permutation_swap.
Qed.

Lemma insertionSort_fold_perm s : ∀ acc,
  foldl (λ acc x, insertionSort_insert cmp x acc) acc s ≡ₚ acc ++ s.
Proof.
  induction s as [|x s IH]; intros acc; simpl.
  - by rewrite app_nil_r.
  - rewrite IH, insertionSort_insert_perm. by rewrite <- Permutation_middle.
Qed.

Lemma slices_SortFunc_perm s : slices_SortFunc cmp s ≡ₚ s.
Proof.
  unfold slices_SortFunc. rewrite <- Permutation_rev.
  by rewrite insertionSort_fold_perm.
Qed.

(** The reversed prefix is kept in descending key order. *)
Lemma insertionSort_insert_sorted x l :
  StronglySorted (λ a b, (key b ≤ key a)%Z) l →
  StronglySorted (λ a b, (key b ≤ key a)%Z) (insertionSort_insert cmp x l).
Proof.
  induction l as [|y l IH]; intros Hs; simpl.
  - repeat constructor.
  - apply StronglySorted_inv in Hs as [Hl Hy].
    destruct (cmp x y <? 0)%Z eqn:E.
    + apply Z.ltb_lt, cmp_key in E.
      constructor; [by apply IH|].
      rewrite insertionSort_insert_perm. constructor; [lia|done].
    + apply Z.ltb_ge in E.
      assert (key y ≤ key x)%Z as Hyx.
      { destruct (Z.lt_ge_cases (key x) (key y)) as [Hlt|]; [|lia].
        apply cmp_key in Hlt. lia. }
      constructor; [by constructor|].
      constructor; [done|].
      eapply Forall_impl; [exact Hy|]. simpl. intros z Hz. lia.
Qed.

Lemma insertionSort_fold_sorted s : ∀ acc,
  StronglySorted (λ a b, (key b ≤ key a)%Z) acc →
  StronglySorted (λ a b, (key b ≤ key a)%Z)
    (foldl (λ acc x, insertionSort_insert cmp x acc) acc s).
Proof.
  induction s as [|x s IH]; intros acc Hacc; simpl; [done|].
  apply IH. by apply insertionSort_insert_sorted.
Qed.

(** The first element of the sorted slice has the least key. *)
Lemma slices_SortFunc_head s first others :
  slices_SortFunc cmp s = first :: others →
  ∀ y, y ∈ others → (key first ≤ key y)%Z.
Proof.
  unfold slices_SortFunc. intros Hrev y Hy.
  pose proof (insertionSort_fold_sorted s [] (SSorted_nil _)) as Hs.
  set (acc := foldl _ _ _) in *.
  assert (acc = rev others ++ [first]) as Hacc.
  { rewrite <- (rev_involutive acc), Hrev. done. }
  rewrite Hacc in Hs.
  eapply (StronglySorted_app_1_elem_of _ _ _ y first) in Hs; [done| |by left].
  apply list_elem_of_In, in_rev. rewrite rev_involutive. by apply list_elem_of_In.
Qed.

End SortFacts.

Section GroupFacts.
Implicit Types (optSet pre rest : list Option.t) (r : ref).

Lemma filter_ext_elem {A} (P Q : A → Prop) `{!∀ x, Decision (P x)} `{!∀ x, Decision (Q x)}
    (l : list A) :
  (∀ x, x ∈ l → P x ↔ Q x) → filter P l = filter Q l.
Proof.
  induction l as [|x l IH]; intros HPQ; [done|].
  rewrite !filter_cons.
  rewrite IH by (intros y Hy; apply HPQ; by right).
  destruct (decide (P x)) as [HP|HP], (decide (Q x)) as [HQ|HQ]; try done.
  - apply HPQ in HP; [done|by left].
  - apply HPQ in HQ; [done|by left].
Qed.

Lemma filter_none {A} (P : A → Prop) `{!∀ x, Decision (P x)} (l : list A) :
  (∀ x, x ∈ l → ¬ P x) → filter P l = [].
Proof.
  induction l as [|x l IH]; intros HP; [done|].
  rewrite filter_cons, decide_False by (apply HP; by left).
  apply IH. intros y Hy. apply HP. by right.
Qed.

Lemma elem_of_members optSet r j :
  j ∈ members optSet r ↔ ∃ o, optSet !! j = Some o ∧ Option.Value o = Some r.
Proof.
  unfold members. rewrite list_elem_of_filter, elem_of_seq. split.
  - intros [Hv Hj]. destruct (lookup_lt_is_Some_2 optSet j) as [o Ho]; [lia|].
    exists o. split; [done|]. by rewrite (list_lookup_total_correct _ _ _ Ho) in Hv.
  - intros (o & Ho & Hv). rewrite (list_lookup_total_correct _ _ _ Ho).
    split; [done|]. apply lookup_lt_Some in Ho. lia.
Qed.

Lemma NoDup_members optSet r : NoDup (members optSet r).
Proof. apply NoDup_filter, NoDup_seq. Qed.

Lemma members_snoc pre o r :
  members (pre ++ [o]) r =
  members pre r ++ (if decide (Option.Value o = Some r) then [length pre] else []).
Proof.
  unfold members. rewrite length_app. simpl. rewrite seq_app, filter_app. f_equal.
  - apply filter_ext_elem. intros j Hj. apply elem_of_seq in Hj.
    by rewrite lookup_total_app_l by lia.
  - simpl. rewrite filter_cons, filter_nil.
    rewrite list_lookup_total_middle by done.
    by destruct (decide (Option.Value o = Some r)).
Qed.

Lemma groupByValue_append_fmap (f : ref → list nat) keys r i :
  (r ∉ keys → f r = []) → NoDup keys →
  groupByValue_append ((λ k, (k, f k)) <$> keys) r i =
  (λ k, (k, f k ++ (if decide (k = r) then [i] else [])))
    <$> (if decide (r ∈ keys) then keys else keys ++ [r]).
Proof.
  induction keys as [|k keys IH]; intros Hf Hnd.
  - simpl. rewrite decide_True by done. by rewrite Hf by apply not_elem_of_nil.
  - apply NoDup_cons in Hnd as [Hk Hnd]. rewrite fmap_cons.
    cbn [groupByValue_append].
    destruct (decide (k = r)) as [->|Hkr].
    + rewrite (decide_True (P := r ∈ r :: keys)) by left.
      rewrite fmap_cons. rewrite decide_True by done. f_equal.
      apply list_fmap_ext. intros j k' Hk'. apply list_elem_of_lookup_2 in Hk'.
      rewrite decide_False by (intros ->; done). by rewrite app_nil_r.
    + rewrite IH; [|intros Hr; apply Hf; by rewrite not_elem_of_cons|done].
      destruct (decide (r ∈ keys)) as [Hin|Hin].
      * rewrite (decide_True (P := r ∈ k :: keys)) by (by right).
        rewrite fmap_cons. rewrite decide_False by done. by rewrite app_nil_r.
      * rewrite (decide_False (P := r ∈ k :: keys)) by (by rewrite not_elem_of_cons).
        rewrite <- app_comm_cons, fmap_cons.
        rewrite decide_False by done. by rewrite app_nil_r.
Qed.

(** The groups built from the options before position [length pre]. *)
Lemma groupByValue_loop_spec rest : ∀ pre groups merr keys,
  NoDup keys →
  groups = (λ k, (k, members pre k)) <$> keys →
  (∀ k, k ∈ keys ↔ members pre k ≠ []) →
  ∃ keys',
    NoDup keys'
    ∧ (groupByValue_loop (length pre) rest groups merr).1
      = (λ k, (k, members (pre ++ rest) k)) <$> keys'
    ∧ (∀ k, k ∈ keys' ↔ members (pre ++ rest) k ≠ []).
Proof.
  induction rest as [|o rest IH]; intros pre groups merr keys Hnd Hg Hk.
  - exists keys. rewrite app_nil_r. done.
  - cbn [groupByValue_loop].
    replace (pre ++ o :: rest) with ((pre ++ [o]) ++ rest) by (by rewrite <- app_assoc).
    replace (S (length pre)) with (length (pre ++ [o]))
      by (rewrite length_app; simpl; lia).
    destruct (Option.Value o) as [r|] eqn:Hv.
    + apply (IH _ _ _ (if decide (r ∈ keys) then keys else keys ++ [r])).
      * destruct (decide (r ∈ keys)); [done|].
        apply NoDup_app. split; [done|]. split; [|apply NoDup_singleton].
        intros x Hx Hx'. apply list_elem_of_singleton in Hx'. by subst.
      * rewrite Hg, groupByValue_append_fmap; [|by intros Hr; apply dec_stable; rewrite <- Hk|done].
        apply list_fmap_ext. intros j k _. f_equal.
        rewrite members_snoc, Hv.
        destruct (decide (k = r)) as [->|Hkr].
        -- by rewrite decide_True.
        -- by rewrite decide_False by congruence.
      * intros k. rewrite members_snoc, Hv.
        destruct (decide (Some r = Some k)) as [[= ->]|Hne].
        -- split; [intros _; by destruct (members pre k)|].
           intros _. destruct (decide (k ∈ keys)); [done|].
           apply elem_of_app. right. by apply list_elem_of_singleton.
        -- rewrite app_nil_r, <- Hk.
           destruct (decide (r ∈ keys)); [done|].
           rewrite elem_of_app, list_elem_of_singleton.
           split; [intros [?| ->]; [done|congruence]|by left].
    + apply (IH _ _ _ keys); [done| |].
      * rewrite Hg. apply list_fmap_ext. intros j k _. f_equal.
        rewrite members_snoc, Hv. by rewrite app_nil_r.
      * intros k. rewrite members_snoc, Hv. by rewrite app_nil_r.
Qed.

Lemma groupByValue_spec optSet :
  ∃ keys,
    NoDup keys
    ∧ (groupByValue_loop 0 optSet [] []).1 = (λ k, (k, members optSet k)) <$> keys
    ∧ (∀ k, k ∈ keys ↔ members optSet k ≠ []).
Proof.
  apply (groupByValue_loop_spec optSet [] [] [] []); [constructor|done|].
  intros k. split; [by intros ?%elem_of_nil|done].
Qed.

(** The errors of the grouping loop: one for each option without a value. *)
Lemma groupByValue_loop_errors rest : ∀ i groups merr,
  (groupByValue_loop i rest groups merr).2 =
  merr ++ ((λ o, Errorf "parse %q: no Value field set\nFull opt: %+v"
                   [FmtString (Option.Name o); FmtOption o])
             <$> filter (λ o, Option.Value o = None) rest).
Proof.
  induction rest as [|o rest IH]; intros i groups merr; cbn [groupByValue_loop].
  - by rewrite app_nil_r.
  - rewrite filter_cons. destruct (Option.Value o) as [r|] eqn:Hv.
    + rewrite IH. by rewrite decide_False.
    + rewrite IH. rewrite decide_True by done. by rewrite <- app_assoc.
Qed.

End GroupFacts.

Section SetDefaultsFacts.
Context {V : Type} `{!ValueOps V}.
Implicit Types (st : list V) (optSet : list Option.t) (r : ref).

Lemma priority_index vs :
  slices_Index valueSourcePriority vs =
  match vs with
  | ValueSourceFlag => 0
  | ValueSourceEnv => 1
  | ValueSourceYAML => 2
  | ValueSourceDefault => 3
  | ValueSourceNone => 4
  end%Z.
Proof. by destruct vs. Qed.

Lemma cmp_sortKey a b :
  (sortOptionByValueSourcePriorityOrDefault a b < 0)%Z ↔ (sortKey a < sortKey b)%Z.
Proof.
  unfold sortOptionByValueSourcePriorityOrDefault, sortKey.
  rewrite !priority_index.
  destruct (Option.ValueSource a), (Option.ValueSource b);
    repeat case_decide; try lia; congruence.
Qed.

Lemma set_ValueSource_id o : Option.set_ValueSource (Option.ValueSource o) o = o.
Proof. by destruct o. Qed.

Lemma set_ValueSource_idemp vs o :
  Option.set_ValueSource vs (Option.set_ValueSource vs o) = Option.set_ValueSource vs o.
Proof. done. Qed.

Lemma markSource_lookup idxs vs : ∀ optSet j,
  markSource optSet idxs (λ _, vs) !! j =
  if decide (j ∈ idxs) then Option.set_ValueSource vs <$> optSet !! j else optSet !! j.
Proof.
  unfold markSource.
  induction idxs as [|i idxs IH]; intros optSet j; [done|].
  cbn [foldl]. rewrite IH.
  destruct (decide (i = j)) as [->|Hij].
  - rewrite list_lookup_alter_eq, (decide_True (P := j ∈ j :: idxs)) by left.
    destruct (decide (j ∈ idxs)); [|done].
    by destruct (optSet !! j).
  - rewrite list_lookup_alter_ne by done.
    destruct (decide (j ∈ idxs)) as [Hin|Hin].
    + by rewrite decide_True by (by right).
    + by rewrite decide_False by (by rewrite not_elem_of_cons).
Qed.

Lemma markSource_first first others : ∀ optSet,
  first ∉ others →
  markSource optSet others (λ os, Option.ValueSource (os !!! first)) =
  markSource optSet others (λ _, Option.ValueSource (optSet !!! first)).
Proof.
  unfold markSource.
  induction others as [|i others IH]; intros optSet Hnin; [done|].
  apply not_elem_of_cons in Hnin as [Hne Hnin]. cbn [foldl].
  rewrite IH by done. by rewrite list_lookup_total_alter_ne by done.
Qed.

(** Marking every alias of [r] with [vs], as a map over the options. *)
Lemma markSource_members optSet r vs idxs :
  (∀ j, j ∈ idxs ↔ j ∈ members optSet r) →
  markSource optSet idxs (λ _, vs) =
  (λ o, if decide (Option.Value o = Some r) then Option.set_ValueSource vs o else o)
    <$> optSet.
Proof.
  intros Hidx. apply list_eq. intros j.
  rewrite markSource_lookup, list_lookup_fmap.
  destruct (optSet !! j) as [o|] eqn:Ho; simpl.
  - destruct (decide (j ∈ idxs)) as [Hin|Hin].
    + apply Hidx, elem_of_members in Hin as (o' & Ho' & Hv).
      rewrite Ho in Ho'. injection Ho' as <-. by rewrite decide_True.
    + rewrite decide_False; [done|]. intros Hv. apply Hin, Hidx, elem_of_members. eauto.
  - by destruct (decide (j ∈ idxs)).
Qed.

(** The same when the first member already carries [vs] and only the
    others are marked. *)
Lemma markSource_others optSet r first others :
  (∀ j, j ∈ first :: others ↔ j ∈ members optSet r) →
  first ∉ others →
  markSource optSet others (λ _, Option.ValueSource (optSet !!! first)) =
  (λ o, if decide (Option.Value o = Some r)
        then Option.set_ValueSource (Option.ValueSource (optSet !!! first)) o else o)
    <$> optSet.
Proof.
  intros Hidx Hnin. apply list_eq. intros j.
  rewrite markSource_lookup, list_lookup_fmap.
  destruct (optSet !! j) as [o|] eqn:Ho; simpl.
  - destruct (decide (j ∈ others)) as [Hin|Hin].
    + assert (j ∈ first :: others) as Hj by (by right).
      apply Hidx, elem_of_members in Hj as (o' & Ho' & Hv).
      rewrite Ho in Ho'. injection Ho' as <-. by rewrite decide_True.
    + destruct (decide (Option.Value o = Some r)) as [Hv|Hv]; [|done].
      assert (j ∈ first :: others) as Hj by (apply Hidx, elem_of_members; eauto).
      apply elem_of_cons in Hj as [->|Hj]; [|done].
      rewrite (list_lookup_total_correct _ _ _ Ho). by rewrite set_ValueSource_id.
  - by destruct (decide (j ∈ others)).
Qed.

Lemma findDefault_some optSet opts : ∀ j0 merr,
  Option.Default (optSet !!! j0) ≠ "" →
  ∃ j' errs,
    foldl (findDefault_body optSet) (Some j0, merr) opts = (Some j', merr ++ errs)
    ∧ Option.Default (optSet !!! j') = Option.Default (optSet !!! j0)
    ∧ (j' = j0 ∨ j' ∈ opts)
    ∧ Forall isConflict errs
    ∧ (errs = [] ↔
       ∀ j, j ∈ opts → Option.Default (optSet !!! j) = ""
                       ∨ Option.Default (optSet !!! j) = Option.Default (optSet !!! j0)).
Proof.
  induction opts as [|i opts IH]; intros j0 merr Hj0.
  - exists j0, []. rewrite app_nil_r. split_and!; auto.
    split; [|done]. intros _ j Hj. by apply elem_of_nil in Hj.
  - cbn [foldl]. unfold findDefault_body at 2.
    destruct (decide (Option.Default (optSet !!! i) = "")) as [Hi|Hi].
    + destruct (IH j0 merr Hj0) as (j' & errs & Hf & Hd & Hin & Hc & Hiff).
      exists j', errs. split_and!; try done.
      * destruct Hin; [by left|right; by right].
      * split.
        -- intros He j Hj. apply elem_of_cons in Hj as [->|Hj]; [by left|by apply Hiff].
        -- intros Hall. apply Hiff. intros j Hj. apply Hall. by right.
    + destruct (decide (Option.Default (optSet !!! j0) ≠ Option.Default (optSet !!! i)))
        as [Hne|Heq].
      * destruct (IH j0 (merr ++ [Errorf
            "parse %q: multiple defaults set for the same value: %q and %q (%q)"
            [FmtString (Option.Name (optSet !!! i));
             FmtString (Option.Default (optSet !!! i));
             FmtString (Option.Default (optSet !!! j0));
             FmtString (Option.Name (optSet !!! j0))]]) Hj0)
          as (j' & errs & Hf & Hd & Hin & Hc & Hiff).
        eexists j', (_ :: errs). rewrite Hf. split_and!; try done.
        -- by rewrite <- app_assoc.
        -- destruct Hin; [by left|right; by right].
        -- constructor; [by eexists|done].
        -- split; [done|].
           intros Hall. destruct (Hall i) as [?|?]; [by left|done|congruence].
      * apply dec_stable in Heq.
        destruct (IH i merr Hi) as (j' & errs & Hf & Hd & Hin & Hc & Hiff).
        exists j', errs. rewrite Hf, Hd, Heq. split_and!; try done.
        -- destruct Hin as [->|?]; right; [by left|by right].
        -- split.
           ++ intros He j Hj. apply elem_of_cons in Hj as [->|Hj]; [by right|].
              by apply Hiff.
           ++ intros Hall. apply Hiff. intros j Hj. apply Hall. by right.
Qed.

Lemma findDefault_none optSet opts : ∀ merr,
  ∃ owd errs,
    foldl (findDefault_body optSet) (None, merr) opts = (owd, merr ++ errs)
    ∧ Forall isConflict errs
    ∧ (owd = None ↔ ∀ j, j ∈ opts → Option.Default (optSet !!! j) = "")
    ∧ (∀ j', owd = Some j' → j' ∈ opts ∧ Option.Default (optSet !!! j') ≠ "")
    ∧ (errs = [] ↔
       ∀ j1 j2, j1 ∈ opts → j2 ∈ opts →
         Option.Default (optSet !!! j1) ≠ "" → Option.Default (optSet !!! j2) ≠ "" →
         Option.Default (optSet !!! j1) = Option.Default (optSet !!! j2)).
Proof.
  induction opts as [|i opts IH]; intros merr.
  - exists None, []. rewrite app_nil_r. split_and!; try done.
    + split; [|done]. intros _ j Hj. by apply elem_of_nil in Hj.
    + split; [|done]. intros _ j1 j2 Hj. by apply elem_of_nil in Hj.
  - cbn [foldl]. unfold findDefault_body at 2.
    destruct (decide (Option.Default (optSet !!! i) = "")) as [Hi|Hi].
    + destruct (IH merr) as (owd & errs & Hf & Hc & Hnone & Hsome & Hiff).
      exists owd, errs. split_and!; try done.
      * split.
        -- intros Ho j Hj. apply elem_of_cons in Hj as [->|Hj]; [done|by apply Hnone].
        -- intros Hall. apply Hnone. intros j Hj. apply Hall. by right.
      * intros j' Ho. destruct (Hsome j' Ho). split; [by right|done].
      * split.
        -- intros He j1 j2 Hj1 Hj2 Hd1 Hd2.
           apply elem_of_cons in Hj1 as [->|Hj1]; [done|].
           apply elem_of_cons in Hj2 as [->|Hj2]; [done|].
           by apply Hiff.
        -- intros Hall. apply Hiff. intros j1 j2 Hj1 Hj2. apply Hall; by right.
    + destruct (findDefault_some optSet opts i merr Hi)
        as (j' & errs & Hf & Hd & Hin & Hc & Hiff).
      exists (Some j'), errs. split_and!; try done.
      * split; [done|]. intros Hall. destruct Hi. apply Hall. by left.
      * intros j'' [= <-]. split; [|congruence].
        destruct Hin as [->|?]; [by left|by right].
      * split.
        -- intros He j1 j2 Hj1 Hj2 Hd1 Hd2.
           assert (∀ j, j ∈ i :: opts → Option.Default (optSet !!! j) ≠ "" →
                     Option.Default (optSet !!! j) = Option.Default (optSet !!! i)) as Hall.
           { intros j Hj Hdj. apply elem_of_cons in Hj as [->|Hj]; [done|].
             destruct (proj1 Hiff He j Hj); done. }
           rewrite (Hall j1), (Hall j2); done.
        -- intros Hall. apply Hiff. intros j Hj.
           destruct (decide (Option.Default (optSet !!! j) = "")); [by left|right].
           apply Hall; [by right|by left|done|done].
Qed.

Lemma priority_index_inj v w :
  slices_Index valueSourcePriority v = slices_Index valueSourcePriority w → v = w.
Proof. rewrite !priority_index. destruct v, w; (done || lia). Qed.

Lemma bestSource_elem srcs : srcs ≠ [] → bestSource srcs ∈ srcs.
Proof.
  intros Hne. unfold bestSource. repeat case_bool_decide; try done.
  destruct srcs as [|v srcs]; [done|].
  destruct v; try (by left); exfalso;
    match goal with H : ?x ∉ ?x :: _ |- _ => apply H; by left end.
Qed.

Lemma bestSource_le srcs w :
  w ∈ srcs →
  (slices_Index valueSourcePriority (bestSource srcs)
   ≤ slices_Index valueSourcePriority w)%Z.
Proof.
  intros Hw. rewrite !priority_index. unfold bestSource.
  repeat case_bool_decide; destruct w; (done || lia).
Qed.

(** [bestSource] is the member with the least priority index. *)
Lemma bestSource_min srcs v :
  v ∈ srcs →
  (∀ w, w ∈ srcs → (slices_Index valueSourcePriority v
                     ≤ slices_Index valueSourcePriority w)%Z) →
  bestSource srcs = v.
Proof.
  intros Hv Hmin. apply priority_index_inj.
  assert (srcs ≠ []) as Hne by (intros ->; by apply elem_of_nil in Hv).
  pose proof (Hmin _ (bestSource_elem srcs Hne)).
  pose proof (bestSource_le srcs v Hv). lia.
Qed.

Lemma elem_of_aliases optSet r o :
  o ∈ aliases optSet r ↔ ∃ j, j ∈ members optSet r ∧ optSet !! j = Some o.
Proof.
  unfold aliases. rewrite list_elem_of_filter, list_elem_of_lookup. split.
  - intros [Hv [j Hj]]. exists j. split; [|done]. apply elem_of_members. eauto.
  - intros (j & Hm & Hj). apply elem_of_members in Hm as (o' & Ho' & Hv).
    rewrite Hj in Ho'. injection Ho' as <-. eauto.
Qed.

Lemma elem_of_groupSources optSet r vs :
  vs ∈ groupSources optSet r ↔
  ∃ j, j ∈ members optSet r ∧ Option.ValueSource (optSet !!! j) = vs.
Proof.
  unfold groupSources. rewrite list_elem_of_fmap. split.
  - intros (o & -> & Ho). apply elem_of_aliases in Ho as (j & Hm & Hj).
    exists j. by rewrite (list_lookup_total_correct _ _ _ Hj).
  - intros (j & Hm & <-). pose proof Hm as Hm'.
    apply elem_of_members in Hm as (o & Ho & Hv).
    exists o. rewrite (list_lookup_total_correct _ _ _ Ho). split; [done|].
    apply elem_of_aliases. eauto.
Qed.

Lemma elem_of_groupDefaults optSet r d :
  d ∈ groupDefaults optSet r ↔
  d ≠ "" ∧ ∃ j, j ∈ members optSet r ∧ Option.Default (optSet !!! j) = d.
Proof.
  unfold groupDefaults. rewrite list_elem_of_filter, list_elem_of_fmap. split.
  - intros (Hd & o & -> & Ho). split; [done|].
    apply elem_of_aliases in Ho as (j & Hm & Hj).
    exists j. by rewrite (list_lookup_total_correct _ _ _ Hj).
  - intros (Hd & j & Hm & <-). split; [done|]. pose proof Hm as Hm'.
    apply elem_of_members in Hm as (o & Ho & Hv).
    exists o. rewrite (list_lookup_total_correct _ _ _ Ho). split; [done|].
    apply elem_of_aliases. eauto.
Qed.

Lemma bestSource_None_all srcs vs :
  bestSource srcs = ValueSourceNone → vs ∈ srcs → vs = ValueSourceNone.
Proof.
  unfold bestSource. repeat case_bool_decide; try done.
  intros _ Hvs. by destruct vs.
Qed.

Lemma resolvedSource_best optSet r :
  bestSource (groupSources optSet r) ≠ ValueSourceNone →
  resolvedSource optSet r = bestSource (groupSources optSet r).
Proof. unfold resolvedSource. by destruct (bestSource _). Qed.

Lemma fmap_id_elem {A} (f : A → A) (l : list A) :
  (∀ x, x ∈ l → f x = x) → f <$> l = l.
Proof.
  intros Hf. rewrite <- (list_fmap_id l) at 2.
  apply list_fmap_ext. intros i x Hx. apply Hf. by eapply list_elem_of_lookup_2.
Qed.

(** What one round of the loop over the groups does, for the group of
    all aliases of [r]. *)
Lemma SetDefaults_group_spec optSet st merr r idxs :
  (∀ j, j ∈ idxs ↔ j ∈ members optSet r) → NoDup idxs → idxs ≠ [] →
  (r < length st)%nat →
  ∃ st' errs,
    SetDefaults_group (optSet, st, merr) (r, idxs)
      = Ret (markGroup optSet r <$> optSet, st', merr ++ errs)
    ∧ length st' = length st
    ∧ (bestSource (groupSources optSet r) ≠ ValueSourceNone
       ∨ groupDefaults optSet r = [] → st' = st ∧ errs = [])
    ∧ (bestSource (groupSources optSet r) = ValueSourceNone →
       groupDefaults optSet r ≠ [] →
       ∃ d v o cerrs,
         d ∈ groupDefaults optSet r ∧ st !! r = Some v
         ∧ st' = <[r := (value_Set d v).1]> st
         ∧ errs = cerrs ++ option_list (parseError o <$> (value_Set d v).2)
         ∧ Forall isConflict cerrs
         ∧ (cerrs = [] ↔
            ∀ d1 d2, d1 ∈ groupDefaults optSet r → d2 ∈ groupDefaults optSet r → d1 = d2)).
Proof.
  intros Hidx Hnd Hne Hr.
  unfold SetDefaults_group. cbn [snd].
  set (cmp := λ a b, sortOptionByValueSourcePriorityOrDefault (optSet !!! a) (optSet !!! b)).
  pose proof (slices_SortFunc_perm cmp idxs) as Hperm.
  destruct (slices_SortFunc cmp idxs) as [|first others] eqn:Hsort.
  { apply Permutation_nil_l in Hperm. done. }
  assert (Hmem : ∀ j, j ∈ first :: others ↔ j ∈ members optSet r).
  { intros j. by rewrite Hperm. }
  assert (Hnd' : NoDup (first :: others)) by (by rewrite Hperm).
  apply NoDup_cons in Hnd' as [Hfirst Hnd'].
  assert (Hkey : ∀ y, y ∈ others →
            (slices_Index valueSourcePriority (Option.ValueSource (optSet !!! first))
             ≤ slices_Index valueSourcePriority (Option.ValueSource (optSet !!! y)))%Z).
  { intros y Hy.
    pose proof (slices_SortFunc_head cmp (λ a, sortKey (optSet !!! a))
                  (λ a b, cmp_sortKey _ _) idxs first others Hsort y Hy) as Hle.
    unfold sortKey in Hle. rewrite !priority_index in *.
    repeat case_decide; lia. }
  assert (Hbest : bestSource (groupSources optSet r)
                  = Option.ValueSource (optSet !!! first)).
  { apply bestSource_min.
    - apply elem_of_groupSources. exists first. split; [|done]. apply Hmem. by left.
    - intros w Hw. apply elem_of_groupSources in Hw as (j & Hj & <-).
      apply Hmem, elem_of_cons in Hj as [->|Hj]; [lia|by apply Hkey]. }
  destruct (decide (Option.ValueSource (optSet !!! first) ≠ ValueSourceNone)) as [Hsrc|Hsrc].
  - (* the group already has a source *)
    exists st, []. rewrite app_nil_r. split_and!; try done.
    + rewrite markSource_first, (markSource_others _ r) by done.
      do 3 f_equal. apply list_fmap_ext. intros i o _. unfold markGroup.
      by rewrite resolvedSource_best, Hbest by (by rewrite Hbest).
    + intros Hb. by rewrite Hbest in Hb.
  - apply dec_stable in Hsrc. rewrite Hsrc in Hbest.
    destruct (findDefault_none optSet (first :: others) merr)
      as (owd & cerrs & Hfold & Hconf & Hnone & Hsome & Hiff).
    rewrite Hfold.
    assert (Hdefaults : groupDefaults optSet r = [] ↔
                        ∀ j, j ∈ first :: others → Option.Default (optSet !!! j) = "").
    { split.
      - intros Hnil j Hj. apply dec_stable. intros Hd.
        assert (Option.Default (optSet !!! j) ∈ groupDefaults optSet r) as Hin.
        { apply elem_of_groupDefaults. split; [done|]. exists j. split; [|done]. by apply Hmem. }
        rewrite Hnil in Hin. by apply elem_of_nil in Hin.
      - intros Hall. destruct (groupDefaults optSet r) as [|d ds] eqn:E; [done|].
        assert (d ∈ groupDefaults optSet r) as Hd by (rewrite E; by left).
        apply elem_of_groupDefaults in Hd as (Hd & j & Hj & <-).
        destruct Hd. apply Hall. by apply Hmem. }
    assert (Hpairs : (∀ d1 d2, d1 ∈ groupDefaults optSet r →
                               d2 ∈ groupDefaults optSet r → d1 = d2) ↔
              ∀ j1 j2, j1 ∈ first :: others → j2 ∈ first :: others →
                Option.Default (optSet !!! j1) ≠ "" → Option.Default (optSet !!! j2) ≠ "" →
                Option.Default (optSet !!! j1) = Option.Default (optSet !!! j2)).
    { split.
      - intros Hall j1 j2 Hj1 Hj2 Hd1 Hd2.
        apply Hall; apply elem_of_groupDefaults; (split; [done|]).
        + exists j1. split; [by apply Hmem|done].
        + exists j2. split; [by apply Hmem|done].
      - intros Hall d1 d2 Hd1 Hd2.
        apply elem_of_groupDefaults in Hd1 as (Hd1 & j1 & Hj1 & <-).
        apply elem_of_groupDefaults in Hd2 as (Hd2 & j2 & Hj2 & <-).
        apply Hall; try done; by apply Hmem. }
    destruct owd as [j'|].
    + (* a default is applied *)
      destruct (Hsome j' eq_refl) as [Hj' Hdj'].
      pose proof Hj' as Hv. apply Hmem, elem_of_members in Hv as (o & Ho & Hv).
      rewrite (list_lookup_total_correct _ _ _ Ho) in *. rewrite Hv.
      destruct (lookup_lt_is_Some_2 st r Hr) as [v Hst].
      unfold Value_Set. rewrite Hst.
      destruct (value_Set (Option.Default o) v) as [v' err] eqn:HSet. cbn -[markSource].
      exists (<[r := v']> st), (cerrs ++ option_list (parseError o <$> err)).
      assert (Hnonempty : groupDefaults optSet r ≠ []).
      { intros Hnil. pose proof (proj2 Hnone (proj1 Hdefaults Hnil)). done. }
      split_and!.
      * rewrite (markSource_members _ r) by done.
        do 2 f_equal.
        -- f_equal. apply list_fmap_ext. intros i o' _. unfold markGroup, resolvedSource.
           rewrite Hbest. by rewrite (decide_False (P := groupDefaults optSet r = [])).
        -- destruct err; simpl; [by rewrite app_assoc|by rewrite !app_nil_r].
      * apply length_insert.
      * intros [Hb|Hnil]; [by rewrite Hbest in Hb|done].
      * intros _ _. exists (Option.Default o), v, o, cerrs. split_and!; try done.
        -- apply elem_of_groupDefaults. split; [done|]. exists j'.
           rewrite (list_lookup_total_correct _ _ _ Ho). split; [by apply Hmem|done].
        -- by rewrite HSet.
        -- by rewrite HSet.
        -- by rewrite Hiff, Hpairs.
    + (* no alias declares a default *)
      assert (Hnil : groupDefaults optSet r = []).
      { apply Hdefaults. by apply Hnone. }
      assert (cerrs = []) as ->.
      { apply Hiff. intros j1 j2 Hj1 _ Hd1. destruct Hd1. by apply Hnone. }
      exists st, []. split_and!; try done.
      rewrite fmap_id_elem; [done|].
      intros o Ho. unfold markGroup, resolvedSource. rewrite Hbest.
      destruct (decide (Option.Value o = Some r)) as [Hv|]; [|done].
      rewrite decide_True by done.
      assert (Option.ValueSource o = ValueSourceNone) as <-; [|apply set_ValueSource_id].
      apply (bestSource_None_all (groupSources optSet r)); [done|].
      apply list_elem_of_fmap. exists o. split; [done|].
      unfold aliases. by apply list_elem_of_filter.
Qed.

Lemma members_fmap (f : Option.t → Option.t) optSet r :
  (∀ o, Option.Value (f o) = Option.Value o) →
  members (f <$> optSet) r = members optSet r.
Proof.
  intros Hf. unfold members. rewrite length_fmap.
  apply filter_ext_elem. intros j Hj. apply elem_of_seq in Hj. cbv beta.
  rewrite (list_lookup_total_fmap f optSet j) by lia. by rewrite Hf.
Qed.

Lemma aliases_fmap (f : Option.t → Option.t) optSet r :
  (∀ o, Option.Value (f o) = Option.Value o) →
  (∀ o, Option.Value o = Some r → f o = o) →
  aliases (f <$> optSet) r = aliases optSet r.
Proof.
  intros Hv Hid. unfold aliases.
  induction optSet as [|o optSet IH]; [done|].
  rewrite fmap_cons, !filter_cons, IH, Hv.
  destruct (decide (Option.Value o = Some r)); [|done]. by rewrite Hid.
Qed.

Lemma markDone_Value optSet done o :
  Option.Value (markDone optSet done o) = Option.Value o.
Proof.
  unfold markDone. destruct (Option.Value o) eqn:E; [|done]. by case_decide.
Qed.

Lemma markDone_other optSet done r o :
  r ∉ done → Option.Value o = Some r → markDone optSet done o = o.
Proof. intros Hr Hv. unfold markDone. rewrite Hv. by rewrite decide_False. Qed.

Lemma markDone_nil optSet : markDone optSet [] <$> optSet = optSet.
Proof.
  apply fmap_id_elem. intros o _. unfold markDone.
  destruct (Option.Value o); [|done]. rewrite decide_False; [done|apply not_elem_of_nil].
Qed.

Lemma markDone_all optSet keys :
  (∀ k, k ∈ keys ↔ members optSet k ≠ []) →
  markDone optSet keys <$> optSet = markDefault optSet <$> optSet.
Proof.
  intros Hkeys. apply list_fmap_ext. intros j o Ho. unfold markDone, markDefault.
  destruct (Option.Value o) as [r|] eqn:Hv; [|done].
  rewrite decide_True; [done|]. apply Hkeys.
  assert (j ∈ members optSet r) as Hj by (apply elem_of_members; eauto).
  intros Hnil. rewrite Hnil in Hj. by apply elem_of_nil in Hj.
Qed.

(** The state of the aliases of a value that is not resolved yet is the
    one of the original option set. *)
Lemma group_untouched optSet done r :
  r ∉ done →
  members (markDone optSet done <$> optSet) r = members optSet r
  ∧ groupSources (markDone optSet done <$> optSet) r = groupSources optSet r
  ∧ groupDefaults (markDone optSet done <$> optSet) r = groupDefaults optSet r.
Proof.
  intros Hr. split; [apply members_fmap, markDone_Value|].
  unfold groupSources, groupDefaults.
  rewrite aliases_fmap; [done|apply markDone_Value|].
  intros o Hv. by apply (markDone_other _ _ r).
Qed.

Lemma markGroup_markDone optSet done r :
  r ∉ done →
  markGroup (markDone optSet done <$> optSet) r <$> (markDone optSet done <$> optSet)
  = markDone optSet (done ++ [r]) <$> optSet.
Proof.
  intros Hr. rewrite <- list_fmap_compose.
  apply list_fmap_ext. intros j o _. simpl.
  destruct (group_untouched optSet done r Hr) as (_ & Hs & Hd).
  unfold markGroup, resolvedSource. rewrite Hs, Hd, markDone_Value.
  fold (resolvedSource optSet r).
  unfold markDone. destruct (Option.Value o) as [r'|] eqn:Hv.
  - destruct (decide (Some r' = Some r)) as [[= ->]|Hne].
    + rewrite decide_False by done.
      rewrite decide_True; [done|]. apply elem_of_app. right. by left.
    + destruct (decide (r' ∈ done)) as [Hin|Hin].
      * rewrite decide_True; [done|]. apply elem_of_app. by left.
      * rewrite decide_False; [done|].
        rewrite elem_of_app, list_elem_of_singleton. intros [?| ->]; done.
  - by rewrite decide_False.
Qed.

(** The loop over the groups, from a state in which the values in
    [done] are resolved. *)
Lemma SetDefaults_loop_spec optSet keys : ∀ done st merr,
  NoDup (done ++ keys) →
  (∀ k, k ∈ keys → members optSet k ≠ []) →
  (∀ k, k ∈ keys → (k < length st)%nat) →
  ∃ st' errs,
    SetDefaults_loop ((λ k, (k, members optSet k)) <$> keys)
      (markDone optSet done <$> optSet, st, merr)
      = Ret (markDone optSet (done ++ keys) <$> optSet, st', merr ++ errs)
    ∧ length st' = length st
    ∧ (∀ r, r ∉ keys → st' !! r = st !! r)
    ∧ (∀ r, r ∈ keys →
         bestSource (groupSources optSet r) ≠ ValueSourceNone
         ∨ groupDefaults optSet r = [] → st' !! r = st !! r)
    ∧ (∀ r, r ∈ keys →
         bestSource (groupSources optSet r) = ValueSourceNone →
         groupDefaults optSet r ≠ [] →
         ∃ d v, d ∈ groupDefaults optSet r ∧ st !! r = Some v
                ∧ st' !! r = Some (value_Set d v).1)
    ∧ ((∀ r, r ∈ keys →
          bestSource (groupSources optSet r) ≠ ValueSourceNone
          ∨ groupDefaults optSet r = []) → errs = [])
    ∧ (∀ r, r ∈ keys →
         bestSource (groupSources optSet r) = ValueSourceNone →
         (∃ d1 d2, d1 ∈ groupDefaults optSet r ∧ d2 ∈ groupDefaults optSet r ∧ d1 ≠ d2) →
         ∃ e, e ∈ errs ∧ isConflict e)
    ∧ ((∀ r, r ∈ keys →
          bestSource (groupSources optSet r) = ValueSourceNone →
          (∀ d1 d2, d1 ∈ groupDefaults optSet r → d2 ∈ groupDefaults optSet r → d1 = d2)
          ∧ (∀ d v, d ∈ groupDefaults optSet r → st !! r = Some v →
                    (value_Set d v).2 = None)) → errs = [])
    ∧ ((∀ r, r ∈ keys →
          bestSource (groupSources optSet r) = ValueSourceNone →
          ∀ d1 d2, d1 ∈ groupDefaults optSet r → d2 ∈ groupDefaults optSet r → d1 = d2) →
       Forall (λ e, ¬ isConflict e) errs).
Proof.
  induction keys as [|k keys IH]; intros done st merr Hnd Hne Hvalid.
  - exists st, []. rewrite !app_nil_r.
    split_and!; try done; intros r Hr; by apply elem_of_nil in Hr.
  - rewrite fmap_cons. cbn [SetDefaults_loop].
    assert (Hk : k ∉ done).
    { apply NoDup_app in Hnd as (_ & Hdisj & _). intros Hin.
      apply (Hdisj k Hin). by left. }
    assert (Hk' : k ∉ keys).
    { apply NoDup_app in Hnd as (_ & _ & Hnd). by apply NoDup_cons in Hnd as [? _]. }
    destruct (group_untouched optSet done k Hk) as (Hm & Hs & Hd).
    destruct (SetDefaults_group_spec (markDone optSet done <$> optSet) st merr k
                (members optSet k)) as (st1 & errs1 & Hg & Hlen1 & Hres & Hunres).
    { intros j. by rewrite Hm. }
    { apply NoDup_members. }
    { apply Hne. by left. }
    { apply Hvalid. by left. }
    rewrite Hs, Hd in Hres, Hunres.
    rewrite Hg. cbn [mbind Res_bind]. rewrite markGroup_markDone by done.
    destruct (IH (done ++ [k]) st1 (merr ++ errs1))
      as (st' & errs2 & Hloop & Hlen & Hframe & Hkeep & Hset & Hquiet & Hconf & Hok & Hnc).
    { by rewrite <- app_assoc. }
    { intros k0 Hk0. apply Hne. by right. }
    { intros k0 Hk0. rewrite Hlen1. apply Hvalid. by right. }
    assert (Hst1 : ∀ r, r ≠ k → st1 !! r = st !! r).
    { intros r Hr.
      destruct (decide (bestSource (groupSources optSet k) = ValueSourceNone)) as [Hb|Hb];
        [|by destruct Hres as [-> _]; [left|]].
      destruct (decide (groupDefaults optSet k = [])) as [Hdn|Hdn];
        [by destruct Hres as [-> _]; [right|]|].
      destruct (Hunres Hb Hdn) as (d & v & o & cerrs & _ & _ & -> & _).
      by rewrite list_lookup_insert_ne. }
    exists st', (errs1 ++ errs2). split_and!.
    + rewrite Hloop. by rewrite <- !app_assoc.
    + by rewrite Hlen.
    + intros r Hr. apply not_elem_of_cons in Hr as [Hrk Hr].
      rewrite Hframe by done. by apply Hst1.
    + intros r Hr Hsettled. apply elem_of_cons in Hr as [->|Hr].
      * rewrite Hframe by done. by destruct (Hres Hsettled) as [-> _].
      * rewrite Hkeep by done. apply Hst1. by intros ->.
    + intros r Hr Hb Hdn. apply elem_of_cons in Hr as [->|Hr].
      * destruct (Hunres Hb Hdn) as (d & v & o & cerrs & Hd1 & Hv & -> & _).
        exists d, v. split_and!; try done.
        rewrite Hframe by done. rewrite list_lookup_insert_eq; [done|].
        by eapply lookup_lt_Some.
      * destruct (Hset r Hr Hb Hdn) as (d & v & Hd1 & Hv & Hv').
        exists d, v. split_and!; try done. rewrite <- Hst1; [done|by intros ->].
    + intros Hall.
      destruct (Hres (Hall k ltac:(by left))) as [_ ->].
      rewrite Hquiet; [done|]. intros r Hr. apply Hall. by right.
    + intros r Hr Hb Hc. apply elem_of_cons in Hr as [->|Hr].
      * assert (groupDefaults optSet k ≠ []) as Hdn.
        { destruct Hc as (d1 & _ & Hd1 & _). intros Hnil. rewrite Hnil in Hd1.
          by apply elem_of_nil in Hd1. }
        destruct (Hunres Hb Hdn) as (d & v & o & cerrs & _ & _ & _ & -> & Hcf & Hiff).
        destruct cerrs as [|e cerrs].
        -- destruct Hc as (d1 & d2 & Hd1 & Hd2 & Hne12). destruct Hne12.
           by apply (proj1 Hiff).
        -- exists e. split; [|by apply Forall_cons in Hcf as [? _]].
           apply elem_of_app. left. apply elem_of_app. left. by left.
      * destruct (Hconf r Hr Hb Hc) as (e & He & Hce).
        exists e. split; [|done]. apply elem_of_app. by right.
    + intros Hall.
      assert (errs1 = []) as ->.
      { destruct (decide (bestSource (groupSources optSet k) = ValueSourceNone)) as [Hb|Hb];
          [|by destruct Hres as [_ ->]; [left|]].
        destruct (decide (groupDefaults optSet k = [])) as [Hdn|Hdn];
          [by destruct Hres as [_ ->]; [right|]|].
        destruct (Hunres Hb Hdn) as (d & v & o & cerrs & Hd1 & Hv & _ & -> & _ & Hiff).
        destruct (Hall k ltac:(by left) Hb) as [Heq Hparse].
        rewrite (proj2 Hiff Heq). by rewrite (Hparse d v Hd1 Hv). }
      rewrite Hok; [done|]. intros r Hr Hb.
      destruct (Hall r ltac:(by right) Hb) as [Heq Hparse]. split; [done|].
      intros d v Hd1 Hv. apply Hparse; [done|]. rewrite <- Hst1; [done|by intros ->].
    + intros Hall. apply Forall_app. split.
      * destruct (decide (bestSource (groupSources optSet k) = ValueSourceNone)) as [Hb|Hb];
          [|by destruct Hres as [_ ->]; [left|]].
        destruct (decide (groupDefaults optSet k = [])) as [Hdn|Hdn];
          [by destruct Hres as [_ ->]; [right|]|].
        destruct (Hunres Hb Hdn) as (d & v & o & cerrs & _ & _ & _ & -> & _ & Hiff).
        rewrite (proj2 Hiff (Hall k ltac:(by left) Hb)). simpl.
        destruct ((value_Set d v).2); simpl; [|done].
        constructor; [|done]. by intros [args ?].
      * apply Hnc. intros r Hr. apply Hall. by right.
Qed.

Lemma refsValid_key optSet n r :
  refsValid n optSet = true → members optSet r ≠ [] → (r < n)%nat.
Proof.
  intros Hvalid Hne.
  destruct (members optSet r) as [|j js] eqn:E; [done|].
  assert (j ∈ members optSet r) as Hj by (rewrite E; by left).
  apply elem_of_members in Hj as (o & Ho & Hv).
  unfold refsValid in Hvalid. rewrite forallb_forall in Hvalid.
  specialize (Hvalid o). rewrite Hv in Hvalid.
  eapply bool_decide_eq_true_1, Hvalid, list_elem_of_In.
  by eapply list_elem_of_lookup_2.
Qed.

(** [SetDefaults] in closed form: every option with a value reports the
    resolved source of its group; the store changes only at the values of
    the groups that had no source and declare a default; the errors are
    those of the options without a value, followed by those of the
    groups. *)
Lemma SetDefaults_spec optSet st :
  refsValid (length st) optSet = true →
  ∃ st' errs,
    SetDefaults optSet st
      = Ret (markDefault optSet <$> optSet, st', ErrorOrNil (noValueErrors optSet ++ errs))
    ∧ length st' = length st
    ∧ (∀ r, members optSet r = [] → st' !! r = st !! r)
    ∧ (∀ r, bestSource (groupSources optSet r) ≠ ValueSourceNone
            ∨ groupDefaults optSet r = [] → st' !! r = st !! r)
    ∧ (∀ r, bestSource (groupSources optSet r) = ValueSourceNone →
            groupDefaults optSet r ≠ [] →
            ∃ d v, d ∈ groupDefaults optSet r ∧ st !! r = Some v
                   ∧ st' !! r = Some (value_Set d v).1)
    ∧ ((∀ r, bestSource (groupSources optSet r) ≠ ValueSourceNone
             ∨ groupDefaults optSet r = []) → errs = [])
    ∧ (∀ r, bestSource (groupSources optSet r) = ValueSourceNone →
            (∃ d1 d2, d1 ∈ groupDefaults optSet r ∧ d2 ∈ groupDefaults optSet r ∧ d1 ≠ d2) →
            ∃ e, e ∈ errs ∧ isConflict e)
    ∧ ((∀ r, bestSource (groupSources optSet r) = ValueSourceNone →
             (∀ d1 d2, d1 ∈ groupDefaults optSet r → d2 ∈ groupDefaults optSet r → d1 = d2)
             ∧ (∀ d v, d ∈ groupDefaults optSet r → st !! r = Some v →
                       (value_Set d v).2 = None)) → errs = [])
    ∧ ((∀ r, bestSource (groupSources optSet r) = ValueSourceNone →
             ∀ d1 d2, d1 ∈ groupDefaults optSet r → d2 ∈ groupDefaults optSet r → d1 = d2) →
       Forall (λ e, ¬ isConflict e) errs).
Proof.
  intros Hvalid.
  destruct (groupByValue_spec optSet) as (keys & Hnd & Hgroups & Hkeys).
  pose proof (groupByValue_loop_errors optSet 0 [] []) as Herrs.
  unfold SetDefaults.
  destruct (groupByValue_loop 0 optSet [] []) as [groups merr0].
  cbn [fst snd] in Hgroups, Herrs. subst groups merr0. rewrite app_nil_l.
  fold (noValueErrors optSet).
  destruct (SetDefaults_loop_spec optSet keys [] st (noValueErrors optSet))
    as (st' & errs & Hloop & Hlen & Hframe & Hkeep & Hset & Hquiet & Hconf & Hok & Hnc).
  { done. }
  { intros k Hk. by apply Hkeys. }
  { intros k Hk. eapply refsValid_key; [done|]. by apply Hkeys. }
  rewrite markDone_nil in Hloop. rewrite Hloop. cbn [mbind Res_bind].
  rewrite app_nil_l, (markDone_all _ _ Hkeys).
  assert (Hnokey : ∀ r, r ∉ keys → groupDefaults optSet r = []).
  { intros r Hr. rewrite Hkeys in Hr. apply dec_stable in Hr.
    destruct (groupDefaults optSet r) as [|d ds] eqn:E; [done|].
    assert (d ∈ groupDefaults optSet r) as Hd by (rewrite E; by left).
    apply elem_of_groupDefaults in Hd as (_ & j & Hj & _).
    rewrite Hr in Hj. by apply elem_of_nil in Hj. }
  exists st', errs. split_and!; try done.
  - intros r Hr. apply Hframe. rewrite Hkeys. by intros Hne.
  - intros r Hsettled. destruct (decide (r ∈ keys)); [by apply Hkeep|by apply Hframe].
  - intros r Hb Hdn. destruct (decide (r ∈ keys)) as [Hin|Hin]; [by apply Hset|].
    by destruct Hdn; apply Hnokey.
  - intros Hall. apply Hquiet. intros r _. apply Hall.
  - intros r Hb Hc. destruct (decide (r ∈ keys)) as [Hin|Hin]; [by apply (Hconf r)|].
    destruct Hc as (d1 & _ & Hd1 & _). rewrite (Hnokey r Hin) in Hd1.
    by apply elem_of_nil in Hd1.
  - intros Hall. apply Hok. intros r _. apply Hall.
  - intros Hall. apply Hnc. intros r _. apply Hall.
Qed.

Lemma markEnv_Value envs o : Option.Value (markEnv envs o) = Option.Value o.
Proof. unfold markEnv. by destruct (envApplies envs o). Qed.

Lemma refsValid_fmap (f : Option.t → Option.t) n optSet :
  (∀ o, Option.Value (f o) = Option.Value o) →
  refsValid n (f <$> optSet) = refsValid n optSet.
Proof.
  intros Hf. unfold refsValid.
  induction optSet as [|o optSet IH]; [done|].
  rewrite fmap_cons. cbn [forallb]. by rewrite IH, Hf.
Qed.

Lemma markDefault_Value optSet o :
  Option.Value (markDefault optSet o) = Option.Value o.
Proof. unfold markDefault. by destruct (Option.Value o) eqn:E. Qed.

Lemma markDefault_lookup optSet i o r :
  (markDefault optSet <$> optSet) !! i = Some o → Option.Value o = Some r →
  Option.ValueSource o = resolvedSource optSet r.
Proof.
  rewrite list_lookup_fmap. destruct (optSet !! i) as [o0|]; [|done].
  intros [= <-]. rewrite markDefault_Value. unfold markDefault. by intros ->.
Qed.

(** C6: after the environment stage and the defaults stage, every
    alias of a value reports one and the same source, namely the
    resolved source of the group: the best source a member carried after
    the environment stage, else [default] when a member declares a
    default, else [none]. *)
Theorem aliases_report_same_source optSet vs st :
  forallb (envSafe (envMap vs) (length st)) optSet = true →
  refsValid (length st) optSet = true →
  ∃ optSet1 st1 err1 optSet2 st2 err2,
    ParseEnv optSet vs st = Ret (optSet1, st1, err1)
    ∧ SetDefaults optSet1 st1 = Ret (optSet2, st2, err2)
    ∧ (∀ i o r, optSet2 !! i = Some o → Option.Value o = Some r →
         Option.ValueSource o = resolvedSource optSet1 r)
    ∧ (∀ i j oi oj r,
         optSet2 !! i = Some oi → optSet2 !! j = Some oj →
         Option.Value oi = Some r → Option.Value oj = Some r →
         Option.ValueSource oi = Option.ValueSource oj).
Proof.
  intros Hsafe Hvalid.
  destruct (envEffects_total _ _ _ Hsafe) as (st1 & errs1 & E).
  pose proof (envEffects_length _ _ _ _ _ E) as Hlen.
  set (optSet1 := markEnv (envMap vs) <$> optSet).
  assert (Hvalid1 : refsValid (length st1) optSet1 = true).
  { unfold optSet1. rewrite refsValid_fmap by apply markEnv_Value. by rewrite Hlen. }
  destruct (SetDefaults_spec optSet1 st1 Hvalid1) as (st2 & errs2 & HSD & _).
  exists optSet1, st1, (ErrorOrNil errs1), (markDefault optSet1 <$> optSet1), st2,
    (ErrorOrNil (noValueErrors optSet1 ++ errs2)).
  split_and!.
  - by rewrite ParseEnv_eq, E.
  - done.
  - intros i o r. apply markDefault_lookup.
  - intros i j oi oj r Hi Hj Hvi Hvj.
    rewrite (markDefault_lookup _ _ _ _ Hi Hvi).
    by rewrite (markDefault_lookup _ _ _ _ Hj Hvj).
Qed.

Lemma filter_markDefault optSet r (l : list Option.t) :
  filter (λ o, Option.Value o = Some r) (markDefault optSet <$> l)
  = Option.set_ValueSource (resolvedSource optSet r)
      <$> filter (λ o, Option.Value o = Some r) l.
Proof.
  induction l as [|o l IH]; [done|].
  rewrite fmap_cons, !filter_cons, IH, markDefault_Value.
  destruct (decide (Option.Value o = Some r)) as [Hv|]; [|done].
  rewrite fmap_cons. f_equal. unfold markDefault. by rewrite Hv.
Qed.

Lemma groupSources_markDefault optSet r vs :
  vs ∈ groupSources (markDefault optSet <$> optSet) r → vs = resolvedSource optSet r.
Proof.
  unfold groupSources, aliases. rewrite filter_markDefault, <- list_fmap_compose.
  intros (o & -> & _)%list_elem_of_fmap. done.
Qed.

Lemma groupDefaults_markDefault optSet r :
  groupDefaults (markDefault optSet <$> optSet) r = groupDefaults optSet r.
Proof.
  unfold groupDefaults, aliases. rewrite filter_markDefault, <- list_fmap_compose.
  f_equal.
Qed.

Lemma resolvedSource_None optSet r :
  resolvedSource optSet r = ValueSourceNone →
  bestSource (groupSources optSet r) = ValueSourceNone ∧ groupDefaults optSet r = [].
Proof.
  unfold resolvedSource. destruct (bestSource _); try done.
  by destruct (decide (groupDefaults optSet r = [])).
Qed.

(** After the defaults stage every group is settled: it carries a source,
    or no alias declares a default. *)
Lemma markDefault_settled optSet r :
  bestSource (groupSources (markDefault optSet <$> optSet) r) ≠ ValueSourceNone
  ∨ groupDefaults (markDefault optSet <$> optSet) r = [].
Proof.
  rewrite groupDefaults_markDefault.
  destruct (decide (groupDefaults optSet r = [])) as [|Hdn]; [by right|left].
  intros Hb.
  destruct (groupDefaults optSet r) as [|d ds] eqn:E; [done|].
  assert (d ∈ groupDefaults optSet r) as Hd by (rewrite E; by left).
  apply elem_of_groupDefaults in Hd as (_ & j & Hj & _).
  apply elem_of_members in Hj as (o & Ho & Hv).
  assert (Option.ValueSource (markDefault optSet o)
          ∈ groupSources (markDefault optSet <$> optSet) r) as Hin.
  { apply list_elem_of_fmap. exists (markDefault optSet o). split; [done|].
    apply list_elem_of_filter. split; [by rewrite markDefault_Value|].
    apply list_elem_of_fmap. exists o. split; [done|]. by eapply list_elem_of_lookup_2. }
  pose proof (bestSource_None_all _ _ Hb Hin) as Hnone.
  rewrite (groupSources_markDefault _ _ _ Hin) in Hnone.
  apply resolvedSource_None in Hnone as [_ Hnil]. by rewrite E in Hnil.
Qed.

Lemma resolvedSource_markDefault optSet r :
  members optSet r ≠ [] →
  resolvedSource (markDefault optSet <$> optSet) r = resolvedSource optSet r.
Proof.
  intros Hne.
  destruct (members optSet r) as [|j js] eqn:E; [done|].
  assert (j ∈ members optSet r) as Hj by (rewrite E; by left).
  apply elem_of_members in Hj as (o & Ho & Hv).
  assert (resolvedSource optSet r ∈ groupSources (markDefault optSet <$> optSet) r) as Hin.
  { apply list_elem_of_fmap. exists (markDefault optSet o). split.
    - unfold markDefault. by rewrite Hv.
    - apply list_elem_of_filter. split; [by rewrite markDefault_Value|].
      apply list_elem_of_fmap. exists o. split; [done|]. by eapply list_elem_of_lookup_2. }
  assert (bestSource (groupSources (markDefault optSet <$> optSet) r)
          = resolvedSource optSet r) as Hbest.
  { apply bestSource_min; [done|].
    intros w Hw. by rewrite (groupSources_markDefault _ _ _ Hw). }
  unfold resolvedSource at 1. rewrite Hbest, groupDefaults_markDefault.
  destruct (resolvedSource optSet r) eqn:Hres; try done.
  apply resolvedSource_None in Hres as [_ ->]. done.
Qed.

Lemma markDefault_fixpoint optSet :
  markDefault (markDefault optSet <$> optSet) <$> (markDefault optSet <$> optSet)
  = markDefault optSet <$> optSet.
Proof.
  rewrite <- list_fmap_compose. apply list_fmap_ext. intros j o Ho. simpl.
  unfold markDefault at 1. rewrite markDefault_Value.
  destruct (Option.Value o) as [r|] eqn:Hv; [|done].
  rewrite resolvedSource_markDefault.
  - unfold markDefault. by rewrite Hv.
  - intros Hnil. assert (j ∈ members optSet r) as Hj by (apply elem_of_members; eauto).
    rewrite Hnil in Hj. by apply elem_of_nil in Hj.
Qed.

Lemma store_eq_lookup st st' :
  length st' = length st → (∀ r, st' !! r = st !! r) → st' = st.
Proof. intros _ H. by apply list_eq. Qed.

(** C7: [SetDefaults] is idempotent.  (1) Running it again on the state
    that a run produced changes no option and no value, and reports no
    error beyond the options that have no value at all.  (2) On any
    option set in which every group of aliases already carries a source,
    it sets no value, and the source an option ends with is never of
    lower priority than the one it had. *)
Theorem SetDefaults_idempotent :
  (∀ optSet st optSet1 st1 err1,
     refsValid (length st) optSet = true →
     SetDefaults optSet st = Ret (optSet1, st1, err1) →
     SetDefaults optSet1 st1 = Ret (optSet1, st1, ErrorOrNil (noValueErrors optSet1)))
  ∧ (∀ optSet st,
       refsValid (length st) optSet = true →
       (∀ r, members optSet r ≠ [] →
             bestSource (groupSources optSet r) ≠ ValueSourceNone) →
       ∃ optSet',
         SetDefaults optSet st = Ret (optSet', st, ErrorOrNil (noValueErrors optSet))
         ∧ ∀ i o, optSet !! i = Some o →
             ∃ o', optSet' !! i = Some o'
                   ∧ Option.Value o' = Option.Value o
                   ∧ (slices_Index valueSourcePriority (Option.ValueSource o')
                      ≤ slices_Index valueSourcePriority (Option.ValueSource o))%Z).
Proof.
  split.
  - intros optSet st optSet1 st1 err1 Hvalid Hrun.
    destruct (SetDefaults_spec optSet st Hvalid) as (st1' & errs & HSD & Hlen & _).
    rewrite HSD in Hrun. injection Hrun as <- <- <-.
    assert (Hvalid1 : refsValid (length st1') (markDefault optSet <$> optSet) = true).
    { rewrite refsValid_fmap by apply markDefault_Value. by rewrite Hlen. }
    destruct (SetDefaults_spec _ st1' Hvalid1)
      as (st2 & errs2 & HSD2 & Hlen2 & _ & Hkeep & _ & Hquiet & _).
    rewrite HSD2, markDefault_fixpoint.
    rewrite Hquiet by (intros r; apply markDefault_settled). rewrite app_nil_r.
    do 3 f_equal. apply store_eq_lookup; [done|].
    intros r. apply Hkeep, markDefault_settled.
  - intros optSet st Hvalid Hsrc.
    assert (Hsettled : ∀ r, bestSource (groupSources optSet r) ≠ ValueSourceNone
                            ∨ groupDefaults optSet r = []).
    { intros r. destruct (decide (members optSet r = [])) as [Hnil|Hne]; [right|left; auto].
      destruct (groupDefaults optSet r) as [|d ds] eqn:E; [done|].
      assert (d ∈ groupDefaults optSet r) as Hd by (rewrite E; by left).
      apply elem_of_groupDefaults in Hd as (_ & j & Hj & _).
      rewrite Hnil in Hj. by apply elem_of_nil in Hj. }
    destruct (SetDefaults_spec optSet st Hvalid)
      as (st' & errs & HSD & Hlen & _ & Hkeep & _ & Hquiet & _).
    exists (markDefault optSet <$> optSet). split.
    + rewrite HSD, (Hquiet Hsettled), app_nil_r.
      do 3 f_equal. apply store_eq_lookup; [done|]. intros r. apply Hkeep, Hsettled.
    + intros i o Ho. exists (markDefault optSet o).
      split; [by rewrite list_lookup_fmap, Ho|].
      split; [apply markDefault_Value|].
      unfold markDefault. destruct (Option.Value o) as [r|] eqn:Hv; [|lia].
      assert (i ∈ members optSet r) as Hi by (apply elem_of_members; eauto).
      assert (members optSet r ≠ []) as Hne.
      { intros Hnil. rewrite Hnil in Hi. by apply elem_of_nil in Hi. }
      simpl. rewrite resolvedSource_best by auto.
      apply bestSource_le. apply elem_of_groupSources. exists i.
      by rewrite (list_lookup_total_correct _ _ _ Ho).
Qed.

(** C4: the defaults of a group of aliases that has no source yet.
    [SetDefaults] returns; when two aliases of such a group declare
    different non-empty defaults, the error it returns holds a conflict
    error; when the non-empty defaults of every such group agree, it
    returns no conflict error, and it returns no error at all provided
    every option has a value and the values accept the literals. *)
Theorem SetDefaults_default_conflict optSet st :
  refsValid (length st) optSet = true →
  ∃ optSet' st' errs,
    SetDefaults optSet st = Ret (optSet', st', ErrorOrNil errs)
    ∧ (∀ r, bestSource (groupSources optSet r) = ValueSourceNone →
            (∃ d1 d2, d1 ∈ groupDefaults optSet r ∧ d2 ∈ groupDefaults optSet r ∧ d1 ≠ d2) →
            ∃ e, e ∈ errs ∧ isConflict e)
    ∧ ((∀ r, bestSource (groupSources optSet r) = ValueSourceNone →
             ∀ d1 d2, d1 ∈ groupDefaults optSet r → d2 ∈ groupDefaults optSet r → d1 = d2) →
       Forall (λ e, ¬ isConflict e) errs
       ∧ ((∀ o, o ∈ optSet → Option.Value o ≠ None) →
          (∀ r d v, d ∈ groupDefaults optSet r → st !! r = Some v →
                    (value_Set d v).2 = None) →
          errs = [])).
Proof.
  intros Hvalid.
  destruct (SetDefaults_spec optSet st Hvalid)
    as (st' & errs & HSD & _ & _ & _ & _ & _ & Hconf & Hok & Hnc).
  exists (markDefault optSet <$> optSet), st', (noValueErrors optSet ++ errs).
  split_and!; [done| |].
  - intros r Hb Hc. destruct (Hconf r Hb Hc) as (e & He & Hce).
    exists e. split; [|done]. apply elem_of_app. by right.
  - intros Hagree. split.
    + apply Forall_app. split; [|by apply Hnc].
      unfold noValueErrors. apply Forall_fmap, Forall_forall. intros o _ [args Hargs].
      simpl in Hargs. by injection Hargs.
    + intros Hval Hparse.
      rewrite Hok by (intros r Hb; split; [by apply Hagree|by apply Hparse]).
      rewrite app_nil_r. unfold noValueErrors.
      by rewrite filter_none.
Qed.

Lemma Value_Set_other r' raw st st' err r :
  Value_Set (Some r') raw st = Ret (st', err) → r ≠ r' → st' !! r = st !! r.
Proof.
  unfold Value_Set. destruct (st !! r') as [v|]; [|done].
  destruct (value_Set raw v) as [v' e]. intros [= <- _] Hne.
  by rewrite list_lookup_insert_ne.
Qed.

(** The environment stage leaves alone a value that no applicable option
    holds. *)
Lemma envEffects_store_at envs r rest : ∀ st st' errs,
  envEffects envs rest st = Ret (st', errs) →
  (∀ o, o ∈ rest → Option.Value o = Some r → envApplies envs o = None) →
  st' !! r = st !! r.
Proof.
  induction rest as [|o rest IH]; intros st st' errs; simpl.
  - by intros [= <- _].
  - intros Hrun Hnone.
    destruct (envApplies envs o) as [envVal|] eqn:Happ.
    + destruct (Option.Value o) as [r'|] eqn:Hv; [|done].
      destruct (Value_Set (Some r') envVal st) as [[st1 err]|] eqn:HSet; [|done].
      simpl in Hrun.
      destruct (envEffects envs rest st1) as [[st2 errs2]|] eqn:E; [|done].
      simpl in Hrun. injection Hrun as <- _.
      rewrite (IH _ _ _ E) by (intros o' Ho'; apply Hnone; by right).
      eapply Value_Set_other; [done|]. intros ->.
      specialize (Hnone o ltac:(by left) Hv). congruence.
    + apply (IH _ _ _ Hrun). intros o' Ho'. apply Hnone. by right.
Qed.

Lemma bestSource_all_None srcs :
  (∀ vs, vs ∈ srcs → vs = ValueSourceNone) → bestSource srcs = ValueSourceNone.
Proof.
  intros Hall. unfold bestSource.
  repeat case_bool_decide; try done;
    match goal with H : _ ∈ srcs |- _ => by apply Hall in H end.
Qed.

(** C5: the environment fallback and the empty text.  (1) When the bound
    variable is absent from the snapshot and its [HOMEBREW_] twin holds a
    non-empty text, [ParseEnv] marks the option [env] and sets its value
    from that text.  (2) When the bound variable is present with the
    empty text, [ParseEnv] leaves the option as it was, and with no other
    source in its group (no source so far, no default, no alias that the
    environment applies to) the option ends the defaults stage at
    [none]. *)
Theorem ParseEnv_fallback_and_empty :
  (∀ optSet vs st i opt r v bar,
     forallb (envSafe (envMap vs) (length st)) optSet = true →
     optSet !! i = Some opt →
     Option.Env opt ≠ "" →
     envMap vs !! Option.Env opt = None →
     envMap vs !! ("HOMEBREW_" +:+ Option.Env opt) = Some bar →
     bar ≠ "" →
     Option.Value opt = Some r →
     st !! r = Some v →
     (∀ j o, j ≠ i → optSet !! j = Some o → Option.Value o = Some r →
             envApplies (envMap vs) o = None) →
     ∃ optSet' st' err,
       ParseEnv optSet vs st = Ret (optSet', st', err)
       ∧ Option.ValueSource <$> optSet' !! i = Some ValueSourceEnv
       ∧ st' !! r = Some (value_Set bar v).1)
  ∧ (∀ optSet vs st i opt,
       forallb (envSafe (envMap vs) (length st)) optSet = true →
       refsValid (length st) optSet = true →
       optSet !! i = Some opt →
       Option.Env opt ≠ "" →
       envMap vs !! Option.Env opt = Some "" →
       (∀ j o, optSet !! j = Some o → Option.Value o = Option.Value opt →
               Option.ValueSource o = ValueSourceNone ∧ Option.Default o = ""
               ∧ (j ≠ i → envApplies (envMap vs) o = None)) →
       ∃ optSet1 st1 err1 optSet2 st2 err2,
         ParseEnv optSet vs st = Ret (optSet1, st1, err1)
         ∧ optSet1 !! i = Some opt
         ∧ SetDefaults optSet1 st1 = Ret (optSet2, st2, err2)
         ∧ Option.ValueSource <$> optSet2 !! i = Some ValueSourceNone).
Proof.
  split.
  - intros optSet vs st i opt r v bar Hsafe Hi Henv Habsent Hbrew Hbar Hv Hst Hothers.
    assert (Happ : envApplies (envMap vs) opt = Some bar).
    { unfold envApplies, lookupEnv. rewrite decide_False by done.
      rewrite Habsent, Hbrew. by rewrite decide_False. }
    destruct (envEffects_total _ _ _ Hsafe) as (st' & errs & E).
    exists (markEnv (envMap vs) <$> optSet), st', (ErrorOrNil errs).
    split_and!.
    + by rewrite ParseEnv_eq, E.
    + rewrite (markEnv_lookup _ _ _ _ Hi). unfold markEnv. by rewrite Happ.
    + rewrite <- (take_drop_middle _ _ _ Hi) in E.
      rewrite envEffects_app in E.
      destruct (envEffects (envMap vs) (take i optSet) st) as [[st1 errs1]|] eqn:E1;
        [|done].
      cbn [mbind Res_bind] in E. cbn [envEffects] in E. rewrite Happ, Hv in E.
      assert (Hst1 : st1 !! r = Some v).
      { rewrite <- Hst. apply (envEffects_store_at _ _ _ _ _ _ E1).
        intros o Ho Hvo. apply list_elem_of_lookup in Ho as [j Hj].
        pose proof (lookup_lt_Some _ _ _ Hj) as Hlt. rewrite length_take in Hlt.
        rewrite lookup_take_lt in Hj by lia.
        apply (Hothers j o); [lia|done|done]. }
      unfold Value_Set in E. rewrite Hst1 in E.
      destruct (value_Set bar v) as [v' e]. cbn [mbind Res_bind] in E.
      destruct (envEffects (envMap vs) (drop (S i) optSet) (<[r:=v']> st1))
        as [[st2 errs2]|] eqn:E2; [|done].
      cbn in E. injection E as <- _.
      rewrite (envEffects_store_at _ r _ _ _ _ E2).
      * apply list_lookup_insert_eq. by eapply lookup_lt_Some.
      * intros o Ho Hvo. apply list_elem_of_lookup in Ho as [j Hj].
        rewrite lookup_drop in Hj. apply (Hothers (S i + j)%nat o); [lia|done|done].
  - intros optSet vs st i opt Hsafe Hvalid Hi Henv Hempty Hgroup.
    assert (Happ : envApplies (envMap vs) opt = None).
    { unfold envApplies, lookupEnv. rewrite decide_False by done.
      rewrite Hempty. by rewrite decide_True. }
    destruct (envEffects_total _ _ _ Hsafe) as (st1 & errs1 & E).
    pose proof (envEffects_length _ _ _ _ _ E) as Hlen.
    set (optSet1 := markEnv (envMap vs) <$> optSet).
    assert (Hvalid1 : refsValid (length st1) optSet1 = true).
    { unfold optSet1. rewrite refsValid_fmap by apply markEnv_Value. by rewrite Hlen. }
    destruct (SetDefaults_spec optSet1 st1 Hvalid1) as (st2 & errs2 & HSD & _).
    assert (Hi1 : optSet1 !! i = Some opt).
    { unfold optSet1. rewrite (markEnv_lookup _ _ _ _ Hi). unfold markEnv. by rewrite Happ. }
    exists optSet1, st1, (ErrorOrNil errs1), (markDefault optSet1 <$> optSet1), st2,
      (ErrorOrNil (noValueErrors optSet1 ++ errs2)).
    split_and!; try done.
    + by rewrite ParseEnv_eq, E.
    + rewrite list_lookup_fmap, Hi1. simpl. f_equal.
      destruct (Hgroup i opt Hi eq_refl) as (Hsrc & _ & _).
      unfold markDefault. destruct (Option.Value opt) as [r|] eqn:Hv; [|done].
      simpl.
      assert (Halias : ∀ o1, o1 ∈ aliases optSet1 r →
                Option.ValueSource o1 = ValueSourceNone ∧ Option.Default o1 = "").
      { intros o1 Ho1. apply list_elem_of_filter in Ho1 as [Hv1 Ho1].
        apply list_elem_of_fmap in Ho1 as (o & -> & Ho).
        apply list_elem_of_lookup in Ho as [j Hj].
        rewrite markEnv_Value in Hv1.
        destruct (Hgroup j o Hj Hv1) as (Hs & Hd & Hne).
        destruct (decide (j = i)) as [->|Hji].
        - rewrite Hi in Hj. injection Hj as <-. unfold markEnv. by rewrite Happ.
        - unfold markEnv. by rewrite (Hne Hji). }
      unfold resolvedSource.
      rewrite bestSource_all_None.
      * rewrite decide_True; [done|]. unfold groupDefaults.
        apply filter_none. intros d Hd. apply list_elem_of_fmap in Hd as (o1 & -> & Ho1).
        destruct (Halias o1 Ho1) as [_ ->]. by intros ?.
      * intros vs0 Hvs. apply list_elem_of_fmap in Hvs as (o1 & -> & Ho1).
        by destruct (Halias o1 Ho1).
Qed.

End SetDefaultsFacts.

Section FlagFacts.
Implicit Types (f g : pflag.Flag) (l : list pflag.Flag) (fs : pflag.FlagSet) (n : string).

Lemma flagsWf_elem l :
  flagsWf l ↔
  NoDup (pflag.Name <$> l)
  ∧ (∀ f, f ∈ l → (String.length (pflag.Shorthand f) ≤ 1)%nat)
  ∧ (∀ f g, f ∈ l → g ∈ l → pflag.Shorthand f ≠ "" →
            pflag.Shorthand f = pflag.Shorthand g → pflag.Name f = pflag.Name g).
Proof.
  unfold flagsWf. rewrite !Forall_forall.
  split; intros (Hnd & Hok & Huniq); split_and!; try done.
  - intros f g Hf Hg. specialize (Huniq f Hf). rewrite Forall_forall in Huniq. by apply Huniq.
  - intros f Hf. apply Forall_forall. intros g Hg. by apply Huniq.
Qed.

Lemma NoDup_submseteq_names (l l' : list string) : l' ⊆+ l → NoDup l → NoDup l'.
Proof.
  intros Hsub Hnd. apply submseteq_sublist_r in Hsub as (k & Hp & Hk).
  rewrite Hp. by eapply sublist_NoDup.
Qed.

Lemma flagsWf_submseteq l l' : l' ⊆+ l → flagsWf l → flagsWf l'.
Proof.
  intros Hsub. rewrite !flagsWf_elem. intros (Hnd & Hok & Huniq). split_and!.
  - eapply NoDup_submseteq_names; [|done]. by apply fmap_submseteq.
  - intros f Hf. apply Hok. by eapply elem_of_submseteq.
  - intros f g Hf Hg. apply Huniq; by eapply elem_of_submseteq.
Qed.

Lemma flagsWf_perm l l' : l ≡ₚ l' → flagsWf l → flagsWf l'.
Proof. intros Hp. apply flagsWf_submseteq. by rewrite Hp. Qed.

Lemma name_inj l f g :
  NoDup (pflag.Name <$> l) → f ∈ l → g ∈ l → pflag.Name f = pflag.Name g → f = g.
Proof.
  induction l as [|h l IH]; intros Hnd Hf Hg Hn; [by apply elem_of_nil in Hf|].
  rewrite fmap_cons in Hnd. apply NoDup_cons in Hnd as [Hh Hnd].
  apply elem_of_cons in Hf as [->|Hf]; apply elem_of_cons in Hg as [->|Hg]; try done.
  - destruct Hh. rewrite Hn. by apply list_elem_of_fmap_2.
  - destruct Hh. rewrite <- Hn. by apply list_elem_of_fmap_2.
  - by apply IH.
Qed.

Lemma lookupFlag_Some l n f :
  NoDup (pflag.Name <$> l) →
  lookupFlag l n = Some f ↔ f ∈ l ∧ pflag.Name f = n.
Proof.
  intros Hnd. unfold lookupFlag. split.
  - intros Hfind. apply find_some in Hfind as [Hin Hb].
    split; [by apply list_elem_of_In|]. by apply bool_decide_eq_true in Hb.
  - intros [Hin Hn].
    destruct (find _ l) as [g|] eqn:Hfind.
    + apply find_some in Hfind as [Hg Hb]. apply bool_decide_eq_true in Hb.
      f_equal. apply (name_inj l); [done|by apply list_elem_of_In|done|congruence].
    + eapply find_none in Hfind; [|by apply list_elem_of_In].
      by apply bool_decide_eq_false in Hfind.
Qed.

Lemma lookupFlag_None l n :
  lookupFlag l n = None ↔ ∀ f, f ∈ l → pflag.Name f ≠ n.
Proof.
  unfold lookupFlag. split.
  - intros Hfind f Hf. eapply find_none in Hfind; [|by apply list_elem_of_In].
    by apply bool_decide_eq_false in Hfind.
  - intros Hall. destruct (find _ l) as [g|] eqn:Hfind; [|done].
    apply find_some in Hfind as [Hg Hb]. apply bool_decide_eq_true in Hb.
    destruct (Hall g); [by apply list_elem_of_In|done].
Qed.

(** Two well-formed lists with the same flags answer every lookup alike. *)
Lemma lookupFlag_ext l l' n :
  NoDup (pflag.Name <$> l) → NoDup (pflag.Name <$> l') →
  (∀ f, pflag.Name f = n → f ∈ l ↔ f ∈ l') →
  lookupFlag l n = lookupFlag l' n.
Proof.
  intros Hnd Hnd' Hiff.
  destruct (lookupFlag l n) as [f|] eqn:E.
  - apply lookupFlag_Some in E as [Hf Hn]; [|done]. symmetry.
    apply lookupFlag_Some; [done|]. split; [|done]. by apply Hiff.
  - symmetry. apply lookupFlag_None. intros f Hf Hn.
    rewrite lookupFlag_None in E. apply (E f); [|done]. by apply Hiff.
Qed.

Lemma Lookup_unfold fs n : pflag.Lookup fs n = lookupFlag (pflag.formal fs) n.
Proof. done. Qed.

Lemma shorthand_shape f :
  (String.length (pflag.Shorthand f) ≤ 1)%nat →
  pflag.Shorthand f = "" ∨ ∃ c, pflag.Shorthand f = String c "".
Proof.
  destruct (pflag.Shorthand f) as [|c [|c' s]]; simpl; [by left|right; by exists c|lia].
Qed.

(** [AddFlag] does not panic when the list stays well-formed. *)
Lemma AddFlag_ok fs f :
  flagsWf (pflag.formal fs ++ [f]) →
  pflag.AddFlag fs f = Ret (pflag.set_formal (pflag.formal fs ++ [f]) fs).
Proof.
  rewrite flagsWf_elem. intros (Hnd & Hok & Huniq).
  rewrite fmap_app in Hnd. apply NoDup_app in Hnd as (_ & Hdisj & _).
  assert (Hfresh : ∀ g, g ∈ pflag.formal fs → pflag.Name g ≠ pflag.Name f).
  { intros g Hg Hn. apply (Hdisj (pflag.Name g)); [by apply list_elem_of_fmap_2|].
    rewrite Hn. simpl. by left. }
  unfold pflag.AddFlag. rewrite Lookup_unfold.
  rewrite (proj2 (lookupFlag_None _ _) Hfresh).
  destruct (shorthand_shape f) as [->|[c Hc]].
  { apply Hok. apply elem_of_app. right. by left. }
  { done. }
  rewrite Hc.
  destruct (pflag.lookupShorthand fs c) as [used|] eqn:Hused; [|done].
  unfold pflag.lookupShorthand in Hused.
  apply find_some in Hused as [Hin Hb]. apply bool_decide_eq_true in Hb.
  apply list_elem_of_In in Hin.
  destruct (Hfresh used Hin). symmetry. apply Huniq.
  - apply elem_of_app. right. by left.
  - apply elem_of_app. by left.
  - by rewrite Hc.
  - by rewrite Hc, Hb.
Qed.

Lemma copyFlags_ok without l : ∀ fs2,
  flagsWf (pflag.formal fs2 ++ l) →
  copyFlags fs2 without l =
  Ret (pflag.set_formal
         (pflag.formal fs2 ++ filter (λ f, pflag.Name f ≠ without) l) fs2).
Proof.
  induction l as [|f l IH]; intros fs2 Hwf.
  - simpl. rewrite app_nil_r. by destruct fs2.
  - cbn [copyFlags]. rewrite filter_cons.
    destruct (decide (pflag.Name f = without)) as [Hn|Hn].
    + rewrite decide_False by (by intros ?). apply IH.
      eapply flagsWf_submseteq; [|done].
      apply submseteq_skips_l. by apply submseteq_cons.
    + rewrite decide_True by done.
      rewrite AddFlag_ok.
      2:{ eapply flagsWf_submseteq; [|done].
          apply submseteq_skips_l. apply submseteq_skip. apply submseteq_nil_l. }
      cbn [mbind Res_bind]. rewrite IH.
      * simpl. by rewrite <- app_assoc.
      * simpl. by rewrite <- app_assoc.
Qed.

(** Rebuilding a flag set without a name: the flags that remain are the
    others, in the order of their names. *)
Lemma copyFlagSetWithout_ok fs n :
  flagsWf (pflag.formal fs) →
  copyFlagSetWithout fs n =
  Ret (pflag.mkFlagSet "" (filter (λ f, pflag.Name f ≠ n) (pflag.VisitAll fs)) []).
Proof.
  intros Hwf. unfold copyFlagSetWithout. rewrite copyFlags_ok; [done|].
  simpl. eapply flagsWf_perm; [|done]. symmetry. apply merge_sort_Permutation.
Qed.

Lemma elem_of_VisitAll fs f : f ∈ pflag.VisitAll fs ↔ f ∈ pflag.formal fs.
Proof. unfold pflag.VisitAll. by rewrite merge_sort_Permutation. Qed.

Lemma flagsWf_snoc l f :
  flagsWf l → shorthandFree f l → (∀ g, g ∈ l → pflag.Name g ≠ pflag.Name f) →
  flagsWf (l ++ [f]).
Proof.
  rewrite !flagsWf_elem. intros (Hnd & Hok & Huniq) [Hlen Hfree] Hfresh.
  rewrite Forall_forall in Hfree. split_and!.
  - rewrite fmap_app. apply NoDup_app. split_and!; [done| |apply NoDup_singleton].
    intros n Hn Hn'. apply list_elem_of_fmap in Hn as (g & -> & Hg).
    apply list_elem_of_singleton in Hn'. by apply (Hfresh g).
  - intros g Hg. apply elem_of_app in Hg as [Hg|Hg]; [by apply Hok|].
    apply list_elem_of_singleton in Hg as ->. done.
  - intros g h Hg Hh Hne Heq.
    apply elem_of_app in Hg as [Hg|Hg]; apply elem_of_app in Hh as [Hh|Hh];
      rewrite ?list_elem_of_singleton in *; subst.
    + by apply Huniq.
    + symmetry. apply Hfree; [done|congruence|done].
    + by apply Hfree.
    + done.
Qed.

Lemma shorthandFree_submseteq f l l' : l' ⊆+ l → shorthandFree f l → shorthandFree f l'.
Proof.
  intros Hsub [Hlen Hfree]. split; [done|].
  rewrite Forall_forall in *. intros g Hg. apply Hfree. by eapply elem_of_submseteq.
Qed.

Lemma filter_submseteq_flags (P : pflag.Flag → Prop) `{!∀ x, Decision (P x)} l :
  filter P l ⊆+ l.
Proof. apply sublist_submseteq, sublist_filter. Qed.

(** The flags that the merge of one flag leaves: the new flag, and the
    old ones of another name. *)
Lemma mergeFlag_spec acc f :
  flagsWf (pflag.formal acc) → shorthandFree f (pflag.formal acc) →
  ∃ acc', mergeFlag acc f = Ret acc'
    ∧ flagsWf (pflag.formal acc')
    ∧ (∀ g, g ∈ pflag.formal acc' ↔
            g = f ∨ (g ∈ pflag.formal acc ∧ pflag.Name g ≠ pflag.Name f)).
Proof.
  intros Hwf Hfree. unfold mergeFlag.
  destruct (pflag.Lookup acc (pflag.Name f)) as [old|] eqn:Hold.
  - rewrite copyFlagSetWithout_ok by done. cbn [mbind Res_bind].
    set (rest := filter (λ g, pflag.Name g ≠ pflag.Name f) (pflag.VisitAll acc)).
    assert (Hsub : rest ⊆+ pflag.formal acc).
    { etrans; [apply filter_submseteq_flags|].
      unfold pflag.VisitAll. by rewrite merge_sort_Permutation. }
    assert (Hwf' : flagsWf (rest ++ [f])).
    { apply flagsWf_snoc.
      - by eapply flagsWf_submseteq.
      - by eapply shorthandFree_submseteq.
      - intros g Hg. by apply list_elem_of_filter in Hg as [? _]. }
    eexists. split; [by apply AddFlag_ok|]. split; [done|].
    intros g. cbn [pflag.formal pflag.set_formal]. rewrite elem_of_app, list_elem_of_singleton.
    unfold rest. rewrite list_elem_of_filter, elem_of_VisitAll. intuition (subst; auto; congruence).
  - rewrite Lookup_unfold in Hold. rewrite lookupFlag_None in Hold.
    cbn [mbind Res_bind mret Res_ret].
    assert (Hwf' : flagsWf (pflag.formal acc ++ [f])) by (by apply flagsWf_snoc).
    eexists. split; [by apply AddFlag_ok|]. split; [by destruct acc|].
    intros g. destruct acc as [nm fm ar]. cbn [pflag.formal pflag.set_formal] in *.
    rewrite elem_of_app, list_elem_of_singleton. intuition (subst; auto; congruence).
Qed.

(** How a lookup answers after the merge of one flag. *)
Lemma mergeFlag_Lookup acc acc' f n :
  flagsWf (pflag.formal acc) → flagsWf (pflag.formal acc') →
  (∀ g, g ∈ pflag.formal acc' ↔
        g = f ∨ (g ∈ pflag.formal acc ∧ pflag.Name g ≠ pflag.Name f)) →
  pflag.Lookup acc' n = if decide (n = pflag.Name f) then Some f else pflag.Lookup acc n.
Proof.
  intros Hwf Hwf' Hel. rewrite !Lookup_unfold.
  pose proof (proj1 Hwf) as Hnd. pose proof (proj1 Hwf') as Hnd'.
  case_decide as Hn.
  - subst n. apply lookupFlag_Some; [done|]. split; [|done]. apply Hel. by left.
  - apply lookupFlag_ext; [done..|]. intros g Hg. rewrite Hel. intuition (subst; auto; congruence).
Qed.

(** The merge of the flags of a command into the accumulated set: a name
    that the command declares answers with the command's flag, every
    other name answers as before. *)
Lemma mergeFlags_loop_spec l : ∀ acc,
  flagsWf (pflag.formal acc) → flagsWf l →
  (∀ f, f ∈ l → shorthandFree f (pflag.formal acc)) →
  ∃ acc', mergeFlags_loop acc l = Ret acc'
    ∧ flagsWf (pflag.formal acc')
    ∧ (∀ n, pflag.Lookup acc' n =
            match lookupFlag l n with Some f => Some f | None => pflag.Lookup acc n end).
Proof.
  induction l as [|f l IH]; intros acc Hwf Hl Hfree.
  - exists acc. by split_and!.
  - cbn [mergeFlags_loop].
    destruct (mergeFlag_spec acc f) as (acc1 & -> & Hwf1 & Hel1);
      [done|apply Hfree; by left|].
    cbn [mbind Res_bind].
    pose proof Hl as Hl'. rewrite flagsWf_elem in Hl'. destruct Hl' as (Hnd & Hok & Huniq).
    destruct (IH acc1) as (acc' & -> & Hwf' & Hlook).
    + done.
    + apply (flagsWf_submseteq (f :: l)); [by apply submseteq_cons|done].
    + intros g Hg. destruct (Hfree g) as [Hlen Hg']; [by right|].
      split; [done|]. rewrite Forall_forall in *. intros h Hh.
      apply Hel1 in Hh as [->|[Hh _]]; [|by apply Hg'].
      apply Huniq; [by right|by left].
    + exists acc'. split_and!; [done..|]. intros n. rewrite Hlook.
      rewrite (mergeFlag_Lookup acc acc1 f n) by done.
      unfold lookupFlag at 2. cbn [find]. fold (lookupFlag l n).
      destruct (lookupFlag l n) as [g|] eqn:Hg.
      * case_bool_decide as Hn; [|done].
        apply lookupFlag_Some in Hg as [Hg Hgn].
        2:{ rewrite fmap_cons in Hnd. by apply NoDup_cons in Hnd as [_ ?]. }
        rewrite fmap_cons in Hnd. apply NoDup_cons in Hnd as [Hnot _].
        destruct Hnot. rewrite Hn, <- Hgn. by apply list_elem_of_fmap_2.
      * case_bool_decide as Hn; case_decide as Hn'; congruence.
Qed.

(** The merge that [run] makes before the parse.  The accumulated set
    and the flags of the command are well-formed, and no flag of the
    command takes the shorthand of an inherited flag of another name:
    then the merge does not panic, the set it leaves is well-formed, a
    name that the command declares finds the command's flag, and every
    other name finds what it found before. *)
Theorem mergeFlags_spec acc node :
  flagsWf (pflag.formal acc) → flagsWf (pflag.formal node) →
  (∀ f, f ∈ pflag.formal node → shorthandFree f (pflag.formal acc)) →
  ∃ acc', mergeFlags acc node = Ret acc'
    ∧ flagsWf (pflag.formal acc')
    ∧ (∀ n, pflag.Lookup acc' n =
            match pflag.Lookup node n with Some f => Some f | None => pflag.Lookup acc n end).
Proof.
  intros Hwf Hnode Hfree. unfold mergeFlags.
  assert (Hp : pflag.VisitAll node ≡ₚ pflag.formal node) by apply merge_sort_Permutation.
  destruct (mergeFlags_loop_spec (pflag.VisitAll node) acc) as (acc' & Heq & Hwf' & Hlook).
  - done.
  - eapply flagsWf_perm; [symmetry; exact Hp|done].
  - intros f Hf. apply Hfree. by rewrite <- Hp.
  - exists acc'. split_and!; [done..|]. intros n. rewrite Hlook, Lookup_unfold.
    replace (lookupFlag (pflag.VisitAll node) n) with (lookupFlag (pflag.formal node) n); [done|].
    apply lookupFlag_ext.
    + apply Hnode.
    + rewrite Hp. apply Hnode.
    + intros f _. by rewrite Hp.
Qed.

(** C2 (flag override).  When the accumulated flag set already holds a
    flag [old] under the name of the flag [f] that the command declares,
    the merge step of the dispatch loop is: rebuild the accumulated set
    without that name with [copyFlagSetWithout] (the rebuilt set no longer
    knows the name and answers every other name as before), then add [f]
    to the rebuilt set with [AddFlag].  Afterwards the name answers with
    [f] itself, so nothing of [old] remains, every other name answers as
    it did, and the set is well-formed again.  The accumulated set is
    well-formed, and the shorthand of [f] is not the shorthand of a flag
    of another name (on which [AddFlag] would panic). *)
Theorem mergeFlag_replaces_inherited acc f old :
  flagsWf (pflag.formal acc) →
  shorthandFree f (pflag.formal acc) →
  pflag.Lookup acc (pflag.Name f) = Some old →
  ∃ rebuilt acc',
    copyFlagSetWithout acc (pflag.Name f) = Ret rebuilt
    ∧ pflag.Lookup rebuilt (pflag.Name f) = None
    ∧ (∀ n, n ≠ pflag.Name f → pflag.Lookup rebuilt n = pflag.Lookup acc n)
    ∧ pflag.AddFlag rebuilt f = Ret acc'
    ∧ mergeFlag acc f = Ret acc'
    ∧ pflag.Lookup acc' (pflag.Name f) = Some f
    ∧ (∀ n, n ≠ pflag.Name f → pflag.Lookup acc' n = pflag.Lookup acc n)
    ∧ flagsWf (pflag.formal acc').
Proof.
  intros Hwf Hfree Hold.
  destruct (mergeFlag_spec acc f) as (acc' & Hmerge & Hwf' & Hel); [done..|].
  pose proof Hmerge as Hsteps. unfold mergeFlag in Hsteps. rewrite Hold in Hsteps.
  rewrite copyFlagSetWithout_ok in Hsteps by done. cbn [mbind Res_bind] in Hsteps.
  set (rebuilt := pflag.mkFlagSet ""
         (filter (λ g, pflag.Name g ≠ pflag.Name f) (pflag.VisitAll acc)) []) in *.
  assert (Hsub : pflag.formal rebuilt ⊆+ pflag.formal acc).
  { cbn [rebuilt pflag.formal]. etrans; [apply filter_submseteq_flags|].
    unfold pflag.VisitAll. by rewrite merge_sort_Permutation. }
  assert (Hwfr : flagsWf (pflag.formal rebuilt)) by (by eapply flagsWf_submseteq).
  exists rebuilt, acc'. split_and!.
  - by apply copyFlagSetWithout_ok.
  - rewrite Lookup_unfold. apply lookupFlag_None. intros g Hg.
    cbn [rebuilt pflag.formal] in Hg. by apply list_elem_of_filter in Hg as [? _].
  - intros n Hn. rewrite !Lookup_unfold. apply lookupFlag_ext; [apply Hwfr|apply Hwf|].
    intros g Hg. cbn [rebuilt pflag.formal].
    rewrite list_elem_of_filter, elem_of_VisitAll. intuition (subst; auto; congruence).
  - done.
  - done.
  - rewrite (mergeFlag_Lookup acc acc' f) by done. by rewrite decide_True.
  - intros n Hn. rewrite (mergeFlag_Lookup acc acc' f) by done. by rewrite decide_False.
  - done.
Qed.

End FlagFacts.

Section ParseFacts.
Context {V : Type} `{!ValueOps V}.
Implicit Types (fs : pflag.FlagSet) (st : list V).

Lemma parseKeeps_refl fs st : parseKeeps fs st fs st.
Proof. done. Qed.

Lemma parseKeeps_trans fs1 st1 fs2 st2 fs3 st3 :
  parseKeeps fs1 st1 fs2 st2 → parseKeeps fs2 st2 fs3 st3 → parseKeeps fs1 st1 fs3 st3.
Proof. intros (? & ? & ?) (? & ? & ?). split_and!; congruence. Qed.

Lemma Set_keeps fs n value st fs' st' err :
  pflag.Set_ fs n value st = Ret (fs', st', err) → parseKeeps fs st fs' st'.
Proof.
  unfold pflag.Set_. destruct (pflag.Lookup fs n) as [flag|]; [|by intros [= <- <- _]].
  destruct (pflag.Value flag) as [r|].
  - destruct (Value_Set (Some r) value st) as [[st1 e]|] eqn:Hset; [|done].
    apply Value_Set_length in Hset. cbn [mbind Res_bind].
    destruct e; intros [= <- <- _]; split_and!; try done.
    cbn [pflag.formal pflag.set_formal]. rewrite <- list_fmap_compose.
    apply list_fmap_ext. intros i f _. cbn. by case_decide.
  - cbn [mbind Res_bind]. intros [= <- <- _]. split_and!; try done.
    cbn [pflag.formal pflag.set_formal]. rewrite <- list_fmap_compose.
    apply list_fmap_ext. intros i f _. cbn. by case_decide.
Qed.

Lemma parseLongArg_keeps fs s next st fs' st' consumed err :
  pflag.parseLongArg fs s next st = Ret (fs', st', consumed, err) →
  parseKeeps fs st fs' st'.
Proof.
  unfold pflag.parseLongArg.
  repeat first
    [ progress cbn [mbind Res_bind]
    | match goal with
      | |- context [pflag.Set_ ?a ?b ?c ?d] =>
          let H := fresh "Hset" in
          destruct (pflag.Set_ a b c d) as [[[? ?] ?]|] eqn:H;
          [apply Set_keeps in H|]
      | |- context [match ?x with _ => _ end] => destruct x
      end ];
    intros; simplify_eq; done.
Qed.

Lemma parseShortArg_keeps shorthands : ∀ fs next st fs' st' consumed err,
  pflag.parseShortArg fs shorthands next st = Ret (fs', st', consumed, err) →
  parseKeeps fs st fs' st'.
Proof.
  induction shorthands as [|c outShorts IH]; intros fs next st fs' st' consumed err.
  - by intros [= <- <- _ _].
  - cbn [pflag.parseShortArg].
    repeat first
      [ progress cbn [mbind Res_bind]
      | match goal with
        | |- context [pflag.Set_ ?a ?b ?c ?d] =>
            let H := fresh "Hset" in
            destruct (pflag.Set_ a b c d) as [[[? ?] ?]|] eqn:H;
            [apply Set_keeps in H|]
        | |- context [match ?x with _ => _ end] => destruct x
        end ];
      intros; simplify_eq; try done;
      match goal with
      | H : pflag.parseShortArg _ _ _ _ = _ |- _ =>
          apply IH in H; eapply parseKeeps_trans; [|exact H]; assumption
      end.
Qed.

(** A parse collects at most one positional argument for each argument
    it reads. *)
Lemma parseArgs_keeps n : ∀ args fs st fs' st' err,
  (length args ≤ n)%nat →
  pflag.parseArgs fs args st = Ret (fs', st', err) →
  (length (pflag.args fs') ≤ length (pflag.args fs) + length args)%nat
  ∧ pflag.Name <$> pflag.formal fs' = pflag.Name <$> pflag.formal fs
  ∧ length st' = length st.
Proof.
  induction n as [|n IH]; intros args fs st fs' st' err Hlen.
  { destruct args; [|simpl in Hlen; lia]. intros [= <- <- _]. split_and!; [lia|done..]. }
  destruct args as [|s rest]; [intros [= <- <- _]; split_and!; [lia|done..]|].
  cbn [length] in Hlen.
  assert (Hpos : pflag.parseArgs (pflag.set_args (pflag.args fs ++ [s]) fs) rest st
                 = Ret (fs', st', err) →
                 (length (pflag.args fs') ≤ length (pflag.args fs) + length (s :: rest))%nat
                 ∧ pflag.Name <$> pflag.formal fs' = pflag.Name <$> pflag.formal fs
                 ∧ length st' = length st).
  { intros Hrec. apply IH in Hrec as (Ha & Hn & Hs); [|lia].
    cbn [pflag.args pflag.set_args pflag.formal length] in *. rewrite length_app in Ha.
    cbn [length] in Ha. split_and!; [lia|done..]. }
  cbn [pflag.parseArgs].
  destruct s as [|a [|c s']]; [exact Hpos|exact Hpos|].
  case_decide as Hne; [exact Hpos|].
  case_decide as Hdd.
  { intros [= <- <- _]. cbn [pflag.args pflag.set_args pflag.formal length].
    rewrite length_app. split_and!; [lia|done..]. }
  set (step := if decide (c = "-"%char) then _ else _).
  destruct step as [[[[fs1 st1] consumed] e]|] eqn:Hstep; [|done].
  assert (Hk : parseKeeps fs st fs1 st1).
  { unfold step in Hstep. case_decide.
    - by eapply parseLongArg_keeps.
    - by eapply parseShortArg_keeps. }
  destruct Hk as (Hka & Hkn & Hks).
  cbn [mbind Res_bind]. destruct e as [e|].
  { intros [= <- <- _]. rewrite Hka. split_and!; [lia|done..]. }
  assert (Hgo : ∀ rest', (length rest' ≤ length rest)%nat →
            pflag.parseArgs fs1 rest' st1 = Ret (fs', st', err) →
            (length (pflag.args fs') ≤ length (pflag.args fs) + length (s' :: rest))%nat
            ∧ pflag.Name <$> pflag.formal fs' = pflag.Name <$> pflag.formal fs
            ∧ length st' = length st).
  { intros rest' Hrest Hrec. apply IH in Hrec as (Ha & Hn & Hs); [|lia].
    rewrite Hka in Ha. cbn [length]. split_and!; [lia|congruence..]. }
  destruct consumed, rest as [|next rest']; intros Hrec.
  - by apply (Hgo []).
  - apply (Hgo rest'); [cbn; lia|done].
  - by apply (Hgo []).
  - by apply (Hgo (next :: rest')).
Qed.

Lemma Parse_keeps fs arguments st fs' st' err :
  pflag.Parse fs arguments st = Ret (fs', st', err) →
  (length (pflag.args fs') ≤ length arguments)%nat
  ∧ pflag.Name <$> pflag.formal fs' = pflag.Name <$> pflag.formal fs
  ∧ length st' = length st.
Proof.
  unfold pflag.Parse. intros Hp.
  apply (parseArgs_keeps (length arguments)) in Hp as (Ha & Hn & Hs); [|done].
  cbn in Ha. by split_and!.
Qed.

End ParseFacts.

Section RunFacts.
Context {V : Type} `{!ValueOps V}.
Implicit Types (ext : Externals (V := V)) (inv : Invocation.t) (state : runState)
  (st : list V) (log before : list Event).

(** One call of [run] at a command that finds no child for the next
    argument: the resolution, then the last part. *)
Lemma run_fuel_terminal fuel ext inv state st log inv' state' st' log' children parsedArgs :
  resolve ext inv state st log = Go (inv', state', st', log', children, parsedArgs) →
  parsedArgs !! commandDepth state' ≫= (λ nextArg, children !! nextArg) = None →
  run_fuel (S fuel) ext inv state st log
  = Some (finish (terminal ext inv' state' st' log' parsedArgs)).
Proof. intros Hres Hchild. cbn [run_fuel]. by rewrite Hres, Hchild. Qed.

(** The resolution writes nothing but the deprecation warning. *)
Lemma resolve_log ext inv state st log inv' state' st' log' children parsedArgs :
  resolve ext inv state st log = Go (inv', state', st', log', children, parsedArgs) →
  log' = log ∨ ∃ args, log' = log ++ [Fprintf Stderr "%s %q is deprecated!. %s\n" args].
Proof.
  unfold resolve, settle.
  set (log1 := if decide (Command.Deprecated (Invocation.Command inv) ≠ "") then _ else log).
  assert (Hlog1 : log1 = log
                  ∨ ∃ args, log1 = log ++ [Fprintf Stderr "%s %q is deprecated!. %s\n" args]).
  { unfold log1. case_decide; [right; by eexists|by left]. }
  clearbody log1. intros Hres.
  enough (log' = log1) by (by subst).
  revert Hres.
  repeat first
    [ progress cbn [mbind Early_bind lift orReturn mret Early_ret]
    | match goal with
      | |- context [lift ?x] => destruct x
      | |- context [orReturn ?x] => destruct x
      | |- context [match ?x with _ => _ end] => destruct x
      end ];
    intros; simplify_eq; done.
Qed.

Lemma versionRequested_set_Args args inv :
  versionRequested (InvocationOps.set_Args args inv) = versionRequested inv.
Proof. done. Qed.

(** The last part with required options that have no source, outside
    the completion mode, when [--help] was not given: the error that
    names them, before anything is called. *)
Lemma terminal_missing ext inv state st log parsedArgs :
  IsCompletionMode ext (Invocation.Environ inv) = false →
  isHelp (flagParseErr state) = false →
  Command.RawArgs (Invocation.Command inv) = true ∨ flagParseErr state = None →
  missingRequired (Command.Options (Invocation.Command inv)) ≠ [] →
  terminal ext inv state st log parsedArgs
  = Stop (mkRunResult
            (Some (Errorf "missing values for the required flags: %s"
                     [FmtString (String.concat ", "
                        (missingRequired (Command.Options (Invocation.Command inv))))]))
            inv st log).
Proof.
  intros Hcomp Hhelp Hfatal Hmiss. unfold terminal. rewrite Hcomp, Hhelp.
  assert ((if negb (Command.RawArgs (Invocation.Command inv)) && negb false
           then orReturn (flagParseErr state)
                  (ErrorfW "parsing flags (%v) for %q: %w"
                     [FmtStrings (allArgs state);
                      FmtString (Command.FullName (Invocation.parents inv)
                                   (Invocation.Command inv))]) inv st log
           else Go ()) = Go ()) as ->.
  { destruct Hfatal as [->| ->]; [done|]. by destruct (Command.RawArgs _). }
  cbn [mbind Early_bind].
  rewrite bool_decide_eq_false_2 by done. done.
Qed.

(** The last part when [--help] was given, outside the completion mode:
    neither the flag error nor the required options stop it, and unless
    the version was asked for it ends in the help path. *)
Lemma terminal_help ext inv state st log parsedArgs args :
  IsCompletionMode ext (Invocation.Environ inv) = false →
  isHelp (flagParseErr state) = true →
  handlerArgs inv state parsedArgs = Ret args →
  versionRequested inv = false →
  terminal ext inv state st log parsedArgs
  = helpPath ext (InvocationOps.set_Args args inv) st log
      (mkView args (length (Command.Children (Invocation.Command inv)))).
Proof.
  intros Hcomp Hhelp Hargs Hver. unfold terminal. rewrite Hcomp, Hhelp, Hargs.
  rewrite !andb_false_r. cbn [mbind Early_bind lift].
  rewrite versionRequested_set_Args, Hver.
  by destruct (Command.Handler _).
Qed.

(** The help path, when it returns, has called the help handler. *)
Lemma helpPath_log ext inv st before view r :
  finish (helpPath ext inv st before view) = Ret r →
  CallHelpHandler (Command.FullName (Invocation.parents inv) (Invocation.Command inv))
    (Invocation.Args inv) ∈ log r.
Proof.
  unfold helpPath. destruct (Command.HelpHandler _) as [help|].
  - destruct (help view) as [err|v]; cbn; intros; simplify_eq. cbn.
    apply elem_of_app. right. by left.
  - unfold DefaultHelpFn. destruct (renderHelp ext inv).
    + cbn. intros; simplify_eq. cbn. apply elem_of_app. right. by left.
    + destruct (Invocation.Args inv) as [|arg0 rest]; [|case_match];
        cbn; intros; simplify_eq; cbn; rewrite ?elem_of_app; auto using list_elem_of_here.
Qed.

(** C3 (required options).  Taken at the command where the dispatch
    ends, whose resolution has left at least one required option without
    a source, outside the completion mode and with no flag error that
    ends the run first: the run fails with the one error that names every
    such option, in the order of the options, and returns before anything
    is called, so the log is that of the resolution; when [--help] was
    given, the error is not raised and the run ends in the help path. *)
Theorem missing_required_reported fuel ext inv state st before
    inv' state' st' log' children parsedArgs :
  resolve ext inv state st before = Go (inv', state', st', log', children, parsedArgs) →
  parsedArgs !! commandDepth state' ≫= (λ nextArg, children !! nextArg) = None →
  IsCompletionMode ext (Invocation.Environ inv') = false →
  missingRequired (Command.Options (Invocation.Command inv')) ≠ [] →
  Command.RawArgs (Invocation.Command inv') = true ∨ flagParseErr state' = None
    ∨ isHelp (flagParseErr state') = true →
  if isHelp (flagParseErr state') then
    ∀ args,
      handlerArgs inv' state' parsedArgs = Ret args →
      versionRequested inv' = false →
      run_fuel (S fuel) ext inv state st before
      = Some (finish (helpPath ext (InvocationOps.set_Args args inv') st' log'
                        (mkView args (length (Command.Children (Invocation.Command inv'))))))
      ∧ ∀ r, run_fuel (S fuel) ext inv state st before = Some (Ret r) →
             CallHelpHandler
               (Command.FullName (Invocation.parents inv') (Invocation.Command inv')) args
             ∈ log r
  else
    run_fuel (S fuel) ext inv state st before
    = Some (Ret (mkRunResult
                   (Some (Errorf "missing values for the required flags: %s"
                            [FmtString
                               (String.concat ", "
                                  (missingRequired
                                     (Command.Options (Invocation.Command inv'))))]))
                   inv' st' log'))
    ∧ (log' = before
       ∨ ∃ a, log' = before ++ [Fprintf Stderr "%s %q is deprecated!. %s\n" a]).
Proof.
  intros Hres Hchild Hcomp Hmiss Hfatal.
  rewrite (run_fuel_terminal fuel ext inv state st before _ _ _ _ _ _ Hres Hchild).
  destruct (isHelp (flagParseErr state')) eqn:Hhelp.
  - intros args Hargs Hver. rewrite (terminal_help _ _ _ _ _ _ args) by done.
    split; [done|]. intros r Hr. simplify_eq.
    by apply helpPath_log in Hr.
  - rewrite terminal_missing; [|done|done| |done].
    + split; [done|]. by eapply resolve_log.
    + destruct Hfatal as [?|[?|?]]; [by left|by right|done].
Qed.




(** The resolution keeps the arguments and the depth of the state, and
    the positional arguments it yields are at most as many as the
    arguments. *)
Lemma resolve_state ext inv state st before inv' state' st' log' children parsedArgs :
  resolve ext inv state st before = Go (inv', state', st', log', children, parsedArgs) →
  allArgs state' = allArgs state
  ∧ commandDepth state' = commandDepth state
  ∧ (length parsedArgs ≤ length (allArgs state))%nat.
Proof.
  unfold resolve, settle.
  repeat first
    [ progress cbn [mbind Early_bind lift orReturn mret Early_ret]
    | match goal with
      | |- context [lift (pflag.Parse ?a ?b ?c)] =>
          let H := fresh "Hparse" in
          destruct (pflag.Parse a b c) as [[[? ?] ?]|] eqn:H;
          [apply Parse_keeps in H as (H & _ & _)|]
      | |- context [lift ?x] => destruct x
      | |- context [orReturn ?x] => destruct x
      | |- context [match ?x with _ => _ end] => destruct x
      end ];
    intros; simplify_eq; cbn; split_and!; try done; lia.
Qed.

(** More fuel does not change the outcome of a run. *)
Lemma run_fuel_mono fuel : ∀ k ext inv state st before r,
  run_fuel fuel ext inv state st before = Some r →
  run_fuel (fuel + k) ext inv state st before = Some r.
Proof.
  induction fuel as [|fuel IH]; intros k ext inv state st before r; [done|].
  cbn [run_fuel Nat.add].
  destruct (resolve ext inv state st before) as [[[[[[inv' state'] st'] log'] ch] pa]| |];
    [|done..].
  destruct (pa !! commandDepth state' ≫= _) as [child|]; [|done]. apply IH.
Qed.

(** The fuel that [run] takes is enough: every descent consumes a
    positional argument, and there are at most as many as arguments. *)
Lemma run_fuel_enough fuel : ∀ ext inv state st before,
  (length (allArgs state) ≤ fuel + commandDepth state)%nat →
  ∃ r, run_fuel (S fuel) ext inv state st before = Some r.
Proof.
  induction fuel as [|fuel IH]; intros ext inv state st before Hfuel.
  - cbn [run_fuel].
    destruct (resolve ext inv state st before)
      as [[[[[[inv' state'] st'] log'] ch] pa]| |] eqn:Hres; [|by eauto..].
    apply resolve_state in Hres as (Hall & Hdepth & Hlen).
    destruct (pa !! commandDepth state') as [nextArg|] eqn:Hnext; [|cbn; by eauto].
    apply lookup_lt_Some in Hnext. lia.
  - change (run_fuel (S (S fuel)) ext inv state st before)
      with (match resolve ext inv state st before with
            | Crash v => Some (Panic v)
            | Stop r => Some (Ret r)
            | Go (inv, state, st, log, children, parsedArgs) =>
                match parsedArgs !! commandDepth state
                      ≫= (λ nextArg, children !! nextArg) with
                | Some child =>
                    run_fuel (S fuel) ext (InvocationOps.descend child inv)
                      (set_commandDepth (S (commandDepth state)) state) st log
                | None => Some (finish (terminal ext inv state st log parsedArgs))
                end
            end).
    destruct (resolve ext inv state st before)
      as [[[[[[inv' state'] st'] log'] ch] pa]| |] eqn:Hres; [|by eauto..].
    apply resolve_state in Hres as (Hall & Hdepth & Hlen).
    destruct (pa !! commandDepth state') as [nextArg|] eqn:Hnext; [|cbn; by eauto].
    apply lookup_lt_Some in Hnext. cbn [mbind option_bind].
    destruct (ch !! nextArg) as [child|]; [|by eauto].
    apply IH. cbn. rewrite Hall, Hdepth. lia.
Qed.

(** Every run returns or panics: [run] never runs out of fuel, and
    with more fuel the outcome is the same. *)
Theorem run_total ext inv st :
  ∃ r, run ext inv st = Some r
       ∧ ∀ k, run_fuel (S (length (Invocation.Args inv)) + k) ext inv
                (mkRunState (Invocation.Args inv) 0 None) st [] = Some r.
Proof.
  unfold run.
  destruct (run_fuel_enough (length (Invocation.Args inv)) ext inv
              (mkRunState (Invocation.Args inv) 0 None) st []) as [r Hr].
  - cbn [allArgs commandDepth]. lia.
  - exists r. split; [done|]. intros k. by apply run_fuel_mono.
Qed.





End RunFacts.

(** ** The environment stage on concrete inputs *)

(** Both malformed texts are reported and the option after them is still
    applied. *)
Example ParseEnv_two_failures :
  ParseEnv Ex.envSet Ex.envVars Ex.envStore =
  Ret (Option.set_ValueSource ValueSourceEnv <$> Ex.envSet,
       [Bool_ false; Bool_ false; String_ "billie"],
       Some (multierror
               [parseError (Ex.opt "verbose" "verbose" "VERBOSE" "" (Some 0%nat))
                  (ValueError "strconv.ParseBool: invalid syntax");
                parseError (Ex.opt "force" "force" "FORCE" "" (Some 1%nat))
                  (ValueError "strconv.ParseBool: invalid syntax")])).
Proof. vm_compute. reflexivity. Qed.

Lemma ParseEnv_collects_all_failures_witness :
  ∃ optSet' st',
    ParseEnv Ex.envSet Ex.envVars Ex.envStore =
      Ret (optSet', st',
           ErrorOrNil (omap (envFailureAt Ex.envSet Ex.envVars Ex.envStore)
                         (seq 0 (length Ex.envSet))))
    ∧ ∀ i opt, Ex.envSet !! i = Some opt →
        is_Some (envApplies (envMap Ex.envVars) opt) →
        Option.ValueSource <$> optSet' !! i = Some ValueSourceEnv.
Proof.
  apply (ParseEnv_collects_all_failures Ex.envSet Ex.envVars Ex.envStore).
  vm_compute. reflexivity.
Defined.

Lemma ParseEnv_keeps_env_source_on_failure_witness :
  ∃ optSet' st' errs,
    ParseEnv Ex.envSet Ex.envVars Ex.envStore = Ret (optSet', st', Some (multierror errs))
    ∧ parseError (Ex.opt "force" "force" "FORCE" "" (Some 1%nat))
        (ValueError "strconv.ParseBool: invalid syntax") ∈ errs
    ∧ Option.ValueSource <$> optSet' !! 1%nat = Some ValueSourceEnv.
Proof.
  apply (ParseEnv_keeps_env_source_on_failure Ex.envSet Ex.envVars Ex.envStore 1
           (Ex.opt "force" "force" "FORCE" "" (Some 1%nat)) "perhaps");
    vm_compute; reflexivity.
Defined.

(** ** The defaults stage on concrete inputs *)

(** Defaults ["a"] and ["b"] on one value: a conflict error. *)
Example SetDefaults_conflict_a_b :
  SetDefaults Ex.conflictSet Ex.aliasStore =
  Ret (Option.set_ValueSource ValueSourceDefault <$> Ex.conflictSet,
       [String_ "a"],
       Some (multierror
               [Errorf "parse %q: multiple defaults set for the same value: %q and %q (%q)"
                  [FmtString "old"; FmtString "b"; FmtString "a"; FmtString "new"]])).
Proof. vm_compute. reflexivity. Qed.

(** Defaults ["a"] and ["a"] on one value: no error. *)
Example SetDefaults_agree_a_a :
  SetDefaults Ex.agreeSet Ex.aliasStore =
  Ret (Option.set_ValueSource ValueSourceDefault <$> Ex.agreeSet, [String_ "a"], None).
Proof. vm_compute. reflexivity. Qed.

Lemma SetDefaults_default_conflict_witness :
  ∃ optSet' st' errs,
    SetDefaults Ex.conflictSet Ex.aliasStore = Ret (optSet', st', ErrorOrNil errs)
    ∧ (∀ r, bestSource (groupSources Ex.conflictSet r) = ValueSourceNone →
            (∃ d1 d2, d1 ∈ groupDefaults Ex.conflictSet r
                      ∧ d2 ∈ groupDefaults Ex.conflictSet r ∧ d1 ≠ d2) →
            ∃ e, e ∈ errs ∧ isConflict e)
    ∧ ((∀ r, bestSource (groupSources Ex.conflictSet r) = ValueSourceNone →
             ∀ d1 d2, d1 ∈ groupDefaults Ex.conflictSet r →
                      d2 ∈ groupDefaults Ex.conflictSet r → d1 = d2) →
       Forall (λ e, ¬ isConflict e) errs
       ∧ ((∀ o, o ∈ Ex.conflictSet → Option.Value o ≠ None) →
          (∀ r d v, d ∈ groupDefaults Ex.conflictSet r → Ex.aliasStore !! r = Some v →
                    (value_Set d v).2 = None) →
          errs = [])).
Proof.
  apply (SetDefaults_default_conflict Ex.conflictSet Ex.aliasStore).
  vm_compute. reflexivity.
Defined.

Lemma ParseEnv_fallback_and_empty_witness :
  (∃ optSet' st' err,
     ParseEnv Ex.fooSet [EnvVar.mk "HOMEBREW_FOO" "bar"] Ex.aliasStore
       = Ret (optSet', st', err)
     ∧ Option.ValueSource <$> optSet' !! 0%nat = Some ValueSourceEnv
     ∧ st' !! 0%nat = Some (value_Set "bar" (String_ "")).1)
  ∧ (∃ optSet1 st1 err1 optSet2 st2 err2,
       ParseEnv Ex.fooSet [EnvVar.mk "FOO" ""] Ex.aliasStore = Ret (optSet1, st1, err1)
       ∧ optSet1 !! 0%nat = Some (Ex.opt "foo" "foo" "FOO" "" (Some 0%nat))
       ∧ SetDefaults optSet1 st1 = Ret (optSet2, st2, err2)
       ∧ Option.ValueSource <$> optSet2 !! 0%nat = Some ValueSourceNone).
Proof.
  split.
  - apply (proj1 ParseEnv_fallback_and_empty Ex.fooSet [EnvVar.mk "HOMEBREW_FOO" "bar"]
             Ex.aliasStore 0%nat (Ex.opt "foo" "foo" "FOO" "" (Some 0%nat)) 0%nat
             (String_ "") "bar");
      try (vm_compute; reflexivity); try done.
    intros [|j] o Hj; [done|]. intros Ho. inversion Ho.
  - apply (proj2 ParseEnv_fallback_and_empty Ex.fooSet [EnvVar.mk "FOO" ""]
             Ex.aliasStore 0%nat (Ex.opt "foo" "foo" "FOO" "" (Some 0%nat)));
      try (vm_compute; reflexivity); try done.
    intros [|j] o Ho; [|inversion Ho]. injection Ho as <-. intros _. by split_and!.
Defined.

(** The fallback on the concrete input: the value becomes ["bar"]. *)
Example ParseEnv_homebrew_bar :
  ParseEnv Ex.fooSet [EnvVar.mk "HOMEBREW_FOO" "bar"] Ex.aliasStore =
  Ret (Option.set_ValueSource ValueSourceEnv <$> Ex.fooSet, [String_ "bar"], None).
Proof. vm_compute. reflexivity. Qed.

Lemma aliases_report_same_source_witness :
  ∃ optSet1 st1 err1 optSet2 st2 err2,
    ParseEnv Ex.plainSet [EnvVar.mk "OLD" "x"] Ex.aliasStore = Ret (optSet1, st1, err1)
    ∧ SetDefaults optSet1 st1 = Ret (optSet2, st2, err2)
    ∧ (∀ i o r, optSet2 !! i = Some o → Option.Value o = Some r →
         Option.ValueSource o = resolvedSource optSet1 r)
    ∧ (∀ i j oi oj r,
         optSet2 !! i = Some oi → optSet2 !! j = Some oj →
         Option.Value oi = Some r → Option.Value oj = Some r →
         Option.ValueSource oi = Option.ValueSource oj).
Proof.
  apply (aliases_report_same_source Ex.plainSet [EnvVar.mk "OLD" "x"] Ex.aliasStore);
    vm_compute; reflexivity.
Defined.

(** The deprecated alias is set from the environment; both aliases end
    at [env]. *)
Example aliases_both_env :
  (x ← ParseEnv Ex.plainSet [EnvVar.mk "OLD" "x"] Ex.aliasStore;
   SetDefaults x.1.1 x.1.2) =
  Ret (Option.set_ValueSource ValueSourceEnv <$> Ex.plainSet, [String_ "x"], None).
Proof. vm_compute. reflexivity. Qed.

Lemma mergeFlag_replaces_inherited_witness :
  ∃ rebuilt acc',
    copyFlagSetWithout Ex.inherited "verbose" = Ret rebuilt
    ∧ pflag.Lookup rebuilt "verbose" = None
    ∧ (∀ n, n ≠ "verbose" → pflag.Lookup rebuilt n = pflag.Lookup Ex.inherited n)
    ∧ pflag.AddFlag rebuilt Ex.childVerbose = Ret acc'
    ∧ mergeFlag Ex.inherited Ex.childVerbose = Ret acc'
    ∧ pflag.Lookup acc' "verbose" = Some Ex.childVerbose
    ∧ (∀ n, n ≠ "verbose" → pflag.Lookup acc' n = pflag.Lookup Ex.inherited n)
    ∧ flagsWf (pflag.formal acc').
Proof.
  apply (mergeFlag_replaces_inherited Ex.inherited Ex.childVerbose Ex.inheritedVerbose).
  - apply (bool_decide_unpack _). vm_compute. exact I.
  - apply (bool_decide_unpack _). vm_compute. exact I.
  - vm_compute. reflexivity.
Defined.

(** The merge on the example: the child's flag is the one the name finds,
    and the other flag of the root is still there. *)
Example mergeFlag_verbose :
  mergeFlag Ex.inherited Ex.childVerbose
  = Ret (pflag.mkFlagSet "" [Ex.inheritedOut; Ex.childVerbose] []).
Proof. vm_compute. reflexivity. Qed.

Lemma missing_required_reported_witness :
  (∃ inv' st',
     run Ex.plain (Invoke Ex.req []) Ex.twoSlots
     = Some (Ret (mkRunResult
                    (Some (Errorf "missing values for the required flags: %s"
                             [FmtString "name, age"])) inv' st' [])))
  ∧ (∃ inv' st',
       run Ex.plain (Invoke Ex.req ["--help"]) Ex.twoSlots
       = Some (finish (helpPath Ex.plain inv' st' [] (mkView [] 0)))).
Proof.
  split.
  - eassert (Hres : resolve Ex.plain (Invoke Ex.req []) (mkRunState [] 0 None) Ex.twoSlots []
                    = Go (_, _, _, _, _, _)) by (vm_compute; reflexivity).
    eexists _, _.
    refine (proj1 (missing_required_reported 0 _ _ _ _ _ _ _ _ _ _ _ Hres _ _ _ _)).
    + vm_compute. reflexivity.
    + reflexivity.
    + vm_compute. discriminate.
    + right. left. reflexivity.
  - eassert (Hres : resolve Ex.plain (Invoke Ex.req ["--help"])
                      (mkRunState ["--help"] 0 None) Ex.twoSlots []
                    = Go (_, _, _, _, _, _)) by (vm_compute; reflexivity).
    eexists _, _.
    refine (proj1 (missing_required_reported 1 _ _ _ _ _ _ _ _ _ _ _ Hres _ _ _ _ [] _ _)).
    + vm_compute. reflexivity.
    + reflexivity.
    + vm_compute. discriminate.
    + right. right. reflexivity.
    + vm_compute. reflexivity.
    + vm_compute. reflexivity.
Defined.

(** Required options without a source and no such error: an unknown
    flag ends the run with the error of the parse; in the completion
    mode the run returns no error at all; and with [--version] before
    [--help] the run prints the version and returns, without a call of
    the help handler. *)
Lemma missing_required_not_reported :
  (∃ r, run Ex.plain (Invoke Ex.req ["--bogus"]) Ex.twoSlots = Some (Ret r)
        ∧ missingRequired (Command.Options (Invocation.Command (final r))) = ["name"; "age"]
        ∧ result r
          = Some (ErrorfW "parsing flags (%v) for %q: %w"
                    [FmtStrings ["--bogus"]; FmtString "req"]
                    (Errorf "unknown flag: --%s" [FmtString "bogus"])))
  ∧ (∃ r, run Ex.completing (Invoke Ex.req []) Ex.twoSlots = Some (Ret r)
          ∧ missingRequired (Command.Options (Invocation.Command (final r)))
            = ["name"; "age"]
          ∧ result r = None)
  ∧ (∃ r, run Ex.plain (Invoke Ex.versioned ["--version"; "--help"]) Ex.nameAndSwitch
          = Some (Ret r)
          ∧ missingRequired (Command.Options (Invocation.Command (final r))) = ["name"]
          ∧ result r = None
          ∧ log r = [Fprintf Stdout "%s\n" [FmtString "tool 1.0"]]).
Proof. split_and!; eexists; split_and!; vm_compute; reflexivity. Qed.



(** C1 (precedence), on an input where it fails.  The root declares
    the flag [foo] with the default [d], the child the flag [bar], and
    the arguments give the child's flag before the root's.  The parse of
    the root stops at the child's flag, so the root takes its default;
    the parse of the child then sets the root's value from the flag and
    marks the flag as changed; the sources are marked for the options of
    the child only, and the root's option still reports the default. *)
Lemma inherited_flag_after_child_flag :
  ∃ r, run Ex.plain (Invoke Ex.fooRoot ["sub"; "--bar"; "v"; "--foo"; "x"]) Ex.twoSlots
       = Some (Ret r)
       ∧ result r = None
       ∧ store r = [String_ "x"; String_ "v"]
       ∧ pflag.Changed <$> (Invocation.parsedFlags (final r) ≫= λ fs, pflag.Lookup fs "foo")
         = Some true
       ∧ Command.Options <$> Invocation.parents (final r)
         = [[Option.set_ValueSource ValueSourceDefault (Ex.flagOpt "foo" "d" false 0)]].
Proof. eexists. split_and!; vm_compute; reflexivity. Qed.

(** The same flags in the other order: the parse of the root reaches
    its flag, and the option reports the flag. *)
Example inherited_flag_before_child_flag :
  ∃ r, run Ex.plain (Invoke Ex.fooRoot ["sub"; "--foo"; "x"; "--bar"; "v"]) Ex.twoSlots
       = Some (Ret r)
       ∧ result r = None
       ∧ store r = [String_ "x"; String_ "v"]
       ∧ Command.Options <$> Invocation.parents (final r)
         = [[Option.set_ValueSource ValueSourceFlag (Ex.flagOpt "foo" "d" false 0)]].
Proof. eexists. split_and!; vm_compute; reflexivity. Qed.


(** At the root alone the flag wins over the default. *)
Example resolve_flag_over_default :
  ∃ r, run Ex.plain (Invoke (Ex.cmd "root" [] [Ex.flagOpt "foo" "d" false 0] None
                               (Some Ex.okHandler)) ["--foo"; "x"]) Ex.twoSlots
       = Some (Ret r)
       ∧ store r = [String_ "x"; String_ ""]
       ∧ Option.ValueSource <$> Command.Options (Invocation.Command (final r))
         = [ValueSourceFlag].
Proof. eexists. split_and!; vm_compute; reflexivity. Qed.

Lemma mergeFlags_spec_witness :
  ∃ acc',
    mergeFlags Ex.inherited (pflag.mkFlagSet "" [Ex.childVerbose] []) = Ret acc'
    ∧ flagsWf (pflag.formal acc')
    ∧ ∀ n, pflag.Lookup acc' n
           = match pflag.Lookup (pflag.mkFlagSet "" [Ex.childVerbose] []) n with
             | Some f => Some f
             | None => pflag.Lookup Ex.inherited n
             end.
Proof.
  apply (mergeFlags_spec Ex.inherited (pflag.mkFlagSet "" [Ex.childVerbose] [])).
  - apply (bool_decide_unpack _). vm_compute. exact I.
  - apply (bool_decide_unpack _). vm_compute. exact I.
  - intros f Hf. apply list_elem_of_singleton in Hf as ->.
    apply (bool_decide_unpack _). vm_compute. exact I.
Defined.

Lemma SetDefaults_idempotent_witness :
  SetDefaults (Option.set_ValueSource ValueSourceDefault <$> Ex.agreeSet) [String_ "a"]
  = Ret (Option.set_ValueSource ValueSourceDefault <$> Ex.agreeSet, [String_ "a"],
         ErrorOrNil (noValueErrors (Option.set_ValueSource ValueSourceDefault <$> Ex.agreeSet)))
  ∧ ∃ optSet',
      SetDefaults (Option.set_ValueSource ValueSourceDefault <$> Ex.agreeSet) [String_ "a"]
      = Ret (optSet', [String_ "a"],
             ErrorOrNil (noValueErrors (Option.set_ValueSource ValueSourceDefault <$> Ex.agreeSet)))
      ∧ ∀ i o, (Option.set_ValueSource ValueSourceDefault <$> Ex.agreeSet) !! i = Some o →
          ∃ o', optSet' !! i = Some o'
                ∧ Option.Value o' = Option.Value o
                ∧ (slices_Index valueSourcePriority (Option.ValueSource o')
                   ≤ slices_Index valueSourcePriority (Option.ValueSource o))%Z.
Proof.
  split.
  - apply (proj1 SetDefaults_idempotent Ex.agreeSet Ex.aliasStore _ _ None);
      vm_compute; reflexivity.
  - apply (proj2 SetDefaults_idempotent
             (Option.set_ValueSource ValueSourceDefault <$> Ex.agreeSet) [String_ "a"]);
      [vm_compute; reflexivity|].
    intros r Hm. destruct r as [|r]; [vm_compute; congruence|].
    exfalso. apply Hm. vm_compute. reflexivity.
Defined.

(** * Further properties of the option and command files *)

Section MiddlewareFacts.

Lemma chain_app (l1 l2 : list MiddlewareFunc) next :
  chain (l1 ++ l2) next = chain l2 (chain l1 next).
Proof. revert next. induction l1 as [|m l1 IH]; intros next; [done|]. cbn. apply IH. Qed.

(** [Chain] runs the middlewares top to bottom: the first one is the
    outermost, it receives the handler that the others have wrapped.
    Chaining two lists one after the other is composing their chains,
    and the empty chain hands the handler through. *)
Theorem Chain_order (ms1 ms2 : list MiddlewareFunc) (m : MiddlewareFunc) (next : HandlerFunc) :
  Chain (m :: ms2) next = m (Chain ms2 next)
  ∧ Chain (ms1 ++ ms2) next = Chain ms1 (Chain ms2 next)
  ∧ Chain [] next = next
  ∧ Chain ms1 next = foldr (λ mw h, mw h) next ms1.
Proof.
  assert (Happ : ∀ l1 l2 h, Chain (l1 ++ l2) h = Chain l1 (Chain l2 h)).
  { intros l1 l2 h. unfold Chain. by rewrite rev_app_distr, chain_app. }
  split_and!.
  - apply (Happ [m] ms2).
  - apply Happ.
  - done.
  - induction ms1 as [|m1 ms1 IH]; [done|].
    rewrite (Happ [m1] ms1). cbn [foldr]. by rewrite IH.
Qed.

(** A range of argument counts that is well formed, closed or open
    above: the middleware calls the handler exactly when the number of
    arguments lies in the range, and otherwise returns an error without
    calling it. *)
Theorem RequireRangeArgs_accepts (start end_ : Z) :
  (0 ≤ start)%Z →
  (start ≤ end_ ∨ (0 < start ∧ end_ = -1))%Z →
  ∃ mw, RequireRangeArgs start end_ = Ret mw
        ∧ ∀ next i,
            (inRange start end_ i → mw next i = next i)
            ∧ (¬ inRange start end_ i → ∃ e, mw next i = Ret (Some e)).
Proof.
  intros Hstart Hrange. unfold RequireRangeArgs.
  destruct (start <? 0)%Z eqn:Hneg; [apply Z.ltb_lt in Hneg; lia|].
  eexists. split; [reflexivity|]. intros next i. unfold inRange. cbv zeta.
  set (got := Z.of_nat (length (view_Args i))).
  split.
  - intros [Hlo Hhi]. repeat case_decide; try done; lia.
  - intros Hout. repeat case_decide; eauto; exfalso; apply Hout; lia.
Qed.

(** A range whose end lies below its start, other than the open range
    with a positive start: the middleware is built, and every call of it
    panics before the handler is reached.  The range from 0 with no
    upper bound is one of these. *)
Theorem RequireRangeArgs_panics (start end_ : Z) :
  ((start < 0)%Z →
     RequireRangeArgs start end_ = Panic (Errorf "start must be >= 0" []))
  ∧ ((0 ≤ start)%Z → (end_ < start)%Z → ¬ (0 < start ∧ end_ = -1)%Z →
     ∃ mw, RequireRangeArgs start end_ = Ret mw
           ∧ ∀ next i, mw next i = Panic (Errorf "start must be <= end" [])).
Proof.
  unfold RequireRangeArgs. split.
  - intros Hneg. apply Z.ltb_lt in Hneg. by rewrite Hneg.
  - intros Hstart Hend Hopen.
    destruct (start <? 0)%Z eqn:Hneg; [apply Z.ltb_lt in Hneg; lia|].
    eexists. split; [reflexivity|]. intros next i. cbv zeta.
    repeat case_decide; try done; lia.
Qed.

End MiddlewareFacts.

Section FindArgFacts.
Implicit Types (fs : pflag.FlagSet) (args : list string) (want : string).

Lemma findArg_loop_sound want fs args : ∀ i skip j,
  findArg_loop want fs i skip args = inr j →
  ∃ k, j = (i + k)%nat ∧ args !! k = Some want ∧ String.prefix "-" want = false.
Proof.
  induction args as [|arg rest IH]; intros i skip j; [done|].
  cbn [findArg_loop].
  assert (Hnext : ∀ b, findArg_loop want fs (S i) b rest = inr j →
            ∃ k, j = (i + k)%nat ∧ (arg :: rest) !! k = Some want
                 ∧ String.prefix "-" want = false).
  { intros b Hrec. apply IH in Hrec as (k & -> & Hk & Hp).
    exists (S k). split_and!; [lia|done..]. }
  destruct skip; [apply Hnext|].
  destruct (String.prefix "-" arg) eqn:Hp; cbn [negb].
  - destruct (containsEq arg); [apply Hnext|].
    destruct (pflag.Lookup fs (trimDashes arg)) as [f|]; [|done].
    case_decide; [apply Hnext|]. destruct rest; [done|apply Hnext].
  - case_decide as Heq; [|apply Hnext].
    intros [= <-]. subst arg. exists 0%nat. split_and!; [lia|done..].
Qed.

Lemma findArg_loop_plain want fs args : ∀ i,
  Forall (λ arg, String.prefix "-" arg = false) args →
  findArg_loop want fs i false args
  = match list_find (λ arg, arg = want) args with
    | Some (k, _) => inr (i + k)%nat
    | None => inl (Errorf "arg %s not found" [FmtString want])
    end.
Proof.
  induction args as [|arg rest IH]; intros i Hplain; [done|].
  apply Forall_cons in Hplain as [Harg Hrest].
  cbn [findArg_loop list_find]. rewrite Harg. cbn [negb].
  case_decide as Heq.
  - f_equal. lia.
  - rewrite IH by done.
    destruct (list_find _ rest) as [[k x]|]; cbn; [f_equal; lia|done].
Qed.

(** [findArg]: an index it returns lies within the arguments and holds
    the word that was asked for, and the word is not a flag.  When no
    argument is a flag, the index is that of the first occurrence of the
    word, and the search fails exactly when the word does not occur. *)
Theorem findArg_finds want args fs :
  (∀ i, findArg want args fs = inr i →
        (i < length args)%nat ∧ args !! i = Some want
        ∧ String.prefix "-" want = false)
  ∧ (Forall (λ arg, String.prefix "-" arg = false) args →
     (want ∈ args →
        ∃ i, findArg want args fs = inr i ∧ args !! i = Some want
             ∧ ∀ j, (j < i)%nat → args !! j ≠ Some want)
     ∧ (want ∉ args →
        findArg want args fs = inl (Errorf "arg %s not found" [FmtString want]))).
Proof.
  unfold findArg. split.
  - intros i Hi. apply findArg_loop_sound in Hi as (k & -> & Hk & Hp).
    split_and!; [|done..]. by apply lookup_lt_Some in Hk.
  - intros Hplain. rewrite findArg_loop_plain by done.
    destruct (list_find (λ arg, arg = want) args) as [[k x]|] eqn:Hfind.
    + apply list_find_Some in Hfind as (Hk & -> & Hbefore). split.
      * intros _. exists k. split_and!; [done..|].
        intros j Hj Hjk. by apply (Hbefore j want).
      * intros Hnot. destruct Hnot. by eapply list_elem_of_lookup_2.
    + apply list_find_None in Hfind. split; [|done].
      intros Hin. rewrite Forall_forall in Hfind. by destruct (Hfind want Hin).
Qed.

End FindArgFacts.

Section FlagSetFacts.
Context {V : Type} `{!ValueOps V}.
Implicit Types (fs : pflag.FlagSet) (f : pflag.Flag) (st : list V) (optSet : OptionSet).

Lemma declaredFlags_cons opt optSet st :
  declaredFlags (opt :: optSet) st
  = if decide (Option.Flag opt = "") then declaredFlags optSet st
    else
      flagOf opt
        match Option.Value opt with
        | Some r =>
            match st !! r with
            | Some v => default "" (value_NoOptDefValue v)
            | None => ""
            end
        | None => ""
        end :: declaredFlags optSet st.
Proof.
  unfold declaredFlags. rewrite filter_cons.
  case_decide as Hf; case_decide as Hf'; done.
Qed.

(** [AddFlag] panics on a flag that would leave the set ill-formed. *)
Lemma AddFlag_panics fs f :
  flagsWf (pflag.formal fs) → ¬ flagsWf (pflag.formal fs ++ [f]) →
  ∃ v, pflag.AddFlag fs f = Panic v.
Proof.
  intros Hwf Hnot. unfold pflag.AddFlag. rewrite Lookup_unfold.
  destruct (lookupFlag (pflag.formal fs) (pflag.Name f)) as [old|] eqn:Hold; [by eauto|].
  rewrite lookupFlag_None in Hold.
  destruct (pflag.Shorthand f) as [|c [|c' rest]] eqn:Hshort.
  - destruct Hnot. apply flagsWf_snoc; [done| |done].
    split; [rewrite Hshort; cbn; lia|].
    apply Forall_forall. intros g _ Hne. by rewrite Hshort in Hne.
  - destruct (pflag.lookupShorthand fs c) as [used|] eqn:Hused; [by eauto|].
    destruct Hnot. apply flagsWf_snoc; [done| |done].
    split; [rewrite Hshort; cbn; lia|].
    apply Forall_forall. intros g Hg _ Hsame.
    unfold pflag.lookupShorthand in Hused.
    eapply find_none in Hused; [|by apply list_elem_of_In].
    apply bool_decide_eq_false in Hused. destruct Hused. by rewrite <- Hsame.
  - by eauto.
Qed.

Lemma FlagSet_loop_spec optSet : ∀ fs st,
  flagsWf (pflag.formal fs) →
  (flagsWf (pflag.formal fs ++ declaredFlags optSet st) →
   FlagSet_loop fs optSet st
   = Ret (pflag.set_formal (pflag.formal fs ++ declaredFlags optSet st) fs))
  ∧ (¬ flagsWf (pflag.formal fs ++ declaredFlags optSet st) →
     ∃ v, FlagSet_loop fs optSet st = Panic v).
Proof.
  induction optSet as [|opt optSet IH]; intros fs st Hwf.
  - cbn. rewrite app_nil_r. split; [by destruct fs|done].
  - cbn [FlagSet_loop]. rewrite declaredFlags_cons.
    case_decide as Hflag; [by apply IH|].
    set (f := flagOf opt _).
    destruct (decide (flagsWf (pflag.formal fs ++ [f]))) as [Hf|Hf].
    + rewrite AddFlag_ok by done. cbn [mbind Res_bind].
      destruct (IH (pflag.set_formal (pflag.formal fs ++ [f]) fs) st) as [Hok Hbad];
        [done|].
      cbn [pflag.formal pflag.set_formal] in Hok, Hbad.
      rewrite <- app_assoc in Hok, Hbad. cbn [app] in Hok, Hbad.
      split; [|done]. intros Hall. rewrite Hok by done. by destruct fs.
    + destruct (AddFlag_panics fs f Hwf Hf) as [v ->]. split; [|by eauto].
      intros Hall. destruct Hf. eapply flagsWf_submseteq; [|done].
      apply submseteq_skips_l. apply submseteq_skip. apply submseteq_nil_l.
Qed.

(** [FlagSet]: when the flags that the options declare have distinct
    names and distinct shorthands of one letter, the flag set holds
    exactly these flags, in the order of the options; in every other case
    the call panics. *)
Theorem FlagSet_declared optSet st :
  (flagsWf (declaredFlags optSet st) →
   FlagSet optSet st = Ret (pflag.mkFlagSet "" (declaredFlags optSet st) []))
  ∧ (¬ flagsWf (declaredFlags optSet st) → ∃ v, FlagSet optSet st = Panic v).
Proof.
  unfold FlagSet.
  destruct (FlagSet_loop_spec optSet (pflag.NewFlagSet "") st) as [Hok Hbad].
  { apply (bool_decide_unpack _). by vm_compute. }
  done.
Qed.

End FlagSetFacts.

Section ChildrenFacts.
Implicit Types (c : Command.t) (cs : list Command.t) (m : gmap string Command.t).

Lemma addChildNames_spec c names : ∀ m,
  (NoDup names ∧ (∀ n, n ∈ names → m !! n = None)
   ∧ addChildNames c names m = inr (foldl (λ acc n, <[n := c]> acc) m names))
  ∨ (¬ (NoDup names ∧ (∀ n, n ∈ names → m !! n = None))
     ∧ ∃ n, addChildNames c names m
            = inl (Errorf "duplicate command name: %s" [FmtString n])
            ∧ n ∈ names).
Proof.
  induction names as [|n names IH]; intros m.
  - left. split_and!; [constructor| |done]. intros n Hn. by apply elem_of_nil in Hn.
  - cbn [addChildNames foldl]. destruct (m !! n) as [old|] eqn:Hn.
    + right. split.
      * intros [_ Hfree]. rewrite Hfree in Hn; [done|by left].
      * exists n. split; [done|by left].
    + destruct (IH (<[n := c]> m)) as [(Hnd & Hfree & ->)|(Hnot & n' & -> & Hn')].
      * left. split_and!; [|intros n' Hn'|done].
        -- apply NoDup_cons. split; [|done]. intros Hin.
           specialize (Hfree n Hin). by rewrite lookup_insert_eq in Hfree.
        -- apply elem_of_cons in Hn' as [->|Hn']; [done|].
           specialize (Hfree n' Hn').
           destruct (decide (n = n')) as [->|Hne];
             [by rewrite lookup_insert_eq in Hfree
             |by rewrite lookup_insert_ne in Hfree].
      * right. split; [|exists n'; split; [done|by right]].
        intros [Hnd Hfree]. apply NoDup_cons in Hnd as [Hnin Hnd].
        apply Hnot. split; [done|]. intros n0 Hn0.
        rewrite lookup_insert_ne; [|by intros ->]. apply Hfree. by right.
Qed.

Lemma foldl_insert_lookup c names : ∀ m n,
  foldl (λ acc n, <[n := c]> acc) m names !! n
  = if decide (n ∈ names) then Some c else m !! n.
Proof.
  induction names as [|n0 names IH]; intros m n; cbn [foldl].
  - rewrite decide_False; [done|]. apply not_elem_of_nil.
  - rewrite IH. destruct (decide (n0 = n)) as [->|Hne].
    + rewrite lookup_insert_eq. rewrite (decide_True (P := n ∈ n :: names)); [|by left].
      by case_decide.
    + rewrite lookup_insert_ne by done.
      case_decide as Hin; case_decide as Hin'; try done.
      * destruct Hin'. by right.
      * apply elem_of_cons in Hin' as [->|?]; done.
Qed.

Lemma buildChildren_spec cs : ∀ m,
  (NoDup (childNames cs) ∧ (∀ n, n ∈ childNames cs → m !! n = None)
   ∧ ∃ m', buildChildren cs m = inr m'
           ∧ ∀ n, m' !! n
                  = match list_find (λ c, n ∈ commandNames c) cs with
                    | Some (_, c) => Some c
                    | None => m !! n
                    end)
  ∨ (¬ (NoDup (childNames cs) ∧ (∀ n, n ∈ childNames cs → m !! n = None))
     ∧ ∃ n, buildChildren cs m
            = inl (Errorf "duplicate command name: %s" [FmtString n])
            ∧ n ∈ childNames cs).
Proof.
  induction cs as [|c cs IH]; intros m.
  - left. split_and!; [constructor| |by eauto]. intros n Hn. by apply elem_of_nil in Hn.
  - cbn [buildChildren]. fold (commandNames c).
    assert (Hnames : childNames (c :: cs) = commandNames c ++ childNames cs) by done.
    rewrite Hnames.
    destruct (addChildNames_spec c (commandNames c) m)
      as [(Hndc & Hfreec & ->)|(Hc & n & -> & Hn)].
    2:{ right. split.
        - intros [Hnd Hfree]. destruct Hc. split.
          + by apply NoDup_app in Hnd as (? & _ & _).
          + intros n' Hn'. apply Hfree. apply elem_of_app. by left.
        - exists n. split; [done|]. apply elem_of_app. by left. }
    set (m1 := foldl (λ acc n, <[n := c]> acc) m (commandNames c)).
    assert (Hm1 : ∀ n, m1 !! n = if decide (n ∈ commandNames c) then Some c else m !! n).
    { intros n. unfold m1. apply foldl_insert_lookup. }
    destruct (IH m1) as [(Hndcs & Hfree & m' & -> & Hm')|(Hnot & n & -> & Hn)].
    + assert (Hdisj : ∀ n, n ∈ commandNames c → n ∈ childNames cs → False).
      { intros n Hn Hn'. specialize (Hfree n Hn'). rewrite Hm1 in Hfree.
        by rewrite decide_True in Hfree. }
      left. split_and!.
      * apply NoDup_app. by split_and!.
      * intros n Hn. apply elem_of_app in Hn as [Hn|Hn]; [by apply Hfreec|].
        specialize (Hfree n Hn). rewrite Hm1 in Hfree. by case_decide.
      * exists m'. split; [done|]. intros n. rewrite Hm'. cbn [list_find].
        case_decide as Hin.
        -- destruct (list_find _ cs) as [[k c']|] eqn:Hfind.
           ++ apply list_find_Some in Hfind as (Hk & Hn & _).
              destruct (Hdisj n Hin). unfold childNames.
              apply list_elem_of_bind. exists c'. split; [done|].
              by eapply list_elem_of_lookup_2.
           ++ cbn. by rewrite Hm1, decide_True.
        -- destruct (list_find _ cs) as [[k c']|]; cbn; [done|].
           by rewrite Hm1, decide_False.
    + right. split; [|exists n; split; [done|apply elem_of_app; by right]].
      intros [Hnd Hfree]. apply NoDup_app in Hnd as (_ & Hdisj & Hndcs).
      apply Hnot. split; [done|]. intros n0 Hn0. rewrite Hm1. rewrite decide_False.
      * apply Hfree. apply elem_of_app. by right.
      * intros Hin. by apply (Hdisj n0).
Qed.

(** The lookup table of the children.  When the names and aliases of
    the children are all distinct, every one of them finds its command and
    no other word finds anything; when a word occurs twice among them,
    the table is refused with the error that names a word that occurs
    twice. *)
Theorem buildChildren_names cs :
  (NoDup (childNames cs) →
   ∃ m, buildChildren cs ∅ = inr m
        ∧ (∀ n c, m !! n = Some c → c ∈ cs ∧ n ∈ commandNames c)
        ∧ (∀ n c, c ∈ cs → n ∈ commandNames c → m !! n = Some c))
  ∧ (¬ NoDup (childNames cs) →
     ∃ n, buildChildren cs ∅ = inl (Errorf "duplicate command name: %s" [FmtString n])
          ∧ n ∈ childNames cs).
Proof.
  destruct (buildChildren_spec cs ∅) as [(Hnd & _ & m & Hm & Hlook)|(Hnot & Hbad)].
  2:{ split; [|done]. intros Hnd. destruct Hnot. by split. }
  split; [|done]. intros _. exists m. split; [done|]. split.
  - intros n c. rewrite Hlook.
    destruct (list_find _ cs) as [[k c']|] eqn:Hfind; [|done].
    apply list_find_Some in Hfind as (Hk & Hn & _). intros [= <-].
    split; [by eapply list_elem_of_lookup_2|done].
  - intros n c Hc Hn. rewrite Hlook.
    destruct (list_find _ cs) as [[k c']|] eqn:Hfind.
    + apply list_find_Some in Hfind as (Hk & Hn' & _). f_equal.
      apply list_elem_of_lookup_1 in Hc as [j Hj].
      destruct (decide (j = k)) as [->|Hjk]; [congruence|].
      exfalso. revert Hnd. unfold childNames.
      clear -Hj Hk Hjk Hn Hn'. revert j k Hj Hk Hjk.
      induction cs as [|c0 cs IH]; intros j k Hj Hk Hjk Hnd; [done|].
      cbn in Hnd. apply NoDup_app in Hnd as (_ & Hdisj & Hnd).
      destruct j as [|j], k as [|k]; simplify_eq/=.
      * apply (Hdisj n); [done|]. apply list_elem_of_bind. exists c'.
        split; [done|]. by eapply list_elem_of_lookup_2.
      * apply (Hdisj n); [done|]. apply list_elem_of_bind. exists c.
        split; [done|]. by eapply list_elem_of_lookup_2.
      * eapply (IH j k); eauto.
    + apply list_find_None in Hfind. rewrite Forall_forall in Hfind.
      by destruct (Hfind c Hc).
Qed.

End ChildrenFacts.

Section EnvironFacts.
Context {V : Type} `{!ValueOps V}.

Lemma envMap_shadowed (vs : list EnvVar.t) : ∀ (m : gmap string string) n v,
  n ∈ EnvVar.Name <$> vs →
  foldl (λ m e, <[EnvVar.Name e := EnvVar.Value e]> m) (<[n := v]> m) vs
  = foldl (λ m e, <[EnvVar.Name e := EnvVar.Value e]> m) m vs.
Proof.
  induction vs as [|e vs IH]; intros m n v Hn; [by apply elem_of_nil in Hn|].
  rewrite fmap_cons in Hn. cbn [foldl].
  destruct (decide (EnvVar.Name e = n)) as [<-|Hne].
  - by rewrite insert_insert_eq.
  - rewrite insert_insert_ne by done. apply IH.
    apply elem_of_cons in Hn as [->|Hn]; done.
Qed.

(** The environment is read into a map, so of two entries for one
    variable only the later one counts: [ParseEnv] does the same with and
    without an entry that a later entry of the same name follows. *)
Theorem ParseEnv_later_entry_wins (optSet : OptionSet) (vs1 vs2 : list EnvVar.t)
    (e : EnvVar.t) (st : list V) :
  EnvVar.Name e ∈ EnvVar.Name <$> vs2 →
  ParseEnv optSet (vs1 ++ e :: vs2) st = ParseEnv optSet (vs1 ++ vs2) st.
Proof.
  intros Hlater. unfold ParseEnv.
  replace (envMap (vs1 ++ e :: vs2)) with (envMap (vs1 ++ vs2)); [done|].
  unfold envMap. rewrite !foldl_app. cbn [foldl]. symmetry. by apply envMap_shadowed.
Qed.

Lemma groupDefaults_nil optSet r :
  groupDefaults optSet r = [] ↔ ∀ a, a ∈ aliases optSet r → Option.Default a = "".
Proof.
  unfold groupDefaults. split.
  - intros Hnil a Ha. destruct (decide (Option.Default a = "")) as [|Hd]; [done|].
    assert (Hin : Option.Default a ∈ filter (λ d : string, d ≠ "")
                    (Option.Default <$> aliases optSet r)).
    { apply list_elem_of_filter. split; [done|]. by apply list_elem_of_fmap_2. }
    rewrite Hnil in Hin. by apply elem_of_nil in Hin.
  - intros Hall. apply filter_none. intros d Hd.
    apply list_elem_of_fmap in Hd as (a & -> & Ha). intros Hne. by rewrite Hall in Hne.
Qed.

(** Which options [SetDefaults] leaves without a source: an option with
    a value, exactly when no option that shares the value has a source or
    declares a default; an option without a value keeps what it had.  So
    a default, its own or an alias's, is enough for a required option. *)
Theorem SetDefaults_leaves_none (optSet optSet' : OptionSet) (st st' : list V) err :
  refsValid (length st) optSet = true →
  SetDefaults optSet st = Ret (optSet', st', err) →
  ∀ i o, optSet' !! i = Some o →
    (Option.ValueSource o = ValueSourceNone ↔
       match Option.Value o with
       | Some r =>
           ∀ a, a ∈ aliases optSet r →
                Option.ValueSource a = ValueSourceNone ∧ Option.Default a = ""
       | None => Option.ValueSource <$> optSet !! i = Some ValueSourceNone
       end)
    ∧ (Option.Value o ≠ None → Option.Default o ≠ "" →
       Option.ValueSource o ≠ ValueSourceNone).
Proof.
  intros Hvalid Hsd i o Ho.
  destruct (SetDefaults_spec optSet st Hvalid) as (st2 & errs & Heq & _).
  rewrite Heq in Hsd. injection Hsd as <- _ _.
  rewrite list_lookup_fmap in Ho.
  destruct (optSet !! i) as [o0|] eqn:Ho0; [|done]. injection Ho as <-.
  assert (Hiff : Option.ValueSource (markDefault optSet o0) = ValueSourceNone ↔
            match Option.Value (markDefault optSet o0) with
            | Some r =>
                ∀ a, a ∈ aliases optSet r →
                     Option.ValueSource a = ValueSourceNone ∧ Option.Default a = ""
            | None => Option.ValueSource <$> Some o0 = Some ValueSourceNone
            end).
  { rewrite markDefault_Value. unfold markDefault.
    destruct (Option.Value o0) as [r|] eqn:Hv; cbn.
    - split.
      + intros Hnone. apply resolvedSource_None in Hnone as [Hbest Hdef].
        intros a Ha. split.
        * apply (bestSource_None_all _ _ Hbest). unfold groupSources.
          by apply list_elem_of_fmap_2.
        * by apply groupDefaults_nil with optSet r.
      + intros Hall. unfold resolvedSource.
        rewrite bestSource_all_None.
        * rewrite decide_True; [done|]. apply groupDefaults_nil. intros a Ha.
          by apply Hall.
        * intros vs Hvs. unfold groupSources in Hvs.
          apply list_elem_of_fmap in Hvs as (a & -> & Ha). by apply Hall.
    - split; [by intros ->|by intros [= ->]]. }
  split; [done|].
  intros Hv Hd Hnone. apply Hiff in Hnone.
  rewrite markDefault_Value in Hv, Hnone.
  destruct (Option.Value o0) as [r|] eqn:Hr; [|done].
  destruct (Hnone o0) as [_ Hd0].
  - unfold aliases. apply list_elem_of_filter. split; [done|].
    by eapply list_elem_of_lookup_2.
  - apply Hd. unfold markDefault. by rewrite Hr.
Qed.

End EnvironFacts.

Section AncestryFacts.

Lemma Ancestry_loop_app : ∀ (p : Group.t) (groups : list Group.t),
  Group.Ancestry_loop p groups = Group.Ancestry (Some p) ++ groups.
Proof.
  fix IH 1. intros [parent name yaml descr] groups.
  destruct parent as [q|]; cbn; [|done].
  rewrite (IH q (_ :: groups)), (IH q [_]). cbn.
  by rewrite <- app_assoc.
Qed.

Lemma append_assoc (a b c : string) : (a +:+ b) +:+ c = a +:+ (b +:+ c).
Proof.
  induction a as [|ch a IH]; [done|].
  change (String ch ((a +:+ b) +:+ c) = String ch (a +:+ (b +:+ c))). by rewrite IH.
Qed.

Lemma concat_snoc (sep x : string) (l : list string) :
  String.concat sep (l ++ [x])
  = match l with
    | [] => x
    | _ => String.concat sep l +:+ sep +:+ x
    end.
Proof.
  induction l as [|y l IH]; [done|].
  destruct l as [|z l]; [done|].
  change (String.concat sep ((y :: z :: l) ++ [x]))
    with (y +:+ sep +:+ String.concat sep ((z :: l) ++ [x])).
  rewrite IH.
  change (String.concat sep (y :: z :: l)) with (y +:+ sep +:+ String.concat sep (z :: l)).
  by rewrite !append_assoc.
Qed.

Lemma Ancestry_snoc (g : Group.t) :
  Group.Ancestry (Some g) = Group.Ancestry (Group.Parent g) ++ [g].
Proof. destruct g as [[p|] name yaml descr]; cbn; [|done]. apply Ancestry_loop_app. Qed.

Lemma Ancestry_nonempty (g : Group.t) : Group.Ancestry (Some g) ≠ [].
Proof. rewrite Ancestry_snoc. intros Hnil. by apply app_eq_nil in Hnil as [_ ?]. Qed.

(** [Ancestry] lists the groups from the outermost one down to the
    group itself: the ancestry of a group is that of its parent followed
    by the group.  Accordingly the full name of a group is its own name
    under the full name of its parent, and a nil group has no ancestry. *)
Theorem Ancestry_outermost_first (g : Group.t) :
  Group.Ancestry (Some g) = Group.Ancestry (Group.Parent g) ++ [g]
  ∧ Group.Ancestry None = []
  ∧ Group.FullName (Some g)
    = match Group.Parent g with
      | Some p => Group.FullName (Some p) +:+ " / " +:+ Group.Name g
      | None => Group.Name g
      end.
Proof.
  split_and!; [apply Ancestry_snoc|done|].
  unfold Group.FullName. rewrite Ancestry_snoc, fmap_app. cbn [fmap list_fmap].
  rewrite concat_snoc.
  destruct (Group.Parent g) as [p|]; [|done].
  pose proof (Ancestry_nonempty p) as Hne.
  by destruct (Group.Ancestry (Some p)).
Qed.

Lemma append_nonempty (a b : string) : b ≠ "" → a +:+ b ≠ "".
Proof. intros Hb. destruct a; [done|]. by change (String a a0 +:+ b) with (String a (a0 +:+ b)). Qed.

(** [YAMLPath]: empty exactly when the option has no YAML key; without
    a group it is the key, and within a group it is the key under the
    dotted keys of the ancestry of the group. *)
Theorem YAMLPath_key (o : Option.t) (group : option Group.t) :
  (YAMLPath o group = "" ↔ Option.YAML o = "")
  ∧ YAMLPath o None = Option.YAML o
  ∧ (Option.YAML o ≠ "" →
     ∀ g, YAMLPath o (Some g)
          = String.concat "." (Group.YAML <$> Group.Ancestry (Some g))
            +:+ "." +:+ Option.YAML o).
Proof.
  unfold YAMLPath. split_and!.
  - case_decide as Hy; [done|]. split; [|done]. rewrite concat_snoc.
    destruct (Group.YAML <$> Group.Ancestry group) as [|k ks]; [done|].
    intros Hnil. exfalso. revert Hnil. apply append_nonempty. by apply append_nonempty.
  - by case_decide.
  - intros Hy g. rewrite decide_False by done. rewrite concat_snoc.
    pose proof (Ancestry_nonempty g) as Hne.
    by destruct (Group.Ancestry (Some g)).
Qed.

(** Annotations: a marked key reads back with its value, every other
    key reads as before, and the nil map reads as the empty one. *)
Theorem Annotations_Mark_Get (a : Annotations) (key value key' : string) :
  Annotations.Get (Annotations.Mark a key value) key'
  = (if decide (key = key') then (value, true) else Annotations.Get a key')
  ∧ Annotations.IsSet (Annotations.Mark a key value) key'
    = (if decide (key = key') then true else Annotations.IsSet a key')
  ∧ Annotations.IsSet a key' = (Annotations.Get a key').2
  ∧ Annotations.Get None key' = ("", false).
Proof.
  unfold Annotations.Get, Annotations.IsSet, Annotations.Mark. split_and!.
  - rewrite lookup_insert. case_decide; [done|]. destruct a as [m|]; [done|].
    by rewrite lookup_empty.
  - rewrite lookup_insert. case_decide.
    + by apply bool_decide_eq_true_2.
    + destruct a as [m|]; [done|]. rewrite lookup_empty.
      apply bool_decide_eq_false_2. by intros [? ?].
  - destruct a as [m|]; [|done]. by destruct (m !! key') as [v|].
  - done.
Qed.

End AncestryFacts.

Section LimiterFacts.

Lemma wrap64_small (z : Z) : (- 2 ^ 63 ≤ z < 2 ^ 63)%Z → wrap64 z = z.
Proof. intros Hz. unfold wrap64. rewrite Z.mod_small; lia. Qed.

Section AnyWriter.
Context {W : Type} `{!ByteWriter W}.

Lemma Write_loop_app (p q : list ascii) : ∀ (lm : newlineLimiter W) (n : nat),
  Write_loop lm n (p ++ q)
  = let '(lm1, (n1, err)) := Write_loop lm n p in
    match err with
    | Some e => (lm1, (0%nat, Some e))
    | None => Write_loop lm1 n q
    end.
Proof.
  induction p as [|b p IH]; intros lm n; [done|].
  cbn [app Write_loop].
  destruct (limiterStep (limit lm) (newLineCounter lm) b) as [counter pass].
  cbn [lm_w limit newLineCounter].
  destruct pass; [|apply IH].
  destruct (WriteByte (lm_w lm) b) as [w [e|]]; [done|]. apply IH.
Qed.

Lemma Write_loop_count (p : list ascii) : ∀ (lm : newlineLimiter W) (n : nat),
  (Write_loop lm n p).2 = ((Write_loop lm 0 p).2.1 + match (Write_loop lm 0 p).2.2 with
                                                      | None => n
                                                      | Some _ => 0
                                                      end, (Write_loop lm 0 p).2.2)%nat
  ∧ (Write_loop lm n p).1 = (Write_loop lm 0 p).1
  ∧ (Write_loop lm 0 p).2.1 = 0%nat.
Proof.
  induction p as [|b p IH]; intros lm n; [done|].
  cbn [Write_loop].
  destruct (limiterStep (limit lm) (newLineCounter lm) b) as [counter pass].
  cbn [lm_w limit newLineCounter].
  destruct pass; [|apply IH].
  destruct (WriteByte (lm_w lm) b) as [w [e|]]; [done|]. apply IH.
Qed.

(** Writing in two pieces is writing in one: the limiter and the writer
    end in the same state, a failure in the first piece is the failure of
    the whole, and the counts of two successful writes add up. *)
Theorem Write_chunks (lm : newlineLimiter W) (p q : list ascii) :
  Write lm (p ++ q)
  = let '(lm1, (n1, err1)) := Write lm p in
    match err1 with
    | Some e => (lm1, (0%nat, Some e))
    | None =>
        let '(lm2, (n2, err2)) := Write lm1 q in
        (lm2, (match err2 with None => (n1 + n2)%nat | Some _ => 0%nat end, err2))
    end.
Proof.
  unfold Write. rewrite Write_loop_app, length_app.
  destruct (Write_loop_count p lm (length p + length q)) as (Hc1 & Hl1 & Hz1).
  destruct (Write_loop_count p lm (length p)) as (Hc2 & Hl2 & _).
  destruct (Write_loop lm (length p + length q) p) as [lm1 [n1 err1]].
  destruct (Write_loop lm (length p) p) as [lm1' [n1' err1']].
  destruct (Write_loop lm 0 p) as [lm0 [n0 err0]].
  cbn in *. simplify_eq.
  destruct err0 as [e|]; [done|].
  destruct (Write_loop_count q lm0 (length p + length q)) as (Hc3 & Hl3 & Hz3).
  destruct (Write_loop_count q lm0 (length q)) as (Hc4 & Hl4 & _).
  destruct (Write_loop lm0 (length p + length q) q) as [lm2 [n2 err2]].
  destruct (Write_loop lm0 (length q) q) as [lm2' [n2' err2']].
  destruct (Write_loop lm0 0 q) as [lm3 [n3 err3]].
  cbn in *. simplify_eq. destruct err3; [done|]. do 2 f_equal.
Qed.

End AnyWriter.

Lemma newlinesBounded_run (lim : Z) (k : nat) : ∀ (c : Z) (rest : list ascii),
  newlinesBounded lim c (replicate k "010"%char ++ rest) → (0 < k)%nat →
  (c + Z.of_nat k ≤ lim)%Z.
Proof.
  induction k as [|k IH]; intros c rest Hb Hk; [lia|].
  cbn [replicate app newlinesBounded] in Hb. rewrite decide_True in Hb by done.
  destruct Hb as [Hc Hb]. destruct k as [|k]; [lia|].
  apply IH in Hb; lia.
Qed.

Lemma newlinesBounded_no_run (lim : Z) (l1 : list ascii) : ∀ (c : Z) (out l2 : list ascii),
  (0 ≤ c)%Z → newlinesBounded lim c out →
  out ≠ l1 ++ replicate (S (Z.to_nat lim)) "010"%char ++ l2.
Proof.
  induction l1 as [|b l1 IH]; intros c out l2 Hc Hb ->.
  - apply newlinesBounded_run in Hb; lia.
  - cbn [app newlinesBounded] in Hb. case_decide.
    + destruct Hb as [_ Hb]. eapply (IH (c + 1)%Z); [lia|exact Hb|done].
    + destruct (isSpace b).
      * eapply (IH c); [lia|exact Hb|done].
      * eapply (IH 0%Z); [lia|exact Hb|done].
Qed.

Lemma newlinesBounded_mono (lim : Z) (out : list ascii) : ∀ c1 c2 : Z,
  (c2 ≤ c1)%Z → newlinesBounded lim c1 out → newlinesBounded lim c2 out.
Proof.
  induction out as [|b out IH]; intros c1 c2 Hle; [done|].
  cbn [newlinesBounded]. case_decide.
  - intros [Hc Hb]. split; [lia|]. apply (IH (c1 + 1)%Z); [lia|done].
  - destruct (isSpace b); [by apply IH|done].
Qed.

Lemma Write_loop_buffer (p : list ascii) : ∀ (out0 : list ascii) (lim c : Z) (n : nat),
  (0 ≤ c)%Z → (c + Z.of_nat (length p) < 2 ^ 63)%Z →
  ∃ out c',
    Write_loop (mkLimiter out0 lim c) n p = (mkLimiter (out0 ++ out) lim c', (n, None))
    ∧ (carriageReturn ∉ out)
    ∧ newlinesBounded lim c out
    ∧ filter (λ b, b ≠ newline ∧ b ≠ carriageReturn) out
      = filter (λ b, b ≠ newline ∧ b ≠ carriageReturn) p
    ∧ (0 ≤ c' ≤ c + Z.of_nat (length p))%Z.
Proof.
  induction p as [|b p IH]; intros out0 lim c n Hc Hlen.
  - exists [], c. rewrite app_nil_r. cbn [length] in *.
    split_and!; try done; try lia. apply not_elem_of_nil.
  - cbn [length] in *. cbn [Write_loop limit newLineCounter lm_w].
    unfold limiterStep.
    destruct (decide (b = carriageReturn)) as [->|Hcr].
    { destruct (IH out0 lim c n) as (out & c' & -> & Hnocr & Hb & Hf & Hc'); [lia..|].
      exists out, c'. split_and!; try done; lia. }
    destruct (decide (b = newline)) as [->|Hnl].
    { rewrite wrap64_small by lia.
      destruct (lim <? c + 1)%Z eqn:Hlim; cbn [negb].
      - destruct (IH out0 lim (c + 1)%Z n) as (out & c' & -> & Hnocr & Hb & Hf & Hc');
          [lia..|].
        exists out, c'. split_and!; try done; try lia.
        apply (newlinesBounded_mono lim out (c + 1)%Z c); [lia|done].
      - cbn [WriteByte buffer_writer].
        destruct (IH (out0 ++ [newline]) lim (c + 1)%Z n)
          as (out & c' & -> & Hnocr & Hb & Hf & Hc'); [lia..|].
        exists (newline :: out), c'. rewrite <- app_assoc.
        apply Z.ltb_ge in Hlim. split_and!; try done; try lia.
        apply not_elem_of_cons. by split. }
    assert (Hkeep : ∀ out,
              filter (λ b, b ≠ newline ∧ b ≠ carriageReturn) out
              = filter (λ b, b ≠ newline ∧ b ≠ carriageReturn) p →
              filter (λ b, b ≠ newline ∧ b ≠ carriageReturn) (b :: out)
              = filter (λ b, b ≠ newline ∧ b ≠ carriageReturn) (b :: p)).
    { intros out Hf. by rewrite !filter_cons_True, Hf by done. }
    destruct (isSpace b) eqn:Hsp; cbn [negb WriteByte buffer_writer].
    + destruct (IH (out0 ++ [b]) lim c n) as (out & c' & -> & Hnocr & Hb & Hf & Hc');
        [lia..|].
      exists (b :: out), c'. rewrite <- app_assoc.
      split_and!; try done; try lia; try (by apply Hkeep);
        try (apply not_elem_of_cons; by split);
        cbn [newlinesBounded]; by rewrite decide_False, Hsp.
    + destruct (IH (out0 ++ [b]) lim 0%Z n) as (out & c' & -> & Hnocr & Hb & Hf & Hc');
        [lia..|].
      exists (b :: out), c'. rewrite <- app_assoc.
      split_and!; try done; try lia; try (by apply Hkeep);
        try (apply not_elem_of_cons; by split);
        cbn [newlinesBounded]; by rewrite decide_False, Hsp.
Qed.

(** What the limiter lets through to a writer that does not fail.  The
    write reports the whole length.  No carriage return is written;
    every other byte that is not a newline is written, in the order of
    the input; and of the newlines that follow a byte which is not a
    space at most [limit] are written, so the output never holds more
    than [limit] newlines in a row.  The counter starts at [c], not
    negative, and the input is shorter than the counter has room for. *)
Theorem Write_limits_newlines (out0 p : list ascii) (lim c : Z) :
  (0 ≤ c)%Z → (c + Z.of_nat (length p) < 2 ^ 63)%Z →
  ∃ out c',
    Write (mkLimiter out0 lim c) p = (mkLimiter (out0 ++ out) lim c', (length p, None))
    ∧ (carriageReturn ∉ out)
    ∧ filter (λ b, b ≠ newline ∧ b ≠ carriageReturn) out
      = filter (λ b, b ≠ newline ∧ b ≠ carriageReturn) p
    ∧ newlinesBounded lim c out
    ∧ ∀ l1 l2, out ≠ l1 ++ replicate (S (Z.to_nat lim)) newline ++ l2.
Proof.
  intros Hc Hlen. unfold Write.
  destruct (Write_loop_buffer p out0 lim c (length p) Hc Hlen)
    as (out & c' & Hw & Hnocr & Hb & Hf & Hc').
  exists out, c'. split_and!; try done.
  intros l1 l2. by eapply newlinesBounded_no_run.
Qed.

End LimiterFacts.

Section ComparatorSort.
Context {A : Type} (cmp : A → A → Z) (R : relation A).
Hypothesis cmp_lt : ∀ x y, (cmp x y < 0)%Z → R x y.
Hypothesis cmp_ge : ∀ x y, ¬ (cmp x y < 0)%Z → R y x.
Hypothesis R_trans : Transitive R.




End ComparatorSort.

Section InitFacts.



Lemma Command_ind' (P : Command.t → Prop) :
  (∀ c, Forall P (Command.Children c) → P c) → ∀ c, P c.
Proof.
  intros H. fix IH 1. intros c. apply H.
  destruct c as [children use aliases hidden deprecated rawArgs options mw h hh version].
  cbn [Command.Children]. revert children. fix IHl 1.
  intros [|child children]; constructor; [apply IH|apply IHl].
Qed.

Lemma errors_Join_Some merr e : errors_Join merr e ≠ None.
Proof. done. Qed.

Lemma initOption_spec opt merr :
  (initOption opt merr).1 = nameOption opt
  ∧ ((initOption opt merr).2 = None ↔ merr = None ∧ goodOption opt).
Proof.
  unfold initOption. cbn [fst snd]. split; [done|].
  assert (Hdescr : Option.Description (nameOption opt) = Option.Description opt).
  { unfold nameOption. repeat case_decide; done. }
  rewrite Hdescr. unfold goodOption.
  repeat first
    [ case_decide
    | match goal with
      | |- context [unicode_IsLower ?x] => destruct (unicode_IsLower x)
      | |- context [strings_HasSuffix ?x ?y] => destruct (strings_HasSuffix x y)
      end ];
    cbn [negb]; split; try done; intuition; try done; try congruence.
Qed.

Lemma initOptions_spec opts : ∀ merr,
  (initOptions opts merr).1 = nameOption <$> opts
  ∧ ((initOptions opts merr).2 = None ↔ merr = None ∧ Forall goodOption opts).
Proof.
  induction opts as [|opt opts IH]; intros merr.
  - cbn. split; [done|]. split; [by intros ->|by intros [-> _]].
  - cbn [initOptions].
    destruct (initOption_spec opt merr) as [H1 H2].
    destruct (initOption opt merr) as [opt' merr1]. cbn [fst snd] in H1, H2.
    destruct (IH merr1) as [H3 H4].
    destruct (initOptions opts merr1) as [opts' merr2]. cbn [fst snd] in *.
    split; [by rewrite fmap_cons, H1, H3|].
    rewrite H4, H2, Forall_cons. tauto.
Qed.

Lemma children_errors {B} (name : B → string) (err : B → option lintError) (l : list B) :
  ∀ merr,
  foldl (λ merr x,
           match err x with
           | Some e => errors_Join merr (InCommand (name x) e)
           | None => merr
           end) merr l = None
  ↔ merr = None ∧ Forall (λ x, err x = None) l.
Proof.
  induction l as [|x l IH]; intros merr; cbn [foldl].
  - split; [by intros ->|by intros [-> _]].
  - rewrite IH, Forall_cons. destruct (err x) as [e|]; [|tauto].
    split; [by intros [? _]|by intros [_ [? _]]].
Qed.

Lemma lintFree_unfold c :
  lintFree c ↔ Forall goodOption (Command.Options c) ∧ Forall lintFree (Command.Children c).
Proof.
  destruct c as [children use aliases hidden deprecated rawArgs options mw h hh version].
  cbn [lintFree Command.Options Command.Children].
  assert (Hfold : foldr and True (lintFree <$> children) ↔ Forall lintFree children).
  { induction children as [|ch children IH]; cbn; [by split|].
    rewrite Forall_cons. tauto. }
  by rewrite Hfold.
Qed.

(** [init] reports no error exactly when every option of every
    command of the tree passes the checks: it has a name, a flag, an
    environment variable or a YAML key, and its description, if any,
    does not start with a lower-case letter and ends with a period. *)
Theorem initTree_verdict (c : Command.t) :
  (initTree c).2 = None ↔ lintFree c.
Proof.
  induction c as [c IH] using Command_ind'.
  rewrite lintFree_unfold.
  destruct c as [children use aliases hidden deprecated rawArgs options mw h hh version].
  cbn [initTree Command.Options Command.Children] in *.
  destruct (initOptions_spec options None) as [_ Hopts].
  destruct (initOptions options None) as [options' merr]. cbn [snd] in *.
  rewrite (children_errors (λ x : Command.t * (Command.t * option lintError),
                              Command.Name x.2.1) (λ x, x.2.2)).
  rewrite Hopts.
  set (inits := (λ child, (child, initTree child)) <$> children).
  assert (Hperm : slices_SortFunc
            (λ a b : Command.t * (Command.t * option lintError),
               ascendingSortFn (Command.Name a.1) (Command.Name b.1)) inits ≡ₚ inits)
    by apply slices_SortFunc_perm.
  rewrite Hperm. unfold inits. rewrite Forall_fmap.
  rewrite Forall_forall in IH.
  split.
  - intros [[_ Ho] Hc]. split; [done|]. apply Forall_forall. intros ch Hch.
    apply (IH ch Hch). rewrite Forall_forall in Hc. apply (Hc ch Hch).
  - intros [Ho Hc]. split; [done|]. apply Forall_forall. intros ch Hch. cbn.
    apply (IH ch Hch). rewrite Forall_forall in Hc. by apply Hc.
Qed.


Lemma find_none_Forall {B} (f : B → bool) (l : list B) :
  List.find f l = None ↔ Forall (λ x, f x = false) l.
Proof.
  induction l as [|x l IH]; cbn; [by split|].
  rewrite Forall_cons. destruct (f x); [|tauto].
  split; [done|]. by intros [? _].
Qed.

Lemma find_app_None {B} (f : B → bool) (l1 l2 : list B) :
  List.find f l1 = None → List.find f (l1 ++ l2) = List.find f l2.
Proof.
  induction l1 as [|x l1 IH]; cbn; [done|]. by destruct (f x).
Qed.

Lemma ByName_None (l : OptionSet) name :
  ByName l name = None ↔ Forall (λ o, Option.Name o ≠ name) l.
Proof.
  unfold ByName. rewrite find_none_Forall. apply Forall_proper; [|done].
  intros o. by rewrite bool_decide_eq_false.
Qed.

Lemma ByFlag_None (l : OptionSet) flag :
  flag ≠ "" → ByFlag l flag = None ↔ Forall (λ o, Option.Flag o ≠ flag) l.
Proof.
  intros Hflag. unfold ByFlag. rewrite decide_False by done.
  rewrite find_none_Forall. apply Forall_proper; [|done].
  intros o. by rewrite bool_decide_eq_false.
Qed.

Lemma initTree_Version c : Command.Version (initTree c).1 = Command.Version c.
Proof.
  destruct c as [children use aliases hidden deprecated rawArgs options mw h hh version].
  cbn [initTree]. by destruct (initOptions options None).
Qed.

Lemma initTree_Options c :
  Command.Options (initTree c).1 ≡ₚ nameOption <$> Command.Options c.
Proof.
  destruct c as [children use aliases hidden deprecated rawArgs options mw h hh version].
  cbn [initTree Command.Options].
  destruct (initOptions_spec options None) as [Hnames _].
  destruct (initOptions options None) as [options' merr]. cbn [fst] in Hnames.
  subst options'. cbn [fst Command.Options]. apply slices_SortFunc_perm.
Qed.

Lemma nameOption_Flag o : Option.Flag (nameOption o) = Option.Flag o.
Proof. unfold nameOption. by repeat case_decide. Qed.

Section Version.
Context {V : Type} `{!ValueOps V} (BoolOf : bool → V).

(** [init] and the version option.  The error is that of the checks,
    whatever the parent and the version.  At a command without a parent that has a version, and none of whose
    options is named [version], after the naming, or has the flag
    [version], a boolean option [version] with a new value is added
    behind the sorted options; in every other case the options and the
    values are those of the checks alone.  So at a root that has a version,
    some option answers to [version] afterwards. *)
Theorem init_version (hasParent : bool) (c : Command.t) (st : list V) :
  let wanted :=
    hasParent = false ∧ Command.Version c ≠ ""
    ∧ Forall (λ o, Option.Name (nameOption o) ≠ "version" ∧ Option.Flag o ≠ "version")
        (Command.Options c) in
  let '(c', st', merr) := init BoolOf hasParent c st in
  merr = (initTree c).2
  ∧ (if decide wanted
     then Command.Options c' = Command.Options (initTree c).1 ++ [versionOption (length st)]
          ∧ st' = st ++ [BoolOf false]
     else c' = (initTree c).1 ∧ st' = st)
  ∧ (hasParent = false → Command.Version c ≠ "" →
     ByName (Command.Options c') "version" ≠ None
     ∨ ByFlag (Command.Options c') "version" ≠ None).
Proof.
  intros wanted. unfold init.
  pose proof (initTree_Version c) as Hversion.
  pose proof (initTree_Options c) as Hperm.
  destruct (initTree c) as [c1 merr]. cbn [fst snd] in *.
  assert (Hnone : ByName (Command.Options c1) "version" = None
                  ∧ ByFlag (Command.Options c1) "version" = None
                  ↔ Forall (λ o, Option.Name (nameOption o) ≠ "version"
                                 ∧ Option.Flag o ≠ "version") (Command.Options c)).
  { rewrite ByName_None, ByFlag_None by done. rewrite !Hperm, !Forall_fmap.
    rewrite <- Forall_and. apply Forall_proper; [|done].
    intros o. cbn. by rewrite nameOption_Flag. }
  rewrite Hversion.
  destruct hasParent; cbn [negb andb].
  { split_and!; [done| |done]. rewrite decide_False; [done|]. by intros [? _]. }
  destruct (decide (Command.Version c = "")) as [Hv|Hv].
  { rewrite (bool_decide_eq_false_2 _) by (by intros ?). cbn [andb].
    split_and!; [done| |done]. rewrite decide_False; [done|]. by intros (_ & ? & _). }
  rewrite (bool_decide_eq_true_2 _ Hv). cbn [andb].
  destruct (ByName (Command.Options c1) "version") as [o|] eqn:HN.
  { rewrite (bool_decide_eq_false_2 _) by done. cbn [andb].
    split_and!; [done| |intros _ _; left; congruence].
    rewrite decide_False; [done|]. intros (_ & _ & Hall). by apply Hnone in Hall as [? _]. }
  rewrite (bool_decide_eq_true_2 _ eq_refl). cbn [andb].
  destruct (ByFlag (Command.Options c1) "version") as [o|] eqn:HF.
  { rewrite (bool_decide_eq_false_2 _) by done.
    split_and!; [done| |intros _ _; right; congruence].
    rewrite decide_False; [done|]. intros (_ & _ & Hall). by apply Hnone in Hall as [_ ?]. }
  rewrite (bool_decide_eq_true_2 _ eq_refl).
  split_and!; [done| |].
  - rewrite decide_True; [by destruct c1|]. split_and!; [done|done|]. by apply Hnone.
  - intros _ _. left. destruct c1. cbn [Command.set_Options Command.Options].
    cbn [Command.Options] in HN. unfold ByName in *. by rewrite find_app_None.
Qed.

End Version.

End InitFacts.

Section VersionRun.
Context {V : Type} {VO : ValueOps V} (BoolOf : bool → V) (ext : Externals (V := V)).

(** Evaluation of a run whose values are not known: the left side of
    the goal is brought to head normal form, the arguments of a call of an
    unknown function are evaluated, and the call is replaced by what the
    hypotheses say of it. *)
Ltac whnf_lhs :=
  match goal with
  | |- ?X = _ => let X' := eval lazy head in X in change X with X'
  end.

Ltac stuck_args f :=
  repeat match goal with
    | |- context [f ?x] =>
        progress (let x' := eval lazy in x in change (f x) with (f x'))
    end.

Ltac stuck_args2 f :=
  repeat match goal with
    | |- context [f ?x ?y] =>
        progress (let x' := eval lazy in x in
                  let y' := eval lazy in y in
                  change (f x y) with (f x' y'))
    end.

Ltac settle_lhs vno vyaml vset icm Hno Hset Hyaml Hc :=
  repeat (whnf_lhs; stuck_args vno; stuck_args vyaml; stuck_args2 vset; stuck_args icm;
          first [rewrite Hno | rewrite Hset | rewrite Hyaml | rewrite Hc]);
  whnf_lhs.

(** [Run] with the single argument [--version], at a command that has
    a version and neither options nor children of its own, outside
    completion mode: [init] adds the version option, the parse sets it,
    and [run] prints the name and the version on the standard output and
    returns no error, whatever handler, help handler and middleware the
    command has; none of them is called.  The boolean value is taken to
    behave as a flag that needs no argument and accepts [true]. *)
Theorem Run_prints_version use aliases hidden deprecated mw h hh version env :
  version ≠ "" → IsCompletionMode ext env = false →
  value_NoOptDefValue (BoolOf false) = Some "true" →
  value_Set "true" (BoolOf false) = (BoolOf true, None) →
  value_isYAMLConfigPath (BoolOf true) = false →
  let c := Command.mk [] use aliases hidden deprecated false [] mw h hh version in
  ∃ r, Run BoolOf ext (Invocation.mk c [] None ["--version"] env) [] = Some (Ran (Ret r))
    ∧ result r = None
    ∧ log r = (if decide (deprecated ≠ "")
               then [Fprintf Stderr "%s %q is deprecated!. %s\n"
                       [FmtString "warning"; FmtString (Command.Name (initTree c).1);
                        FmtString deprecated]]
               else [])
              ++ [Fprintf Stdout "%s\n"
                    [FmtString (Command.Name (initTree c).1 +:+ " " +:+ version)]]
    ∧ store r = [BoolOf true].
Proof.
  intros Hv Hc Hno Hset Hyaml c. unfold c.
  destruct version as [|a v]; [done|]. clear Hv.
  destruct ext as [icm compl rc rh]. cbn [IsCompletionMode] in Hc.
  destruct VO as [vset vstr vtype vyaml vno].
  cbn [value_NoOptDefValue value_Set value_isYAMLConfigPath] in *.
  eexists. split.
  - settle_lhs vno vyaml vset icm Hno Hset Hyaml Hc.
    apply (f_equal Some), (f_equal Ran).
    settle_lhs vno vyaml vset icm Hno Hset Hyaml Hc.
    reflexivity.
  - split_and!.
    + settle_lhs vno vyaml vset icm Hno Hset Hyaml Hc. reflexivity.
    + reflexivity.
    + settle_lhs vno vyaml vset icm Hno Hset Hyaml Hc. reflexivity.
Qed.

End VersionRun.

Section DispatchFacts.
Context {V : Type} `{!ValueOps V}.
Implicit Types (ext : Externals (V := V)) (inv : Invocation.t) (state : runState)
  (st : list V) (before : list Event).

Lemma parseArgs_positional (args : list string) : ∀ (fs : pflag.FlagSet) st,
  Forall positional args →
  pflag.parseArgs fs args st = Ret (pflag.set_args (pflag.args fs ++ args) fs, st, None).
Proof.
  induction args as [|s args IH]; intros fs st Hpos.
  - cbn. rewrite app_nil_r. by destruct fs.
  - apply Forall_cons in Hpos as [Hs Hpos]. cbn [pflag.parseArgs].
    assert (Hstep : pflag.parseArgs (pflag.set_args (pflag.args fs ++ [s]) fs) args st
                    = Ret (pflag.set_args (pflag.args fs ++ s :: args) fs, st, None)).
    { rewrite IH by done. destruct fs. cbn. by rewrite <- app_assoc. }
    destruct s as [|c0 [|c s']]; [exact Hstep|exact Hstep|].
    rewrite decide_True; [exact Hstep|]. intros ->. done.
Qed.

(** The resolution at a command without options, when no argument is
    a flag: every argument is positional, and nothing else changes. *)
Lemma resolve_plain ext inv state st before children :
  Command.Options (Invocation.Command inv) = [] →
  Command.RawArgs (Invocation.Command inv) = false →
  buildChildren (Command.Children (Invocation.Command inv)) ∅ = inr children →
  Forall positional (allArgs state) →
  ∃ inv',
    resolve ext inv state st before
    = Go (inv', set_flagParseErr None state, st,
          before ++ deprecationWarning (Invocation.parents inv) (Invocation.Command inv),
          children, allArgs state)
    ∧ Invocation.Command inv' = Invocation.Command inv
    ∧ Invocation.parents inv' = Invocation.parents inv
    ∧ Invocation.Environ inv' = Invocation.Environ inv.
Proof.
  intros Hopts Hraw Hch Hpos. unfold resolve, settle.
  rewrite Hopts, Hch. cbn. rewrite Hraw. cbn.
  unfold mergeFlags. cbn. unfold pflag.Parse. rewrite parseArgs_positional by done. cbn.
  eexists. split.
  - f_equal. repeat f_equal. unfold deprecationWarning.
    case_decide; [done|by rewrite app_nil_r].
  - destruct inv as [[] ? ? ? ?]. cbn in *. by subst.
Qed.

(** The last part at such a command when it has a handler. *)
Lemma terminal_handler ext inv state st before parsedArgs h :
  IsCompletionMode ext (Invocation.Environ inv) = false →
  Command.Options (Invocation.Command inv) = [] →
  Command.RawArgs (Invocation.Command inv) = false →
  flagParseErr state = None →
  (commandDepth state ≤ length parsedArgs)%nat →
  Command.Handler (Invocation.Command inv) = Some h →
  let cmd := Invocation.Command inv in
  let args := drop (commandDepth state) parsedArgs in
  let name := Command.FullName (Invocation.parents inv) cmd in
  finish (terminal ext inv state st before parsedArgs)
  = match default (Chain []) (Command.Middleware cmd) h
            (mkView args (length (Command.Children cmd))) with
    | Ret err =>
        Ret (mkRunResult (RunCommandError name <$> err) (InvocationOps.set_Args args inv) st
               (before ++ [CallHandler name args]))
    | Panic v => Panic v
    end.
Proof.
  intros Hc Hopts Hraw Herr Hdepth Hh cmd args name. unfold terminal.
  rewrite Hc, Hraw, Herr, Hopts. cbn.
  unfold handlerArgs. rewrite Hraw. rewrite decide_True by done. cbn.
  unfold versionRequested. cbn. rewrite Hopts.
  change (ByFlag [] "version") with (@None Option.t).
  rewrite Hh. subst cmd args name.
  match goal with |- context [lift ?x] => destruct x end;
    by destruct (decide (Command.Version (Invocation.Command inv) ≠ "")).
Qed.

(** One call of [run] at such a command: with a child for the next
    argument it goes on at the child, one argument further. *)
Lemma run_fuel_descend fuel ext inv state st before children word child :
  Command.Options (Invocation.Command inv) = [] →
  Command.RawArgs (Invocation.Command inv) = false →
  buildChildren (Command.Children (Invocation.Command inv)) ∅ = inr children →
  Forall positional (allArgs state) →
  allArgs state !! commandDepth state = Some word →
  children !! word = Some child →
  ∃ inv',
    run_fuel (S fuel) ext inv state st before
    = run_fuel fuel ext inv'
        (mkRunState (allArgs state) (S (commandDepth state)) None) st
        (before ++ deprecationWarning (Invocation.parents inv) (Invocation.Command inv))
    ∧ Invocation.Command inv' = child
    ∧ Invocation.parents inv' = Invocation.Command inv :: Invocation.parents inv
    ∧ Invocation.Environ inv' = Invocation.Environ inv.
Proof.
  intros Hopts Hraw Hch Hpos Hword Hchild.
  destruct (resolve_plain ext inv state st before children)
    as (inv' & Hres & Hcmd & Hpar & Henv); [done..|].
  exists (InvocationOps.descend child inv'). cbn [run_fuel]. rewrite Hres.
  cbn [set_flagParseErr commandDepth allArgs]. rewrite Hword. cbn. rewrite Hchild.
  split; [done|]. cbn. by rewrite Hcmd, Hpar, Henv.
Qed.

(** One call of [run] at such a command that has a handler and no
    child for the next argument: the handler is called. *)
Lemma run_fuel_handler fuel ext inv state st before children h :
  Command.Options (Invocation.Command inv) = [] →
  Command.RawArgs (Invocation.Command inv) = false →
  buildChildren (Command.Children (Invocation.Command inv)) ∅ = inr children →
  Forall positional (allArgs state) →
  (commandDepth state ≤ length (allArgs state))%nat →
  allArgs state !! commandDepth state ≫= (λ nextArg, children !! nextArg) = None →
  IsCompletionMode ext (Invocation.Environ inv) = false →
  Command.Handler (Invocation.Command inv) = Some h →
  let cmd := Invocation.Command inv in
  let args := drop (commandDepth state) (allArgs state) in
  let name := Command.FullName (Invocation.parents inv) cmd in
  let log := before ++ deprecationWarning (Invocation.parents inv) cmd
             ++ [CallHandler name args] in
  ∃ inv',
    Invocation.Command inv' = cmd ∧ Invocation.Args inv' = args
    ∧ run_fuel (S fuel) ext inv state st before
      = Some match default (Chain []) (Command.Middleware cmd) h
                     (mkView args (length (Command.Children cmd))) with
             | Ret err => Ret (mkRunResult (RunCommandError name <$> err) inv' st log)
             | Panic v => Panic v
             end.
Proof.
  intros Hopts Hraw Hch Hpos Hdepth Hnext Hc Hh cmd args name log.
  destruct (resolve_plain ext inv state st before children)
    as (inv' & Hres & Hcmd & Hpar & Henv); [done..|].
  exists (InvocationOps.set_Args args inv'). split_and!; [done|done|].
  rewrite (run_fuel_terminal _ _ _ _ _ _ _ _ _ _ _ _ Hres) by done.
  rewrite (terminal_handler ext inv' _ st _ _ h); cbn [set_flagParseErr commandDepth flagParseErr];
    rewrite ?Hcmd, ?Hpar, ?Henv; try done.
  subst log. by rewrite <- app_assoc.
Qed.

(** A command without options, run on arguments none of which is a
    flag and the first of which names no child: the handler is called
    with all the arguments, behind the middleware of the command.  An
    error of the handler comes back as a [RunCommandError] under the name
    of the command, a panic of the handler is a panic of [run], and no
    value changes. *)
Theorem handler_sees_arguments ext root children args env st h :
  Command.Options root = [] →
  Command.RawArgs root = false →
  buildChildren (Command.Children root) ∅ = inr children →
  Forall positional args →
  head args ≫= (λ arg, children !! arg) = None →
  Command.Handler root = Some h →
  IsCompletionMode ext env = false →
  let outcome :=
    default (Chain []) (Command.Middleware root) h
      (mkView args (length (Command.Children root))) in
  (∀ err, outcome = Ret err →
     ∃ r, run ext (Invocation.mk root [] None args env) st = Some (Ret r)
          ∧ result r = RunCommandError (Command.Name root) <$> err
          ∧ Invocation.Args (final r) = args
          ∧ store r = st
          ∧ log r = deprecationWarning [] root ++ [CallHandler (Command.Name root) args])
  ∧ (∀ v, outcome = Panic v →
       run ext (Invocation.mk root [] None args env) st = Some (Panic v)).
Proof.
  intros Hopts Hraw Hch Hpos Hnext Hh Hc outcome. unfold run. cbn [Invocation.Args].
  destruct (run_fuel_handler (length args) ext (Invocation.mk root [] None args env)
              (mkRunState args 0 None) st [] children h)
    as (inv' & Hcmd & Hargs & Hrun);
    [cbn [allArgs commandDepth Invocation.Command Invocation.Environ];
     try done; try (cbn; lia); try (by rewrite <- head_lookup)..|].
  cbn [allArgs commandDepth Invocation.parents Invocation.Command Invocation.Environ]
    in Hrun, Hargs.
  change (drop 0 args) with args in Hrun, Hargs.
  rewrite Hrun. fold outcome.
  change (Command.FullName [] root) with (Command.Name root). split.
  - intros err ->. eexists. split; [done|]. by cbn.
  - by intros v ->.
Qed.

(** A word that names a child sends the run to the child.  Root and
    child have no options, no argument is a flag, and the word after the
    name names no child of the child: the handler of the child is called
    with the arguments after the name, under the name of the root
    followed by that of the child, and the handler of the root is not
    called. *)
Theorem subcommand_dispatch ext root children child grandchildren word rest env st h :
  Command.Options root = [] →
  Command.RawArgs root = false →
  buildChildren (Command.Children root) ∅ = inr children →
  children !! word = Some child →
  Command.Options child = [] →
  Command.RawArgs child = false →
  buildChildren (Command.Children child) ∅ = inr grandchildren →
  head rest ≫= (λ arg, grandchildren !! arg) = None →
  Command.Handler child = Some h →
  Forall positional (word :: rest) →
  IsCompletionMode ext env = false →
  let name := Command.FullName [root] child in
  let outcome :=
    default (Chain []) (Command.Middleware child) h
      (mkView rest (length (Command.Children child))) in
  (∀ err, outcome = Ret err →
     ∃ r, run ext (Invocation.mk root [] None (word :: rest) env) st = Some (Ret r)
          ∧ result r = RunCommandError name <$> err
          ∧ Invocation.Command (final r) = child
          ∧ Invocation.Args (final r) = rest
          ∧ store r = st
          ∧ log r = deprecationWarning [] root ++ deprecationWarning [root] child
                    ++ [CallHandler name rest])
  ∧ (∀ v, outcome = Panic v →
       run ext (Invocation.mk root [] None (word :: rest) env) st = Some (Panic v)).
Proof.
  intros Hopts Hraw Hch Hword Hopts' Hraw' Hch' Hnext Hh Hpos Hc name outcome.
  unfold run. cbn [Invocation.Args length].
  destruct (run_fuel_descend (S (length rest)) ext
              (Invocation.mk root [] None (word :: rest) env)
              (mkRunState (word :: rest) 0 None) st [] children word child)
    as (inv1 & Hrun1 & Hcmd1 & Hpar1 & Henv1); [done..|].
  rewrite Hrun1. cbn [allArgs commandDepth Invocation.parents Invocation.Command
                        Invocation.Environ app] in *.
  destruct (run_fuel_handler (length rest) ext inv1 (mkRunState (word :: rest) 1 None) st
              (deprecationWarning [] root) grandchildren h)
    as (inv2 & Hcmd2 & Hargs2 & Hrun2);
    [cbn [allArgs commandDepth length]; rewrite ?Hcmd1, ?Hpar1, ?Henv1;
     try done; try lia;
     try (change ((word :: rest) !! 1%nat) with (rest !! 0%nat);
          by rewrite <- head_lookup)..|].
  cbn [allArgs commandDepth] in Hrun2, Hargs2. rewrite Hcmd1, Hpar1 in Hrun2.
  change (drop 1 (word :: rest)) with rest in Hrun2, Hargs2.
  rewrite Hrun2. fold name. fold outcome. rewrite Hcmd1 in Hcmd2. split.
  - intros err ->. eexists. split; [done|]. by cbn.
  - by intros v ->.
Qed.

(** A command with raw arguments, without options, run as the root:
    nothing is parsed, so no argument is taken for a flag or for the
    name of a child, and the handler is called with the arguments as
    they were given. *)
Theorem raw_arguments_passed_on ext root children args env st h :
  Command.Options root = [] →
  Command.RawArgs root = true →
  buildChildren (Command.Children root) ∅ = inr children →
  Command.Handler root = Some h →
  IsCompletionMode ext env = false →
  let outcome :=
    default (Chain []) (Command.Middleware root) h
      (mkView args (length (Command.Children root))) in
  (∀ err, outcome = Ret err →
     ∃ r, run ext (Invocation.mk root [] None args env) st = Some (Ret r)
          ∧ result r = RunCommandError (Command.Name root) <$> err
          ∧ Invocation.Command (final r) = root
          ∧ Invocation.Args (final r) = args
          ∧ store r = st
          ∧ log r = deprecationWarning [] root ++ [CallHandler (Command.Name root) args])
  ∧ (∀ v, outcome = Panic v →
       run ext (Invocation.mk root [] None args env) st = Some (Panic v)).
Proof.
  intros Hopts Hraw Hch Hh Hc outcome.
  destruct root as [ch use al hid dep raw opts mw h' hh ver]. cbn in Hopts, Hraw, Hch, Hh.
  subst opts raw h'. unfold run. cbn [Invocation.Args run_fuel].
  unfold resolve, settle. cbn. rewrite Hch. cbn. unfold terminal. cbn. rewrite Hc. cbn.
  unfold handlerArgs, versionRequested. cbn.
  change (ByFlag [] "version") with (@None Option.t).
  unfold deprecationWarning, outcome. cbn.
  destruct (decide (0 = 0)%nat) as [_|]; [|done].
  split.
  - intros err Hout.
    destruct (decide (ver ≠ "")), (decide (dep ≠ "")); cbn; rewrite Hout; cbn;
      eexists; split_and!; done.
  - intros v Hout.
    destruct (decide (ver ≠ "")), (decide (dep ≠ "")); cbn; by rewrite Hout.
Qed.

End DispatchFacts.

(** * Instances of the further properties *)

Lemma RequireRangeArgs_accepts_witness :
  ∃ mw, RequireRangeArgs 1 2 = Ret mw
        ∧ ∀ next i,
            (inRange 1 2 i → mw next i = next i)
            ∧ (¬ inRange 1 2 i → ∃ e, mw next i = Ret (Some e)).
Proof. apply (RequireRangeArgs_accepts 1 2); lia. Defined.

Lemma RequireRangeArgs_panics_witness :
  RequireRangeArgs (-1) 0 = Panic (Errorf "start must be >= 0" [])
  ∧ ∃ mw, RequireRangeArgs 0 (-1) = Ret mw
          ∧ ∀ next i, mw next i = Panic (Errorf "start must be <= end" []).
Proof.
  split.
  - apply (proj1 (RequireRangeArgs_panics (-1) 0)). lia.
  - apply (proj2 (RequireRangeArgs_panics 0 (-1))); lia.
Defined.

Lemma findArg_finds_witness :
  ∃ i, findArg "sub" ["root"; "sub"; "sub"] Ex.inherited = inr i
       ∧ ["root"; "sub"; "sub"] !! i = Some "sub"
       ∧ ∀ j, (j < i)%nat → ["root"; "sub"; "sub"] !! j ≠ Some "sub".
Proof.
  apply (proj2 (findArg_finds "sub" ["root"; "sub"; "sub"] Ex.inherited)).
  - apply (bool_decide_unpack _). vm_compute. exact I.
  - apply (bool_decide_unpack _). vm_compute. exact I.
Defined.

Lemma FlagSet_declared_witness :
  FlagSet Ex.envSet Ex.envStore
  = Ret (pflag.mkFlagSet "" (declaredFlags Ex.envSet Ex.envStore) []).
Proof.
  apply (proj1 (FlagSet_declared Ex.envSet Ex.envStore)).
  apply (bool_decide_unpack _). vm_compute. exact I.
Defined.

Lemma buildChildren_names_witness :
  ∃ m, buildChildren [Ex.sub; Ex.req] ∅ = inr m
       ∧ (∀ n c, m !! n = Some c → c ∈ [Ex.sub; Ex.req] ∧ n ∈ commandNames c)
       ∧ (∀ n c, c ∈ [Ex.sub; Ex.req] → n ∈ commandNames c → m !! n = Some c).
Proof.
  apply (proj1 (buildChildren_names [Ex.sub; Ex.req])).
  apply (bool_decide_unpack _). vm_compute. exact I.
Defined.

Lemma ParseEnv_later_entry_wins_witness :
  ParseEnv Ex.fooSet ([] ++ Ex.fooFirst :: [Ex.fooLast]) Ex.aliasStore
  = ParseEnv Ex.fooSet ([] ++ [Ex.fooLast]) Ex.aliasStore.
Proof.
  apply (ParseEnv_later_entry_wins Ex.fooSet [] [Ex.fooLast] Ex.fooFirst Ex.aliasStore).
  apply (bool_decide_unpack _). vm_compute. exact I.
Defined.

Lemma SetDefaults_leaves_none_witness :
  ∃ optSet' st' err,
    SetDefaults Ex.agreeSet Ex.aliasStore = Ret (optSet', st', err)
    ∧ ∀ i o, optSet' !! i = Some o →
        (Option.ValueSource o = ValueSourceNone ↔
           match Option.Value o with
           | Some r =>
               ∀ a, a ∈ aliases Ex.agreeSet r →
                    Option.ValueSource a = ValueSourceNone ∧ Option.Default a = ""
           | None => Option.ValueSource <$> Ex.agreeSet !! i = Some ValueSourceNone
           end)
        ∧ (Option.Value o ≠ None → Option.Default o ≠ "" →
           Option.ValueSource o ≠ ValueSourceNone).
Proof.
  eexists _, _, _. split; [vm_compute; reflexivity|].
  refine (SetDefaults_leaves_none Ex.agreeSet _ Ex.aliasStore _ _ _ _).
  - reflexivity.
  - vm_compute. reflexivity.
Defined.

Lemma YAMLPath_key_witness :
  YAMLPath Ex.yamlOpt (Some Ex.innerGroup)
  = String.concat "." (Group.YAML <$> Group.Ancestry (Some Ex.innerGroup))
    +:+ "." +:+ Option.YAML Ex.yamlOpt.
Proof.
  apply (proj2 (proj2 (YAMLPath_key Ex.yamlOpt None))). done.
Defined.

Lemma Write_limits_newlines_witness :
  ∃ out c',
    Write (mkLimiter [] 2 0) Ex.paragraphs
    = (mkLimiter ([] ++ out) 2 c', (length Ex.paragraphs, None))
    ∧ (carriageReturn ∉ out)
    ∧ filter (λ b, b ≠ newline ∧ b ≠ carriageReturn) out
      = filter (λ b, b ≠ newline ∧ b ≠ carriageReturn) Ex.paragraphs
    ∧ newlinesBounded 2 0 out
    ∧ ∀ l1 l2, out ≠ l1 ++ replicate (S (Z.to_nat 2)) newline ++ l2.
Proof.
  apply (Write_limits_newlines [] Ex.paragraphs 2 0).
  - lia.
  - vm_compute. reflexivity.
Defined.


Lemma init_version_witness :
  ByName (Command.Options (init Bool_ false Ex.bare []).1.1) "version" ≠ None
  ∨ ByFlag (Command.Options (init Bool_ false Ex.bare []).1.1) "version" ≠ None.
Proof.
  pose proof (init_version Bool_ false Ex.bare []) as H.
  destruct (init Bool_ false Ex.bare []) as [[c' st'] merr].
  apply H; done.
Defined.

Lemma Run_prints_version_witness :
  ∃ r, Run Bool_ Ex.plain (Invocation.mk Ex.bare [] None ["--version"] []) []
       = Some (Ran (Ret r))
    ∧ result r = None
    ∧ log r = (if decide ("" ≠ "")
               then [Fprintf Stderr "%s %q is deprecated!. %s\n"
                       [FmtString "warning"; FmtString (Command.Name (initTree Ex.bare).1);
                        FmtString ""]]
               else [])
              ++ [Fprintf Stdout "%s\n"
                    [FmtString (Command.Name (initTree Ex.bare).1 +:+ " " +:+ "1.0")]]
    ∧ store r = [Bool_ true].
Proof.
  apply (Run_prints_version Bool_ Ex.plain "tool" [] false "" None (Some Ex.okHandler)
           None "1.0" []); done.
Defined.

Lemma handler_sees_arguments_witness :
  ∃ r, run Ex.plain (Invocation.mk Ex.tree [] None ["x"; "leaf"] []) Ex.aliasStore
       = Some (Ret r)
       ∧ result r = RunCommandError (Command.Name Ex.tree) <$> None
       ∧ Invocation.Args (final r) = ["x"; "leaf"]
       ∧ store r = Ex.aliasStore
       ∧ log r = deprecationWarning [] Ex.tree
                 ++ [CallHandler (Command.Name Ex.tree) ["x"; "leaf"]].
Proof.
  refine (proj1 (handler_sees_arguments Ex.plain Ex.tree (<["leaf" := Ex.leaf]> ∅)
                   ["x"; "leaf"] [] Ex.aliasStore Ex.okHandler _ _ _ _ _ _ _) None _).
  - reflexivity.
  - reflexivity.
  - vm_compute. reflexivity.
  - apply (bool_decide_unpack _). vm_compute. exact I.
  - vm_compute. reflexivity.
  - reflexivity.
  - reflexivity.
  - reflexivity.
Defined.

Lemma subcommand_dispatch_witness :
  ∃ r, run Ex.plain (Invocation.mk Ex.tree [] None ["leaf"; "x"] []) Ex.aliasStore
       = Some (Ret r)
       ∧ result r = RunCommandError (Command.FullName [Ex.tree] Ex.leaf) <$> None
       ∧ Invocation.Command (final r) = Ex.leaf
       ∧ Invocation.Args (final r) = ["x"]
       ∧ store r = Ex.aliasStore
       ∧ log r = deprecationWarning [] Ex.tree ++ deprecationWarning [Ex.tree] Ex.leaf
                 ++ [CallHandler (Command.FullName [Ex.tree] Ex.leaf) ["x"]].
Proof.
  refine (proj1 (subcommand_dispatch Ex.plain Ex.tree (<["leaf" := Ex.leaf]> ∅) Ex.leaf ∅
                   "leaf" ["x"] [] Ex.aliasStore Ex.okHandler _ _ _ _ _ _ _ _ _ _ _) None _).
  - reflexivity.
  - reflexivity.
  - vm_compute. reflexivity.
  - vm_compute. reflexivity.
  - reflexivity.
  - reflexivity.
  - reflexivity.
  - reflexivity.
  - reflexivity.
  - apply (bool_decide_unpack _). vm_compute. exact I.
  - reflexivity.
  - reflexivity.
Defined.

Lemma raw_arguments_passed_on_witness :
  ∃ r, run Ex.plain (Invocation.mk Ex.rawTree [] None ["leaf"; "--x"] []) Ex.aliasStore
       = Some (Ret r)
       ∧ result r = RunCommandError (Command.Name Ex.rawTree) <$> None
       ∧ Invocation.Command (final r) = Ex.rawTree
       ∧ Invocation.Args (final r) = ["leaf"; "--x"]
       ∧ store r = Ex.aliasStore
       ∧ log r = deprecationWarning [] Ex.rawTree
                 ++ [CallHandler (Command.Name Ex.rawTree) ["leaf"; "--x"]].
Proof.
  refine (proj1 (raw_arguments_passed_on Ex.plain Ex.rawTree (<["leaf" := Ex.leaf]> ∅)
                   ["leaf"; "--x"] [] Ex.aliasStore Ex.okHandler _ _ _ _ _) None _).
  - reflexivity.
  - reflexivity.
  - vm_compute. reflexivity.
  - reflexivity.
  - reflexivity.
  - reflexivity.
Defined.
